(** * Minesweeper: the game engine of [script.js]

    A shallow embedding of the engine part of [script.js] (board creation,
    deferred mine placement, adjacency counts, flood fill, flags, win and loss)
    and the properties of it that the specification states.

    Conventions of the embedding.
    - The module-level [let] variables of the script are the fields of one
      record [Game]; every function of the script takes the game and returns
      the game it leaves behind.
    - A cell object is shared between [board], the arrays returned by
      [getNeighbors] and the flood-fill queue.  The store of cell objects is
      [board]; a reference to a cell object is its position in [board]; a
      write [cell.f = v] is an in-place [alter] at that position.
    - Reading a property of [undefined] throws a [TypeError]; a [while] loop
      can run for ever.  Both are outcomes of a run, next to normal
      completion ([Outcome]).
    - [Math.random] is an oracle: [placeMines] is given the finite list of the
      coordinates that the successive pairs of calls produce.
    - The DOM is left out, except for the class of the message element, which
      is the only place where the script records whether a finished game was
      won or lost, and for whether the timer is running.  The interval
      callback that advances [timeElapsed] runs between commands and is not
      part of any of them; it is an event of its own ([Tick]).  The texts
      written into the two counters and the cell an arrow key gives the focus
      to are the results of [formatNumber], [updateMinesRemaining] and
      [onArrowKey]. *)

From Stdlib Require Import ZArith Lia Bool.
From Stdlib Require Ascii String DecimalString.
From stdpp Require Import base option list gmap.

Open Scope Z_scope.
Open Scope nat_scope.

(** ** Data model *)

(** The object literal pushed by [createEmptyBoard], without [el]. *)
Record Cell := mkCell {
  row : nat;
  col : nat;
  mine : bool;
  adjacent : nat;
  revealed : bool;
  flagged : bool
}.

(** [messageEl.className]: ['message '], ['message win'] or ['message lose']. *)
Inductive Banner := NoBanner | WinBanner | LoseBanner.

(** An entry of [difficulties]. *)
Record Difficulty := mkDifficulty {
  d_cols : nat;
  d_rows : nat;
  d_mines : Z
}.

Definition beginner : Difficulty := mkDifficulty 9 9 10.
Definition intermediate : Difficulty := mkDifficulty 16 16 40.
Definition expert : Difficulty := mkDifficulty 30 16 99.

(** A reference to a cell object: its place [(r, c)] in [board]. *)
Definition Pos : Type := nat * nat.

Record Game := mkGame {
  board : list (list Cell);
  cols : nat;
  rows : nat;
  mineCount : Z;
  flagsPlaced : Z;
  firstClick : bool;
  gameOver : bool;
  revealedCount : Z;
  timerRunning : bool;
  timeElapsed : Z;
  banner : Banner
}.

#[global] Instance Cell_eq_dec : EqDecision Cell.
Proof. solve_decision. Defined.
#[global] Instance Banner_eq_dec : EqDecision Banner.
Proof. solve_decision. Defined.
#[global] Instance Game_eq_dec : EqDecision Game.
Proof. solve_decision. Defined.

(** Field writes. *)
Definition set_mine (v : bool) (c : Cell) : Cell :=
  mkCell (row c) (col c) v (adjacent c) (revealed c) (flagged c).
Definition set_adjacent (v : nat) (c : Cell) : Cell :=
  mkCell (row c) (col c) (mine c) v (revealed c) (flagged c).
Definition set_revealed (v : bool) (c : Cell) : Cell :=
  mkCell (row c) (col c) (mine c) (adjacent c) v (flagged c).
Definition set_flagged (v : bool) (c : Cell) : Cell :=
  mkCell (row c) (col c) (mine c) (adjacent c) (revealed c) v.

Definition set_board (b : list (list Cell)) (g : Game) : Game :=
  mkGame b (cols g) (rows g) (mineCount g) (flagsPlaced g) (firstClick g)
         (gameOver g) (revealedCount g) (timerRunning g) (timeElapsed g) (banner g).
Definition set_flagsPlaced (v : Z) (g : Game) : Game :=
  mkGame (board g) (cols g) (rows g) (mineCount g) v (firstClick g)
         (gameOver g) (revealedCount g) (timerRunning g) (timeElapsed g) (banner g).
Definition set_firstClick (v : bool) (g : Game) : Game :=
  mkGame (board g) (cols g) (rows g) (mineCount g) (flagsPlaced g) v
         (gameOver g) (revealedCount g) (timerRunning g) (timeElapsed g) (banner g).
Definition set_gameOver (v : bool) (g : Game) : Game :=
  mkGame (board g) (cols g) (rows g) (mineCount g) (flagsPlaced g) (firstClick g)
         v (revealedCount g) (timerRunning g) (timeElapsed g) (banner g).
Definition set_revealedCount (v : Z) (g : Game) : Game :=
  mkGame (board g) (cols g) (rows g) (mineCount g) (flagsPlaced g) (firstClick g)
         (gameOver g) v (timerRunning g) (timeElapsed g) (banner g).
Definition set_timerRunning (v : bool) (g : Game) : Game :=
  mkGame (board g) (cols g) (rows g) (mineCount g) (flagsPlaced g) (firstClick g)
         (gameOver g) (revealedCount g) v (timeElapsed g) (banner g).
Definition set_timeElapsed (v : Z) (g : Game) : Game :=
  mkGame (board g) (cols g) (rows g) (mineCount g) (flagsPlaced g) (firstClick g)
         (gameOver g) (revealedCount g) (timerRunning g) v (banner g).
Definition set_banner (v : Banner) (g : Game) : Game :=
  mkGame (board g) (cols g) (rows g) (mineCount g) (flagsPlaced g) (firstClick g)
         (gameOver g) (revealedCount g) (timerRunning g) (timeElapsed g) v.

(** ** Outcomes of a run *)

Inductive Outcome (A : Type) : Type :=
  | Done (a : A)
  | TypeError
  | Spin.
Arguments Done {A} a.
Arguments TypeError {A}.
Arguments Spin {A}.

#[global] Instance Outcome_ret : MRet Outcome := @Done.
#[global] Instance Outcome_bind : MBind Outcome := fun A B f m =>
  match m with
  | Done a => f a
  | TypeError => TypeError
  | Spin => Spin
  end.

(** [xs.forEach(f)] and a [for] loop over [xs], threading the state. *)
Fixpoint forEach {A S : Type} (f : A -> S -> Outcome S) (xs : list A) (s : S)
  : Outcome S :=
  match xs with
  | [] => Done s
  | x :: xs' =>
      match f x s with
      | Done s' => forEach f xs' s'
      | TypeError => TypeError
      | Spin => Spin
      end
  end.

(** ** The store of cell objects *)

(** [board[r][c]], [None] where JavaScript gives [undefined] or throws. *)
Definition getCell (g : Game) (p : Pos) : option Cell :=
  board g !! p.1 ≫= fun cells => cells !! p.2.

(** Reading a property of the object at [p]. *)
Definition deref (g : Game) (p : Pos) : Outcome Cell :=
  match getCell g p with
  | Some c => Done c
  | None => TypeError
  end.

(** Writing properties of the object at [p]. *)
Definition updCell (p : Pos) (f : Cell -> Cell) (g : Game) : Game :=
  set_board (alter (alter f p.2) p.1 (board g)) g.

(** The pairs [(r, c)] in the order of the nested loops
    [for r < rows) for (c < cols]. *)
Definition allPos (g : Game) : list Pos :=
  r ← seq 0 (rows g); c ← seq 0 (cols g); [(r, c)].

(** ** The functions of the script *)

Definition stopTimer (g : Game) : Game := set_timerRunning false g.
Definition startTimer (g : Game) : Game := set_timerRunning true g.
Definition resetTimer (g : Game) : Game := set_timeElapsed 0%Z (stopTimer g).

Definition emptyCell (r c : nat) : Cell := mkCell r c false 0 false false.

Definition createEmptyBoard (g : Game) : Game :=
  set_board (map (fun r => map (fun c => emptyCell r c) (seq 0 (cols g)))
                 (seq 0 (rows g))) g.

(** The positions whose objects [getNeighbors(r, c)] returns, in its order. *)
Definition getNeighbors (g : Game) (r c : nat) : list Pos :=
  dr ← [-1; 0; 1]%Z; dc ← [-1; 0; 1]%Z;
  if ((dr =? 0) && (dc =? 0))%Z then [] else
  let nr := (Z.of_nat r + dr)%Z in
  let nc := (Z.of_nat c + dc)%Z in
  if ((0 <=? nr) && (nr <? Z.of_nat (rows g)) &&
      (0 <=? nc) && (nc <? Z.of_nat (cols g)))%Z
  then [(Z.to_nat nr, Z.to_nat nc)] else [].

(** The callback of the [reduce] in [countAdjacentMines]. *)
Definition addMine (g : Game) (n : Pos) (acc : nat) : Outcome nat :=
  cell ← deref g n;
  Done (acc + (if mine cell then 1 else 0)).

Definition countAdjacentMines (g : Game) (r c : nat) : Outcome nat :=
  forEach (addMine g) (getNeighbors g r c) 0.

(** The [while (placed < mineCount)] loop of [placeMines]; [picks] are the
    coordinates drawn, one pair for each turn of the loop. *)
Fixpoint placeLoop (picks : list Pos) (safeZone : gset Pos) (placed : Z) (g : Game)
  : Outcome Game :=
  if (placed <? mineCount g)%Z then
    match picks with
    | [] => Spin
    | p :: picks' =>
        match getCell g p with
        | None => TypeError
        | Some cell =>
            if mine cell then placeLoop picks' safeZone placed g
            else if decide (p ∈ safeZone) then placeLoop picks' safeZone placed g
            else placeLoop picks' safeZone (placed + 1)%Z (updCell p (set_mine true) g)
        end
    end
  else Done g.

Definition assignAdjacent (p : Pos) (g : Game) : Outcome Game :=
  cell ← deref g p;
  if negb (mine cell) then
    n ← countAdjacentMines g p.1 p.2;
    Done (updCell p (set_adjacent n) g)
  else Done g.

Definition placeMines (picks : list Pos) (safeRow safeCol : nat) (g : Game)
  : Outcome Game :=
  g' ← placeLoop picks {[ (safeRow, safeCol) ]} 0%Z g;
  forEach assignAdjacent (allPos g') g'.

Definition toggleFlag (p : Pos) (g : Game) : Outcome Game :=
  cell ← deref g p;
  if revealed cell then Done g else
  let g' := updCell p (set_flagged (negb (flagged cell))) g in
  if negb (flagged cell)
  then Done (set_flagsPlaced (flagsPlaced g' + 1)%Z g')
  else Done (set_flagsPlaced (flagsPlaced g' - 1)%Z g').

(** The callback of the [forEach] in [floodReveal]. *)
Definition floodVisit (n : Pos) (st : Game * list Pos) : Outcome (Game * list Pos) :=
  cell ← deref st.1 n;
  if negb (revealed cell) && negb (flagged cell) && negb (mine cell) then
    let g' := updCell n (set_revealed true) st.1 in
    let g'' := set_revealedCount (revealedCount g' + 1)%Z g' in
    if 0 <? adjacent cell then Done (g'', st.2) else Done (g'', st.2 ++ [n])
  else Done st.

(** The [while (queue.length)] loop of [floodReveal]; [fuel] bounds the number
    of turns. *)
Fixpoint floodLoop (fuel : nat) (queue : list Pos) (visited : gset Pos) (g : Game)
  : Outcome Game :=
  match queue with
  | [] => Done g
  | ref :: rest =>
      match fuel with
      | O => Spin
      | S fuel' =>
          match getCell g ref with
          | None => TypeError
          | Some cell =>
              let key := (row cell, col cell) in
              if decide (key ∈ visited) then floodLoop fuel' rest visited g
              else
                match forEach floodVisit (getNeighbors g (row cell) (col cell)) (g, rest) with
                | Done st => floodLoop fuel' st.2 ({[ key ]} ∪ visited) st.1
                | TypeError => TypeError
                | Spin => Spin
                end
          end
      end
  end.

(** More turns than the loop can take: every turn shifts one entry, and an
    entry is pushed only for a cell that goes from covered to revealed. *)
Definition floodFuel (g : Game) : nat := S (length (concat (board g))).

Definition floodReveal (startCell : Pos) (g : Game) : Outcome Game :=
  floodLoop (floodFuel g) [startCell] ∅ g.

(** The constant [totalSafe] of [checkWin]. *)
Definition totalSafe (g : Game) : Z :=
  (Z.of_nat (rows g) * Z.of_nat (cols g) - mineCount g)%Z.

Definition checkWin (g : Game) : bool :=
  (totalSafe g <=? revealedCount g)%Z && negb (gameOver g).

(** The state change of the loop body of [revealAllMines]; the [else if]
    branch only touches the DOM. *)
Definition exposeMine (p : Pos) (g : Game) : Outcome Game :=
  cell ← deref g p;
  if mine cell && negb (revealed cell)
  then Done (updCell p (set_revealed true) g)
  else Done g.

Definition revealAllMines (won : bool) (g : Game) : Outcome Game :=
  forEach exposeMine (allPos g) g.

Definition endGame (win : bool) (g : Game) : Outcome Game :=
  let g1 := stopTimer (set_gameOver true g) in
  if win then revealAllMines true (set_banner WinBanner g1)
  else revealAllMines false (set_banner LoseBanner g1).

Definition revealCell (picks : list Pos) (p : Pos) (g : Game) : Outcome Game :=
  cell ← deref g p;
  if revealed cell || flagged cell then Done g else
  g1 ← (if firstClick g
        then g' ← placeMines picks (row cell) (col cell) g;
             Done (startTimer (set_firstClick false g'))
        else Done g);
  let g2 := updCell p (set_revealed true) g1 in
  let g3 := set_revealedCount (revealedCount g2 + 1)%Z g2 in
  cell' ← deref g3 p;
  if mine cell' then endGame false g3 else
  g4 ← (if adjacent cell' =? 0 then floodReveal p g3 else Done g3);
  if checkWin g4 then endGame true g4 else Done g4.

(** [getCellFromEvent] for an event on the element with attributes
    [data-row = r] and [data-col = c]: [board[r][c]], which throws when
    [board[r]] is [undefined]. *)
Definition getCellFromEvent (g : Game) (e : Pos) : Outcome (option Cell) :=
  match board g !! e.1 with
  | None => TypeError
  | Some cells => Done (cells !! e.2)
  end.

Definition onCellClick (picks : list Pos) (e : Pos) (g : Game) : Outcome Game :=
  cell ← getCellFromEvent g e;
  match cell with
  | None => Done g
  | Some cell =>
      if gameOver g then Done g
      else if flagged cell then Done g
      else revealCell picks e g
  end.

Definition onCellRightClick (e : Pos) (g : Game) : Outcome Game :=
  cell ← getCellFromEvent g e;
  match cell with
  | None => Done g
  | Some cell =>
      if gameOver g then Done g
      else if revealed cell then Done g
      else toggleFlag e g
  end.

(** What [onCellKeyDown] tells apart in [e.key]: [Enter], [' '] and
    [Spacebar]; [f] and [F]; anything else (the arrow keys only move the
    focus). *)
Inductive Key := RevealKey | FlagKey | OtherKey.

Definition onCellKeyDown (key : Key) (picks : list Pos) (e : Pos) (g : Game)
  : Outcome Game :=
  cell ← getCellFromEvent g e;
  match cell with
  | None => Done g
  | Some cell =>
      if gameOver g then Done g
      else match key with
           | RevealKey => if negb (flagged cell) then revealCell picks e g else Done g
           | FlagKey => if negb (revealed cell) then toggleFlag e g else Done g
           | OtherKey => Done g
           end
  end.

(** The timeout callback set up by [enableLongPress], when it fires. *)
Definition onLongPress (e : Pos) (g : Game) : Outcome Game :=
  cell ← getCellFromEvent g e;
  match cell with
  | None => Done g
  | Some cell =>
      if negb (revealed cell) && negb (gameOver g) then toggleFlag e g else Done g
  end.

(** [resetGame] with the record it destructures as a parameter; the script
    always destructures [difficulties.beginner]. *)
Definition resetGameTo (d : Difficulty) (g : Game) : Game :=
  let g1 := set_banner NoBanner (resetTimer (stopTimer g)) in
  let g2 := set_firstClick true
              (set_flagsPlaced 0%Z (set_revealedCount 0%Z (set_gameOver false g1))) in
  createEmptyBoard
    (mkGame (board g2) (d_cols d) (d_rows d) (d_mines d) (flagsPlaced g2)
            (firstClick g2) (gameOver g2) (revealedCount g2) (timerRunning g2)
            (timeElapsed g2) (banner g2)).

Definition resetGame (g : Game) : Game := resetGameTo beginner g.

(** The module-level initialisers, before the first [resetGame]. *)
Definition initialGame : Game :=
  mkGame [] 9 9 10%Z 0%Z true false 0%Z false 0%Z NoBanner.

(** ** Commands *)

(** [window.__Minesweeper__.reset(config)]: the exported [reset] is
    [resetGame], which declares no parameter, so an argument is dropped. *)
Definition reset (config : Difficulty) (g : Game) : Outcome Game :=
  Done (resetGame g).

(** What can be done to a game: a click, a right click, a key press and a
    long press on the element of a cell, a click on the reset button, and
    calls of the two functions exported through [window.__Minesweeper__].
    [picks] are the draws [Math.random] hands out should the command place
    the mines. *)
Inductive Command :=
  | Click (picks : list Pos) (e : Pos)
  | RightClick (e : Pos)
  | KeyDown (key : Key) (picks : list Pos) (e : Pos)
  | LongPress (e : Pos)
  | ResetClick
  | CallReveal (picks : list Pos) (p : Pos)
  | CallToggle (p : Pos).

Definition perform (cmd : Command) (g : Game) : Outcome Game :=
  match cmd with
  | Click picks e => onCellClick picks e g
  | RightClick e => onCellRightClick e g
  | KeyDown key picks e => onCellKeyDown key picks e g
  | LongPress e => onLongPress e g
  | ResetClick => Done (resetGame g)
  | CallReveal picks p => revealCell picks p g
  | CallToggle p => toggleFlag p g
  end.

Definition run (cmds : list Command) (g : Game) : Outcome Game :=
  forEach perform cmds g.

(** ** Derived notions used by the statements *)

(** The four phases of the specification, read off the variables of the
    script. *)
Inductive Phase := NotStarted | InProgress | Won | Lost.

Definition phase (g : Game) : Phase :=
  if gameOver g then
    match banner g with WinBanner => Won | _ => Lost end
  else if firstClick g then NotStarted else InProgress.

Definition inBounds (g : Game) (p : Pos) : Prop := p.1 < rows g ∧ p.2 < cols g.

(** The shape [createEmptyBoard] gives to [board] and every function keeps:
    [rows] arrays of [cols] objects, the object at [(r, c)] carrying
    [row = r] and [col = c]. *)
Definition wellFormed (g : Game) : Prop :=
  map (map (fun cell => (row cell, col cell))) (board g) =
  map (fun r => map (fun c => (r, c)) (seq 0 (cols g))) (seq 0 (rows g)).

#[global] Instance wellFormed_dec g : Decision (wellFormed g).
Proof. unfold wellFormed. apply _. Defined.

(** Number of cells satisfying [P]. *)
Definition cnt (P : Cell → bool) (l : list Cell) : nat := length (List.filter P l).
Definition countCells (P : Cell → bool) (g : Game) : nat := cnt P (concat (board g)).

Definition b2n (b : bool) : nat := if b then 1 else 0.

(** [q] is a king move away from [p]. *)
Definition kingMove (p q : Pos) : Prop :=
  q ≠ p ∧ q.1 ≤ S p.1 ∧ p.1 ≤ S q.1 ∧ q.2 ≤ S p.2 ∧ p.2 ≤ S q.2.

#[global] Instance kingMove_dec p q : Decision (kingMove p q).
Proof. unfold kingMove. apply _. Defined.

(** The cell at [p] exists and satisfies [P]. *)
Definition holdsAt (P : Cell → bool) (g : Game) (p : Pos) : bool :=
  match getCell g p with Some c => P c | None => false end.

Definition mineAt (g : Game) (p : Pos) : bool := holdsAt mine g p.

(** The brute-force scan of the specification: every position of the grid
    that is a king move away from [p] and holds a mine. *)
Definition neighbourMines (g : Game) (p : Pos) : nat :=
  length (filter (fun q => kingMove p q ∧ mineAt g q = true) (allPos g)).

(** How many different cells other than [safe] the draws [picks] name. *)
Definition distinctDraws (safe : Pos) (picks : list Pos) : nat :=
  length (remove_dups (filter (fun q => q ≠ safe) picks)).

(** ** Relations between a game and a later one *)

(** Games that differ at most in [board]. *)
Definition sameShell (g g' : Game) : Prop :=
  cols g' = cols g ∧ rows g' = rows g ∧ mineCount g' = mineCount g ∧
  flagsPlaced g' = flagsPlaced g ∧ firstClick g' = firstClick g ∧
  gameOver g' = gameOver g ∧ revealedCount g' = revealedCount g ∧
  timerRunning g' = timerRunning g ∧ timeElapsed g' = timeElapsed g ∧
  banner g' = banner g.

(** [g'] is [g] with other [mine] flags. *)
Definition onlyMines (g g' : Game) : Prop :=
  ∀ q, getCell g' q = set_mine (mineAt g' q) <$> getCell g q.

(** The cells of [g'] are those of [g] with other [revealed] flags. *)
Definition sameButRevealed (g g' : Game) : Prop :=
  ∀ q, getCell g' q = set_revealed (holdsAt revealed g' q) <$> getCell g q.

(** [g'] is [g] with other [revealed] flags and another [revealedCount]. *)
Definition onlyRevealed (g g' : Game) : Prop :=
  sameShell (set_revealedCount (revealedCount g') g) g' ∧ sameButRevealed g g'.

(** What a reveal may do to the board: reveal cells, and nothing else. *)
Record revealsOnly (g g' : Game) : Prop := {
  ro_wf : wellFormed g';
  ro_rows : rows g' = rows g;
  ro_cols : cols g' = cols g;
  ro_mineCount : mineCount g' = mineCount g;
  ro_flagsPlaced : flagsPlaced g' = flagsPlaced g;
  ro_firstClick : firstClick g' = firstClick g;
  ro_cells : sameButRevealed g g';
  ro_keep : ∀ q, holdsAt revealed g q = true → holdsAt revealed g' q = true
}.

(** ** Flood fill: the region, and the invariant of the loop *)

(** The test of the callback in [floodReveal]:
    [!n.revealed && !n.flagged && !n.mine]. *)
Definition coveredSafe (c : Cell) : bool :=
  negb (revealed c) && negb (flagged c) && negb (mine c).

(** A cell that flood fill may reveal, and one that it also expands. *)
Definition eligible (g : Game) (n : Pos) : Prop := holdsAt coveredSafe g n = true.
Definition spreading (g : Game) (n : Pos) : Prop :=
  holdsAt (fun c => coveredSafe c && (adjacent c =? 0)) g n = true.

(** The region flood fill expands: the start cell, and every covered,
    unflagged, mine-free cell with adjacency zero that is a neighbour of a
    cell of the region. *)
Inductive floodRegion (g : Game) (start : Pos) : Pos → Prop :=
  | region_start : floodRegion g start start
  | region_step p n :
      floodRegion g start p → n ∈ getNeighbors g p.1 p.2 → spreading g n →
      floodRegion g start n.

(** The cells flood fill reveals: the covered, unflagged, mine-free
    neighbours of the region. *)
Definition floodRevealed (g : Game) (start n : Pos) : Prop :=
  ∃ p, floodRegion g start p ∧ n ∈ getNeighbors g p.1 p.2 ∧ eligible g n.

(** The cells still covered. *)
Definition covered (g : Game) : nat := countCells (fun c => negb (revealed c)) g.

(** The invariant of the [while] loop of [floodReveal] started in [g0] at
    [start], at a point where the queue is [queue], the set is [visited] and
    the game is [g]. *)
Record floodCore (g0 : Game) (start : Pos) (queue : list Pos) (visited : gset Pos)
    (g : Game) : Prop := {
  fc_start : inBounds g0 start;
  fc_wf : wellFormed g;
  fc_cells : onlyRevealed g0 g;
  fc_keep : ∀ q, holdsAt revealed g0 q = true → holdsAt revealed g q = true;
  fc_new : ∀ q, holdsAt revealed g q = true →
                holdsAt revealed g0 q = true ∨ floodRevealed g0 start q;
  fc_queue : ∀ p, p ∈ queue → floodRegion g0 start p;
  fc_visited : ∀ p, p ∈ visited → floodRegion g0 start p;
  fc_pushed : ∀ n, spreading g0 n → holdsAt revealed g n = true →
                   n ∈ queue ∨ n ∈ visited;
  fc_seed : start ∈ queue ∨ start ∈ visited;
  fc_count : (revealedCount g - Z.of_nat (countCells revealed g) =
              revealedCount g0 - Z.of_nat (countCells revealed g0))%Z
}.

(** Every neighbour of a visited cell that could be revealed has been. *)
Definition closedUnder (g0 : Game) (visited : gset Pos) (g : Game) : Prop :=
  ∀ p n, p ∈ visited → n ∈ getNeighbors g0 p.1 p.2 → eligible g0 n →
         holdsAt revealed g n = true.

(** ** The flood region as the specification words it *)

(** A cell without a mine whose adjacency count is zero, and one whose count
    is not. *)
Definition zeroCell (g : Game) (n : Pos) : Prop :=
  holdsAt (fun c => negb (mine c) && (adjacent c =? 0)) g n = true.
Definition numberCell (g : Game) (n : Pos) : Prop :=
  holdsAt (fun c => negb (mine c) && (0 <? adjacent c)) g n = true.

(** The 8-connected component of zero-adjacency cells reachable from the
    start cell. *)
Inductive zeroComponent (g : Game) (start : Pos) : Pos → Prop :=
  | component_start : zeroComponent g start start
  | component_step p n :
      zeroComponent g start p → n ∈ getNeighbors g p.1 p.2 → zeroCell g n →
      zeroComponent g start n.

(** That component plus the one-layer border of nonzero-adjacency cells
    adjacent to it. *)
Definition componentWithBorder (g : Game) (start n : Pos) : Prop :=
  zeroComponent g start n ∨
  ∃ p, zeroComponent g start p ∧ n ∈ getNeighbors g p.1 p.2 ∧ numberCell g n.

(** ** The invariant of the game *)

(** What holds of every game a run of commands reaches. *)
Record gameInv (g : Game) : Prop := {
  inv_wf : wellFormed g;
  inv_flags : flagsPlaced g = Z.of_nat (countCells flagged g);
  inv_both : ∀ q, holdsAt revealed g q = true → holdsAt flagged g q = true →
                  mineAt g q = true ∧ gameOver g = true;
  inv_mines : ∀ q, holdsAt revealed g q = true → mineAt g q = true →
                   gameOver g = true;
  inv_fresh : firstClick g = true → ∀ q, holdsAt revealed g q = false
}.

(** ** Sample games *)

(** The game the commands [cmds] lead to from the initial values of the
    variables ([initialGame] itself if the run does not complete). *)
Definition stateAfter (cmds : list Command) : Game :=
  match run cmds initialGame with Done g => g | _ => initialGame end.

(** Ten draws that wall in the corner cell [(0, 0)]. *)
Definition cornerPicks : list Pos :=
  [(0, 1); (1, 0); (1, 1); (8, 8); (8, 7); (7, 8); (0, 8); (8, 0); (0, 4); (4, 0)].

(** Ten draws after which a reveal at [(4, 4)] floods every safe cell. *)
Definition topRowPicks : list Pos :=
  [(0, 0); (0, 1); (0, 2); (0, 3); (0, 4); (0, 5); (0, 6); (0, 7); (0, 8); (1, 0)].

(** The game in which flood fill meets a flag: mines placed by a first click
    in the corner, a flag on [(4, 5)], and [(4, 4)] just revealed. *)
Definition flaggedGame : Game :=
  stateAfter [ResetClick; Click cornerPicks (0, 0); RightClick (4, 5)].
Definition floodEntry : Game :=
  set_revealedCount (revealedCount flaggedGame + 1)%Z
    (updCell (4, 4) (set_revealed true) flaggedGame).

(** ** The rest of the script: displays, timer, keyboard navigation *)

(** The character of the decimal digit [d]. *)
Definition digitChar (d : Z) : Ascii.ascii := Ascii.ascii_of_nat (48 + Z.to_nat d).

(** [String(n)] for an integer [n], as the list of its characters: the
    decimal digits, after a minus sign for a negative number.  This is what
    JavaScript prints for integers below [1e21] in absolute value; from there
    on it prints an exponent. *)
Definition jsString (n : Z) : list Ascii.ascii :=
  String.list_ascii_of_string (DecimalString.NilZero.string_of_int (Z.to_int n)).

(** [s.padStart(n, c)] and [s.slice(-n)]. *)
Definition padStart (n : nat) (c : Ascii.ascii) (s : list Ascii.ascii)
  : list Ascii.ascii :=
  replicate (n - length s) c ++ s.
Definition sliceLast (n : nat) (s : list Ascii.ascii) : list Ascii.ascii :=
  drop (length s - n) s.

Definition formatNumber (n : Z) : list Ascii.ascii :=
  sliceLast 3 (padStart 3 (digitChar 0) (jsString n)).

(** The text [updateMinesRemaining] writes into [minesRemainingEl]. *)
Definition updateMinesRemaining (g : Game) : list Ascii.ascii :=
  let remaining := (mineCount g - flagsPlaced g)%Z in
  formatNumber (Z.max 0 remaining).

(** [clamp(val, min, max)] on integers; [None] is [NaN]. *)
Definition clamp (val : option Z) (min max : Z) : Z :=
  match val with
  | None => min
  | Some v => Z.max min (Z.min max v)
  end.

(** The body of the interval callback of [startTimer]; the text it writes
    into [timerEl] is [formatNumber] of the new [timeElapsed]. *)
Definition tick (g : Game) : Game := set_timeElapsed (timeElapsed g + 1)%Z g.

(** The arrow keys of [onCellKeyDown]. *)
Inductive Arrow := ArrowUp | ArrowDown | ArrowLeft | ArrowRight.

(** [board[r]?.[c]] for integers [r] and [c]: [undefined] ([None]) when an
    index is negative or past the end. *)
Definition boardAt (g : Game) (r c : Z) : option Cell :=
  if ((0 <=? r) && (0 <=? c))%Z then getCell g (Z.to_nat r, Z.to_nat c) else None.

(** The [target] of the [switch] in [onCellKeyDown], whose element gets the
    focus when it is not [undefined]. *)
Definition arrowTarget (g : Game) (cell : Cell) (key : Arrow) : option Cell :=
  let r := Z.of_nat (row cell) in
  let c := Z.of_nat (col cell) in
  match key with
  | ArrowUp => boardAt g (r - 1) c
  | ArrowDown => boardAt g (r + 1) c
  | ArrowLeft => boardAt g r (c - 1)
  | ArrowRight => boardAt g r (c + 1)
  end.

(** What [onCellKeyDown] does on an arrow key: nothing to the game; the
    result is the cell whose element gets the focus, if any.  The handler
    returns before the [switch] when the event names no cell or the game is
    over. *)
Definition onArrowKey (key : Arrow) (e : Pos) (g : Game) : Outcome (option Cell) :=
  cell ← getCellFromEvent g e;
  match cell with
  | None => Done None
  | Some cell => if gameOver g then Done None else Done (arrowTarget g cell key)
  end.

(** The number of rows (columns) among [r - 1], [r], [r + 1] that exist. *)
Definition span (r size : nat) : nat :=
  (if decide (0 < r) then 1 else 0) + 1 + (if decide (S r < size) then 1 else 0).

(** The position an arrow key leads to. *)
Definition arrowStep (key : Arrow) (p : Pos) : Z * Z :=
  match key with
  | ArrowUp => (Z.of_nat p.1 - 1, Z.of_nat p.2)
  | ArrowDown => (Z.of_nat p.1 + 1, Z.of_nat p.2)
  | ArrowLeft => (Z.of_nat p.1, Z.of_nat p.2 - 1)
  | ArrowRight => (Z.of_nat p.1, Z.of_nat p.2 + 1)
  end%Z.

Definition opposite (key : Arrow) : Arrow :=
  match key with
  | ArrowUp => ArrowDown
  | ArrowDown => ArrowUp
  | ArrowLeft => ArrowRight
  | ArrowRight => ArrowLeft
  end.

(** What happens to a game: a command, or a tick of the timer.  The interval
    callback runs only between [startTimer] and [stopTimer]. *)
Inductive Event :=
  | Act (cmd : Command)
  | Tick.

Definition happen (ev : Event) (g : Game) : Outcome Game :=
  match ev with
  | Act cmd => perform cmd g
  | Tick => if timerRunning g then Done (tick g) else Done g
  end.

Definition play (evs : list Event) (g : Game) : Outcome Game :=
  forEach happen evs g.

(** The game the events [evs] lead to from a reset of [initialGame] (that
    reset itself if the run does not complete). *)
Definition gameAfter (evs : list Event) : Game :=
  match play evs (resetGame initialGame) with
  | Done g => g
  | _ => resetGame initialGame
  end.

(** The phases a game may pass to without a reset. *)
Definition mayFollow (ph ph' : Phase) : bool :=
  match ph, ph' with
  | NotStarted, (NotStarted | InProgress | Won) => true
  | InProgress, (InProgress | Won | Lost) => true
  | Won, Won => true
  | Lost, Lost => true
  | _, _ => false
  end.

(** Number of revealed cells without a mine. *)
Definition safeRevealed (g : Game) : nat :=
  countCells (fun c => revealed c && negb (mine c)) g.

(** What holds, beyond [gameInv], of every game that commands and ticks reach
    from a reset. *)
Record playInv (g : Game) : Prop := {
  pi_base : gameInv g;
  pi_cols : cols g = 9;
  pi_rows : rows g = 9;
  pi_mineCount : mineCount g = 10%Z;
  pi_timer : timerRunning g = negb (firstClick g) && negb (gameOver g);
  pi_over : gameOver g = true → firstClick g = false;
  pi_banner : banner g = NoBanner ↔ gameOver g = false;
  pi_mines : countCells mine g = if firstClick g then 0 else 10;
  pi_adjacent : ∀ q c, getCell g q = Some c → mine c = false →
                       adjacent c = neighbourMines g q;
  pi_exposed : gameOver g = true → ∀ q, mineAt g q = true →
               holdsAt revealed g q = true;
  pi_count : gameOver g = false ∨ banner g = WinBanner →
             revealedCount g = Z.of_nat (safeRevealed g);
  pi_open : gameOver g = false → (revealedCount g < totalSafe g)%Z;
  pi_won : banner g = WinBanner → (totalSafe g ≤ revealedCount g)%Z;
  pi_time : firstClick g = true → timeElapsed g = 0%Z
}.

(** * Lemmas *)

(** ** The store: reads after writes, shape, counting *)

Section Store.
Implicit Types (g : Game) (p q : Pos) (f : Cell → Cell) (P : Cell → bool).

Lemma getCell_updCell p f g q :
  getCell (updCell p f g) q =
  if decide (q = p) then f <$> getCell g p else getCell g q.
Proof.
  destruct p as [r c], q as [r' c']. unfold getCell, updCell. simpl.
  case_decide as E.
  - inversion E; subst. rewrite list_lookup_alter_eq.
    destruct (board g !! r) as [cells|]; simpl; [|done].
    by rewrite list_lookup_alter_eq.
  - destruct (decide (r = r')) as [->|Hr].
    + rewrite list_lookup_alter_eq.
      destruct (board g !! r') as [cells|]; simpl; [|done].
      rewrite list_lookup_alter_ne; [done|]. intros ->. by apply E.
    + by rewrite list_lookup_alter_ne.
Qed.

Lemma getCell_updCell_eq p f g : getCell (updCell p f g) p = f <$> getCell g p.
Proof. rewrite getCell_updCell. by rewrite decide_True. Qed.

Lemma sameShell_refl g : sameShell g g.
Proof. by repeat split. Qed.

Lemma sameShell_trans g1 g2 g3 : sameShell g1 g2 → sameShell g2 g3 → sameShell g1 g3.
Proof. unfold sameShell. intuition congruence. Qed.

Lemma sameShell_updCell p f g : sameShell g (updCell p f g).
Proof. by repeat split. Qed.

Lemma wellFormed_lookup g :
  wellFormed g →
  length (board g) = rows g ∧
  ∀ r cells, board g !! r = Some cells →
    length cells = cols g ∧
    ∀ c cell, cells !! c = Some cell → row cell = r ∧ col cell = c.
Proof.
  unfold wellFormed. intros H. split.
  - apply (f_equal length) in H. by rewrite !length_map, length_seq in H.
  - intros r cells Hr.
    apply (f_equal (fun l => l !! r)) in H.
    rewrite !list_lookup_fmap, Hr in H. simpl in H.
    destruct (seq 0 (rows g) !! r) as [r'|] eqn:Er; simplify_eq/=.
    apply lookup_seq in Er as [-> _]. split.
    + apply (f_equal length) in H. by rewrite !length_map, length_seq in H.
    + intros c cell Hc.
      apply (f_equal (fun l => l !! c)) in H.
      rewrite !list_lookup_fmap, Hc in H. simpl in H.
      destruct (seq 0 (cols g) !! c) as [c'|] eqn:Ec; simplify_eq/=.
      apply lookup_seq in Ec as [-> _]. done.
Qed.

Lemma wellFormed_inBounds g p :
  wellFormed g → (is_Some (getCell g p) ↔ inBounds g p).
Proof.
  intros [Hlen Hrows]%wellFormed_lookup. destruct p as [r c]. unfold getCell, inBounds. simpl. split.
  - intros [x Hx]. destruct (board g !! r) as [cells|] eqn:E; simpl in Hx; [|done].
    destruct (Hrows _ _ E) as [Hc _]. split.
    + rewrite <- Hlen. by eapply lookup_lt_Some.
    + rewrite <- Hc. by eapply lookup_lt_Some.
  - intros [Hr Hc]. rewrite <- Hlen in Hr.
    destruct (lookup_lt_is_Some_2 _ _ Hr) as [cells E]. rewrite E. simpl.
    destruct (Hrows _ _ E) as [Hc' _]. rewrite <- Hc' in Hc.
    by apply lookup_lt_is_Some_2.
Qed.

Lemma wellFormed_getCell g p :
  wellFormed g → inBounds g p → ∃ cell, getCell g p = Some cell.
Proof. intros Hwf Hb. by apply (wellFormed_inBounds g p Hwf). Qed.

Lemma wellFormed_rowcol g p cell :
  wellFormed g → getCell g p = Some cell → row cell = p.1 ∧ col cell = p.2.
Proof.
  intros [_ Hrows]%wellFormed_lookup. destruct p as [r c]. unfold getCell. simpl. intros H.
  destruct (board g !! r) as [cells|] eqn:E; simpl in H; [|done].
  destruct (Hrows _ _ E) as [_ Hc]. eauto.
Qed.

Lemma wellFormed_updCell p f g :
  (∀ cell, row (f cell) = row cell ∧ col (f cell) = col cell) →
  wellFormed g → wellFormed (updCell p f g).
Proof.
  unfold wellFormed. intros Hf H. destruct p as [r c]. simpl. rewrite <- H.
  apply list_eq. intros i. rewrite !list_lookup_fmap, list_lookup_alter.
  case_decide; [subst i|done].
  destruct (board g !! r) as [cells|]; simpl; [|done]. f_equal.
  apply list_eq. intros j. rewrite !list_lookup_fmap, list_lookup_alter.
  case_decide; [subst j|done].
  destruct (cells !! c) as [x|]; simpl; [|done].
  by destruct (Hf x) as [-> ->].
Qed.

Lemma wellFormed_shell g g' :
  board g' = board g → rows g' = rows g → cols g' = cols g →
  wellFormed g → wellFormed g'.
Proof. unfold wellFormed. by intros -> -> ->. Qed.

Lemma wellFormed_createEmptyBoard g : wellFormed (createEmptyBoard g).
Proof.
  unfold wellFormed, createEmptyBoard. simpl. rewrite map_map.
  apply map_ext. intros r. rewrite map_map. by apply map_ext.
Qed.

Lemma cnt_app P (l1 l2 : list Cell) : cnt P (l1 ++ l2) = cnt P l1 + cnt P l2.
Proof. unfold cnt. by rewrite List.filter_app, length_app. Qed.

Lemma cnt_cons P x (l : list Cell) : cnt P (x :: l) = b2n (P x) + cnt P l.
Proof. unfold cnt. simpl. by destruct (P x). Qed.

Lemma cnt_le_length P (l : list Cell) : cnt P l ≤ length l.
Proof. unfold cnt. apply List.filter_length_le. Qed.

Lemma cnt_alter P f (cells : list Cell) c x :
  cells !! c = Some x →
  cnt P (alter f c cells) + b2n (P x) = cnt P cells + b2n (P (f x)).
Proof.
  revert c. induction cells as [|y cells IH]; intros [|c] H; simplify_eq/=.
  - rewrite !cnt_cons. lia.
  - rewrite !cnt_cons. specialize (IH _ H). lia.
Qed.

Lemma countCells_updCell P p f g x :
  getCell g p = Some x →
  countCells P (updCell p f g) + b2n (P x) = countCells P g + b2n (P (f x)).
Proof.
  destruct p as [r c]. unfold getCell, countCells, updCell. simpl.
  generalize (board g). intros b. revert r.
  induction b as [|cells b IH]; intros [|r] H; simplify_eq/=.
  - rewrite !cnt_app. pose proof (cnt_alter P f cells c x H). lia.
  - rewrite !cnt_app. specialize (IH _ H). lia.
Qed.

Lemma countCells_le P g : countCells P g ≤ length (concat (board g)).
Proof. apply cnt_le_length. Qed.

End Store.

(** ** Positions, neighbours and loops over cells *)

Section Loops.
Implicit Types (g : Game) (p q n : Pos).

Lemma elem_of_allPos g p : p ∈ allPos g ↔ inBounds g p.
Proof.
  unfold allPos, inBounds. destruct p as [r c]. simpl.
  rewrite list_elem_of_bind. split.
  - intros (r' & H & Hr). apply list_elem_of_bind in H as (c' & H & Hc).
    apply list_elem_of_singleton in H. simplify_eq.
    apply elem_of_seq in Hr, Hc. lia.
  - intros [Hr Hc]. exists r. split; [|apply elem_of_seq; lia].
    apply list_elem_of_bind. exists c. split; [|apply elem_of_seq; lia].
    by apply list_elem_of_singleton.
Qed.

Lemma NoDup_allPos g : NoDup (allPos g).
Proof.
  unfold allPos. apply NoDup_bind; [| |apply NoDup_seq].
  - intros r1 r2 p _ _ H1 H2.
    apply list_elem_of_bind in H1 as (c1 & H1 & _).
    apply list_elem_of_bind in H2 as (c2 & H2 & _).
    apply list_elem_of_singleton in H1, H2. congruence.
  - intros r _. apply NoDup_bind; [| |apply NoDup_seq].
    + intros c1 c2 p _ _ H1 H2.
      apply list_elem_of_singleton in H1, H2. congruence.
    + intros c _. apply NoDup_singleton.
Qed.

Lemma elem_of_getNeighbors g r c n :
  n ∈ getNeighbors g r c ↔ inBounds g n ∧ kingMove (r, c) n.
Proof.
  unfold getNeighbors, inBounds, kingMove. destruct n as [r' c']. cbn [fst snd].
  rewrite list_elem_of_bind. split.
  - intros (dr & H & Hdr). apply list_elem_of_bind in H as (dc & H & Hdc).
    destruct ((dr =? 0)%Z && (dc =? 0)%Z) eqn:E0; [by apply elem_of_nil in H|].
    match type of H with context [if ?b then _ else _] => destruct b eqn:E1 end;
      [|by apply elem_of_nil in H].
    apply list_elem_of_singleton in H. simplify_eq.
    set_unfold in Hdr. set_unfold in Hdc.
    repeat (apply andb_true_iff in E1 as [E1 ?]).
    apply andb_false_iff in E0.
    rewrite !Z.eqb_neq in E0.
    split; [lia|]. split; [|lia]. intros [=]. lia.
  - intros [[Hr Hc] (Hne & ? & ? & ? & ?)].
    exists (Z.of_nat r' - Z.of_nat r)%Z. split.
    2:{ set_unfold. lia. }
    apply list_elem_of_bind. exists (Z.of_nat c' - Z.of_nat c)%Z. split.
    2:{ set_unfold. lia. }
    destruct (_ && _) eqn:E0.
    { apply andb_true_iff in E0 as [E0 E0']. apply Z.eqb_eq in E0, E0'.
      exfalso. apply Hne. f_equal; lia. }
    match goal with |- context [if ?b then _ else _] => destruct b eqn:E1 end.
    + apply list_elem_of_singleton. f_equal; lia.
    + exfalso. repeat (apply andb_false_iff in E1 as [E1|E1]);
        first [apply Z.leb_gt in E1 | apply Z.ltb_ge in E1]; lia.
Qed.

Lemma NoDup_getNeighbors g r c : NoDup (getNeighbors g r c).
Proof.
  assert (Hin : ∀ d : Z, d ∈ [-1; 0; 1]%Z → (-1 ≤ d ≤ 1)%Z).
  { intros d Hd. set_unfold in Hd. lia. }
  assert (Hnd : NoDup [-1; 0; 1]%Z).
  { repeat (apply NoDup_cons; split; [set_unfold; lia|]). apply NoDup_nil_2. }
  unfold getNeighbors. apply NoDup_bind; [| |done].
  - intros d1 d2 p _ _ H1 H2.
    apply list_elem_of_bind in H1 as (e1 & H1 & _).
    apply list_elem_of_bind in H2 as (e2 & H2 & _).
    repeat match type of H1 with context [if ?b then _ else _] =>
      destruct b eqn:?; try by apply elem_of_nil in H1 end.
    repeat match type of H2 with context [if ?b then _ else _] =>
      destruct b eqn:?; try by apply elem_of_nil in H2 end.
    apply list_elem_of_singleton in H1, H2. simplify_eq.
    repeat match goal with H : _ && _ = true |- _ =>
      apply andb_true_iff in H as [? ?] end. lia.
  - intros d _. apply NoDup_bind; [| |done].
    + intros e1 e2 p _ _ H1 H2.
      repeat match type of H1 with context [if ?b then _ else _] =>
        destruct b eqn:?; try by apply elem_of_nil in H1 end.
      repeat match type of H2 with context [if ?b then _ else _] =>
        destruct b eqn:?; try by apply elem_of_nil in H2 end.
      apply list_elem_of_singleton in H1, H2. simplify_eq.
      repeat match goal with H : _ && _ = true |- _ =>
        apply andb_true_iff in H as [? ?] end. lia.
    + intros e _. repeat case_match; try apply NoDup_nil_2. apply NoDup_singleton.
Qed.

Lemma getNeighbors_shell g g' r c :
  rows g' = rows g → cols g' = cols g → getNeighbors g' r c = getNeighbors g r c.
Proof. unfold getNeighbors. by intros -> ->. Qed.

Lemma length_getNeighbors g r c : length (getNeighbors g r c) ≤ 8.
Proof.
  unfold getNeighbors. simpl. rewrite !length_app.
  repeat match goal with |- context [if ?b then _ else _] => destruct b end;
    simpl; lia.
Qed.

(** A loop whose body rewrites the cell it visits: the result cell by cell. *)
Lemma forEach_cells (body : Pos → Game → Outcome Game) (F : Pos → Cell → Cell)
    (I : Game → Prop) :
  (∀ g p c, I g → getCell g p = Some c →
     ∃ g', body p g = Done g' ∧ I g' ∧ sameShell g g' ∧
           ∀ q, getCell g' q = if decide (q = p) then Some (F p c) else getCell g q) →
  ∀ ps g, NoDup ps → (∀ p, p ∈ ps → is_Some (getCell g p)) → I g →
  ∃ g', forEach body ps g = Done g' ∧ I g' ∧ sameShell g g' ∧
        ∀ q, getCell g' q = if decide (q ∈ ps) then F q <$> getCell g q else getCell g q.
Proof.
  intros Hbody ps. induction ps as [|p ps IH]; intros g Hnd Hin HI.
  - exists g. split; [done|]. split; [done|].
    split; [apply sameShell_refl|].
    intros q. case_decide as Hq; [by apply elem_of_nil in Hq|done].
  - apply NoDup_cons in Hnd as [Hp Hnd].
    destruct (Hin p) as [c Hc]; [left|].
    destruct (Hbody g p c HI Hc) as (g1 & Hb & HI1 & Hs1 & Hg1).
    destruct (IH g1 Hnd) as (g2 & Hf & HI2 & Hs2 & Hg2); [|done|].
    { intros q Hq. rewrite Hg1. case_decide; [done|]. apply Hin. by right. }
    exists g2. simpl. rewrite Hb. split; [done|]. split; [done|].
    split; [by eapply sameShell_trans|].
    intros q. rewrite Hg2, !Hg1.
    destruct (decide (q = p)) as [->|Hne].
    + rewrite (decide_False (P := p ∈ ps)); [|done].
      rewrite decide_True; [|left]. by rewrite Hc.
    + destruct (decide (q ∈ ps)).
      * rewrite decide_True; [done|by right].
      * rewrite decide_False; [done|]. by intros [?|?]%elem_of_cons.
Qed.

End Loops.

(** ** Counting cells by position *)

Section Counting.
Implicit Types (g : Game) (p q : Pos) (P : Cell → bool).

Lemma bind_concat_map {A B} (f : A → list B) (l : list A) : l ≫= f = concat (map f l).
Proof. induction l as [|x l IH]; [done|]. rewrite bind_cons, IH. done. Qed.

Lemma allPos_grid g :
  allPos g = concat (map (fun r => map (fun c => (r, c)) (seq 0 (cols g))) (seq 0 (rows g))).
Proof.
  unfold allPos. rewrite bind_concat_map. f_equal.
Qed.

Lemma allPos_cells g :
  wellFormed g → allPos g = map (fun cell => (row cell, col cell)) (concat (board g)).
Proof. intros Hwf. rewrite allPos_grid, concat_map. by rewrite Hwf. Qed.

Lemma getCell_of_cell g cell :
  wellFormed g → cell ∈ concat (board g) → getCell g (row cell, col cell) = Some cell.
Proof.
  intros [_ Hrows]%wellFormed_lookup Hin.
  apply list_elem_of_In, in_concat in Hin as (cells & Hr & Hc).
  apply list_elem_of_In in Hr, Hc.
  apply list_elem_of_lookup in Hr as [r Hr], Hc as [c Hc].
  destruct (Hrows _ _ Hr) as [_ Hrc]. destruct (Hrc _ _ Hc) as [-> ->].
  unfold getCell. simpl. rewrite Hr. done.
Qed.

Lemma cnt_positions P g (l : list Cell) :
  (∀ cell, cell ∈ l → getCell g (row cell, col cell) = Some cell) →
  cnt P l =
  length (filter (fun q => holdsAt P g q = true) (map (fun cell => (row cell, col cell)) l)).
Proof.
  induction l as [|x l IH]; intros Hl; [done|].
  rewrite cnt_cons. simpl. rewrite filter_cons.
  assert (Hx : holdsAt P g (row x, col x) = P x).
  { unfold holdsAt. rewrite Hl; [done|left]. }
  rewrite IH by (intros; apply Hl; by right).
  case_decide as E; rewrite Hx in E; destruct (P x); simpl;
    first [done | by destruct E].
Qed.

(** The number of cell objects satisfying [P] is the number of positions at
    which [P] holds. *)
Lemma countCells_positions P g :
  wellFormed g →
  countCells P g = length (filter (fun q => holdsAt P g q = true) (allPos g)).
Proof.
  intros Hwf. rewrite (allPos_cells g Hwf). apply cnt_positions.
  intros cell. by apply getCell_of_cell.
Qed.

End Counting.

(** ** Mine placement and adjacency counts *)

Section Placement.
Implicit Types (g : Game) (p q : Pos) (picks : list Pos).

Lemma holdsAt_updCell P p f g q :
  holdsAt P (updCell p f g) q =
  if decide (q = p) then holdsAt (fun c => P (f c)) g p else holdsAt P g q.
Proof.
  unfold holdsAt. rewrite getCell_updCell. case_decide; [|done].
  by destruct (getCell g p).
Qed.

Lemma forEach_addMine g ns acc :
  (∀ n, n ∈ ns → is_Some (getCell g n)) →
  forEach (addMine g) ns acc =
  Done (acc + length (filter (fun q => mineAt g q = true) ns)).
Proof.
  revert acc. induction ns as [|n ns IH]; intros acc H.
  - simpl. f_equal. lia.
  - destruct (H n) as [c Hc]; [left|].
    simpl. unfold addMine at 1, deref. rewrite Hc. simpl.
    rewrite IH by (intros; apply H; by right). f_equal.
    assert (Hn : mineAt g n = mine c) by (unfold mineAt, holdsAt; by rewrite Hc).
    rewrite filter_cons. case_decide as E; rewrite Hn in E;
      destruct (mine c); simpl; first [lia | done | by destruct E].
Qed.

Lemma neighbours_scan g p :
  length (filter (fun q => mineAt g q = true) (getNeighbors g p.1 p.2)) = neighbourMines g p.
Proof.
  unfold neighbourMines. apply Permutation_length. apply NoDup_Permutation.
  - apply NoDup_filter, NoDup_getNeighbors.
  - apply NoDup_filter, NoDup_allPos.
  - intros q. rewrite !list_elem_of_filter, elem_of_getNeighbors, elem_of_allPos.
    destruct p. simpl. tauto.
Qed.

Lemma neighbourMines_le g p : neighbourMines g p ≤ 8.
Proof.
  rewrite <- neighbours_scan.
  etrans; [apply length_filter|apply length_getNeighbors].
Qed.

Lemma neighbourMines_ext g g' p :
  rows g' = rows g → cols g' = cols g → (∀ q, mineAt g' q = mineAt g q) →
  neighbourMines g' p = neighbourMines g p.
Proof.
  intros Hr Hc Hm. unfold neighbourMines, allPos. rewrite Hr, Hc. f_equal.
  apply list_filter_iff. intros q. by rewrite Hm.
Qed.

Lemma countAdjacentMines_scan g r c :
  wellFormed g → countAdjacentMines g r c = Done (neighbourMines g (r, c)).
Proof.
  intros Hwf. unfold countAdjacentMines. rewrite forEach_addMine.
  - f_equal. apply (neighbours_scan g (r, c)).
  - intros n [Hn _]%elem_of_getNeighbors. by apply wellFormed_inBounds.
Qed.

Lemma placeLoop_spec picks (safeZone : gset Pos) : ∀ placed g g',
  wellFormed g → placeLoop picks safeZone placed g = Done g' →
  wellFormed g' ∧ sameShell g g' ∧ onlyMines g g' ∧
  (∀ q, mineAt g q = true → mineAt g' q = true) ∧
  (∀ q, q ∈ safeZone → mineAt g' q = mineAt g q) ∧
  ((placed ≤ mineCount g)%Z →
   (Z.of_nat (countCells mine g') =
    Z.of_nat (countCells mine g) + (mineCount g - placed))%Z) ∧
  ((mineCount g ≤ placed)%Z → g' = g).
Proof.
  induction picks as [|p picks IH]; intros placed g g' Hwf; simpl;
    destruct (placed <? mineCount g)%Z eqn:E;
    try apply Z.ltb_lt in E; try apply Z.ltb_ge in E.
  1: done.
  1,3: intros [= <-]; repeat split; try done; try lia;
       intros q; unfold mineAt, holdsAt; destruct (getCell g q) as [[]|]; done.
  destruct (getCell g p) as [cell|] eqn:Hp; [|done].
  destruct (mine cell) eqn:Hm.
  { intros H. exact (IH _ _ _ Hwf H). }
  case_decide as Hs.
  { intros H. exact (IH _ _ _ Hwf H). }
  intros H.
  assert (Hwf1 : wellFormed (updCell p (set_mine true) g)).
  { by apply wellFormed_updCell. }
  destruct (IH _ _ _ Hwf1 H) as (Hwf' & Hsh & Hom & Hmono & Hsafe & Hcnt & _).
  split; [done|]. split; [exact Hsh|]. split; [|split; [|split; [|split]]].
  - intros q. rewrite Hom, getCell_updCell. case_decide; [subst q|done].
    rewrite Hp. done.
  - intros q Hq. apply Hmono. unfold mineAt. rewrite holdsAt_updCell.
    case_decide; [subst q|done]. unfold holdsAt. by rewrite Hp.
  - intros q Hq. rewrite (Hsafe q Hq). unfold mineAt. rewrite holdsAt_updCell.
    case_decide; [subst q|]; done.
  - intros _. pose proof (countCells_updCell mine p (set_mine true) g cell Hp) as Hc.
    rewrite Hm in Hc. simpl in Hc, Hcnt. lia.
  - lia.
Qed.

Lemma placeLoop_done picks (safeZone : gset Pos) : ∀ placed g (X : gset Pos),
  wellFormed g → Forall (inBounds g) picks →
  X ⊆ list_to_set picks →
  (∀ q, q ∈ X → mineAt g q = false) →
  (∀ q, q ∈ X → q ∉ safeZone) →
  (mineCount g - placed ≤ Z.of_nat (size X))%Z →
  ∃ g', placeLoop picks safeZone placed g = Done g'.
Proof.
  induction picks as [|p picks IH]; intros placed g X Hwf Hb HX Hfree Hsafe Hsz; simpl;
    destruct (placed <? mineCount g)%Z eqn:E;
    try apply Z.ltb_lt in E; try apply Z.ltb_ge in E; eauto.
  - assert (X = ∅) as ->.
    { apply set_eq. intros q.
      split; [|intros Hq; destruct (not_elem_of_empty (C := gset Pos) q Hq)].
      intros Hq. by apply HX in Hq. }
    rewrite size_empty in Hsz. lia.
  - apply Forall_cons in Hb as [Hp Hb].
    destruct (wellFormed_getCell g p Hwf Hp) as [cell Hc]. rewrite Hc.
    assert (Hskip : p ∉ X → ∃ g', placeLoop picks safeZone placed g = Done g').
    { intros Hn. apply (IH placed g X); try done.
      intros q Hq. pose proof (HX q Hq) as Hq'.
      rewrite list_to_set_cons in Hq'. apply elem_of_union in Hq' as [Hq'|Hq']; [|done].
      apply elem_of_singleton in Hq'. by subst q. }
    destruct (mine cell) eqn:Hm.
    { apply Hskip. intros Hn. pose proof (Hfree p Hn) as Hq.
      unfold mineAt, holdsAt in Hq. rewrite Hc in Hq. congruence. }
    case_decide as Hs.
    { apply Hskip. intros Hn. by apply (Hsafe p Hn). }
    assert (Hdiff : ∀ q, q ∈ X ∖ {[ p ]} ↔ q ∈ X ∧ q ≠ p).
    { intros q. rewrite elem_of_difference, elem_of_singleton. done. }
    apply (IH _ _ (X ∖ {[ p ]})).
    + by apply wellFormed_updCell.
    + done.
    + intros q [Hq Hne]%Hdiff. pose proof (HX q Hq) as Hq'.
      rewrite list_to_set_cons in Hq'. apply elem_of_union in Hq' as [Hq'|Hq']; [|done].
      by apply elem_of_singleton in Hq'.
    + intros q [Hq Hne]%Hdiff.
      unfold mineAt. rewrite holdsAt_updCell, decide_False by done. by apply Hfree.
    + intros q [Hq Hne]%Hdiff. by apply Hsafe.
    + assert (size X ≤ 1 + size (X ∖ {[ p ]})).
      { rewrite <- (size_singleton (C := gset Pos) p).
        rewrite <- size_union.
        - apply subseteq_size. intros q Hq. apply elem_of_union.
          destruct (decide (q = p)) as [->|Hne]; [left; by apply elem_of_singleton|].
          right. by apply Hdiff.
        - intros q Hq1%elem_of_singleton [_ Hq2]%Hdiff. done. }
      simpl. lia.
Qed.

Lemma forEach_assignAdjacent g :
  wellFormed g →
  ∃ g', forEach assignAdjacent (allPos g) g = Done g' ∧
        wellFormed g' ∧ sameShell g g' ∧
        ∀ q, getCell g' q =
             (fun c => if mine c then c else set_adjacent (neighbourMines g q) c)
               <$> getCell g q.
Proof.
  intros Hwf.
  destruct (forEach_cells assignAdjacent
    (fun q c => if mine c then c else set_adjacent (neighbourMines g q) c)
    (fun g1 => wellFormed g1 ∧ rows g1 = rows g ∧ cols g1 = cols g ∧
               ∀ q, mineAt g1 q = mineAt g q)) with (ps := allPos g) (g := g)
    as (g' & Hrun & (Hwf' & _) & Hsh & Hcells).
  - intros g1 p c (Hwf1 & Hr & Hc & Hm) Hp.
    unfold assignAdjacent, deref. rewrite Hp. simpl. destruct (mine c) eqn:Hmc; simpl.
    + exists g1. repeat split; try done. intros q. case_decide; [by subst q|done].
    + rewrite countAdjacentMines_scan by done. simpl.
      eexists. split; [done|]. split; [|split; [apply sameShell_updCell|]].
      * split; [by apply wellFormed_updCell|]. repeat split; try done.
        intros q. rewrite <- Hm. unfold mineAt. rewrite holdsAt_updCell.
        case_decide; [subst q|done]. done.
      * intros q. rewrite getCell_updCell. case_decide; [subst q|done].
        rewrite Hp. simpl. f_equal. f_equal. destruct p. by apply neighbourMines_ext.
  - apply NoDup_allPos.
  - intros p Hp%elem_of_allPos. by apply wellFormed_inBounds.
  - done.
  - exists g'. repeat split; try done; try apply Hsh.
    intros q. rewrite Hcells. case_decide as Hq; [done|].
    destruct (getCell g q) eqn:E; [|done]. exfalso. apply Hq.
    apply elem_of_allPos, (wellFormed_inBounds g q Hwf). by rewrite E.
Qed.

(** What a completed [placeMines] leaves behind. *)
Lemma placeMines_spec picks r0 c0 g g' :
  wellFormed g → placeMines picks r0 c0 g = Done g' →
  wellFormed g' ∧ sameShell g g' ∧
  (∀ q, mineAt g q = true → mineAt g' q = true) ∧
  mineAt g' (r0, c0) = mineAt g (r0, c0) ∧
  ((0 ≤ mineCount g)%Z →
   (Z.of_nat (countCells mine g') = Z.of_nat (countCells mine g) + mineCount g)%Z) ∧
  (∀ q c, getCell g q = Some c →
     ∃ c', getCell g' q = Some c' ∧
           row c' = row c ∧ col c' = col c ∧
           revealed c' = revealed c ∧ flagged c' = flagged c ∧
           (mine c' = false → adjacent c' = neighbourMines g' q)).
Proof.
  intros Hwf. unfold placeMines.
  destruct (placeLoop picks {[(r0, c0)]} 0%Z g) as [g1| |] eqn:Hloop; try done. simpl.
  destruct (placeLoop_spec _ _ _ _ _ Hwf Hloop)
    as (Hwf1 & Hsh1 & Hom & Hmono & Hsafe & Hcnt & _).
  destruct (forEach_assignAdjacent g1 Hwf1) as (g2 & Hrun & Hwf2 & Hsh2 & Hcells).
  rewrite Hrun. intros [= <-].
  assert (Hmines : ∀ q, mineAt g2 q = mineAt g1 q).
  { intros q. unfold mineAt, holdsAt. rewrite Hcells.
    destruct (getCell g1 q) as [c|]; simpl; [|done]. by destruct (mine c) eqn:E. }
  split; [done|]. split; [by eapply sameShell_trans|].
  split; [|split; [|split]].
  - intros q Hq. rewrite Hmines. by apply Hmono.
  - rewrite Hmines. apply Hsafe. set_solver.
  - intros Hpos. specialize (Hcnt Hpos).
    assert (countCells mine g2 = countCells mine g1) as ->; [|lia].
    rewrite !countCells_positions by done.
    unfold allPos. destruct Hsh2 as (-> & -> & _). f_equal.
    apply list_filter_iff. intros q. specialize (Hmines q).
    unfold mineAt in Hmines. by rewrite Hmines.
  - intros q c Hq. rewrite Hcells, Hom, Hq. simpl.
    eexists. split; [done|].
    destruct (mineAt g1 q) eqn:E; simpl; repeat split; try done.
    intros _. destruct Hsh2 as (? & ? & _). symmetry. by apply neighbourMines_ext.
Qed.

End Placement.

(** ** Flood fill *)

Section Flood.
Implicit Types (g : Game) (p q n start : Pos) (queue : list Pos) (visited : gset Pos).

Lemma floodRegion_inBounds g start p :
  inBounds g start → floodRegion g start p → inBounds g p.
Proof. intros Hs []; [done|]. by eapply elem_of_getNeighbors. Qed.

Lemma spreading_eligible g n : spreading g n → eligible g n.
Proof.
  unfold spreading, eligible, holdsAt. destruct (getCell g n); [|done].
  by intros [? _]%andb_true_iff.
Qed.

Lemma onlyRevealed_shape g0 g : onlyRevealed g0 g → rows g = rows g0 ∧ cols g = cols g0.
Proof. intros [(? & ? & _) _]. done. Qed.

Lemma onlyRevealed_refl g : onlyRevealed g g.
Proof.
  split; [by destruct g|]. intros q. unfold holdsAt.
  destruct (getCell g q) as [[]|]; done.
Qed.

(** One call of the [forEach] callback on a neighbour [n] of a cell [p] of the
    region. *)
Lemma floodVisit_spec g0 start p visited n g queue :
  floodCore g0 start queue visited g →
  floodRegion g0 start p → n ∈ getNeighbors g0 p.1 p.2 →
  ∃ g' queue',
    floodVisit n (g, queue) = Done (g', queue') ∧
    floodCore g0 start queue' visited g' ∧
    (∀ q, holdsAt revealed g q = true → holdsAt revealed g' q = true) ∧
    (eligible g0 n → holdsAt revealed g' n = true) ∧
    length queue' + covered g' ≤ length queue + covered g.
Proof.
  intros [Hs Hwf Hcells Hkeep Hnew Hq Hv Hpush Hseed Hcnt] Hp Hn.
  assert (Hb : inBounds g0 n) by (by eapply elem_of_getNeighbors).
  destruct (wellFormed_getCell g n) as [c Hc]; [done| |].
  { destruct (onlyRevealed_shape _ _ Hcells) as [Hr Hcl].
    unfold inBounds. by rewrite Hr, Hcl. }
  assert (∃ c0, getCell g0 n = Some c0 ∧ c = set_revealed (revealed c) c0)
    as (c0 & Hc0 & Ec).
  { destruct Hcells as [_ Hcells]. specialize (Hcells n). rewrite Hc in Hcells.
    destruct (getCell g0 n) as [c0|]; [|done]. exists c0. split; [done|].
    injection Hcells as ->. unfold holdsAt. by rewrite Hc. }
  assert (Hrev : holdsAt revealed g n = revealed c) by (unfold holdsAt; by rewrite Hc).
  unfold floodVisit, deref. simpl. rewrite Hc. simpl.
  destruct (negb (revealed c) && negb (flagged c) && negb (mine c)) eqn:Etest.
  - (* the neighbour is revealed, and pushed when its count is zero *)
    apply andb_true_iff in Etest as [[Er Ef]%andb_true_iff Em].
    apply negb_true_iff in Er, Ef, Em.
    assert (Helig : eligible g0 n).
    { unfold eligible, holdsAt, coveredSafe. rewrite Hc0.
      rewrite Ec in Ef, Em. simpl in Ef, Em. rewrite Ef, Em.
      destruct (revealed c0) eqn:E0; [|done].
      assert (holdsAt revealed g n = true); [|congruence].
      apply Hkeep. unfold holdsAt. by rewrite Hc0. }
    set (g1 := updCell n (set_revealed true) g).
    set (g2 := set_revealedCount (revealedCount g1 + 1) g1).
    assert (Hget : ∀ q, getCell g2 q =
                        if decide (q = n) then Some (set_revealed true c) else getCell g q).
    { intros q. change (getCell g2 q) with (getCell g1 q). unfold g1.
      rewrite getCell_updCell. case_decide; [by rewrite Hc|done]. }
    assert (Hrev2 : ∀ q, holdsAt revealed g2 q =
                         if decide (q = n) then true else holdsAt revealed g q).
    { intros q. unfold holdsAt. rewrite Hget. by case_decide. }
    assert (Hcore : ∀ queue', (∀ q, q ∈ queue → q ∈ queue') →
              (∀ q, q ∈ queue' → q ∈ queue ∨ q = n ∧ spreading g0 n) →
              (spreading g0 n → n ∈ queue') →
              floodCore g0 start queue' visited g2).
    { intros queue' Hsub Hsup Hadd. split; try done.
      - apply (wellFormed_shell g1); try done. by apply wellFormed_updCell.
      - destruct Hcells as [Hsh Hcells]. split.
        + unfold sameShell in *. simpl in *. intuition.
        + intros q. rewrite Hget, Hrev2. case_decide; [subst q|apply Hcells].
          rewrite Hc0, Ec. done.
      - intros q Hq0. rewrite Hrev2. case_decide; [done|]. by apply Hkeep.
      - intros q. rewrite Hrev2. case_decide; [subst q|apply Hnew].
        intros _. right. by exists p.
      - intros q [Hq'|[-> Hsp]]%Hsup; [by apply Hq|]. by eapply region_step.
      - intros q Hsp. rewrite Hrev2. case_decide; [subst q|].
        + intros _. left. by apply Hadd.
        + intros Hr. destruct (Hpush q Hsp Hr); [left; by apply Hsub|by right].
      - destruct Hseed; [left; by apply Hsub|by right].
      - pose proof (countCells_updCell revealed n (set_revealed true) g c Hc) as Hcc.
        rewrite Er in Hcc. simpl in Hcc.
        change (countCells revealed g2) with (countCells revealed g1).
        change (revealedCount g2) with (revealedCount g + 1)%Z.
        fold g1 in Hcc. lia. }
    assert (Hcov : covered g2 + 1 = covered g).
    { pose proof (countCells_updCell (fun c => negb (revealed c)) n (set_revealed true) g c Hc)
        as Hcc. simpl in Hcc. rewrite Er in Hcc. simpl in Hcc. unfold covered.
      change (countCells (fun c => negb (revealed c)) g2)
        with (countCells (fun c => negb (revealed c)) g1).
      fold g1 in Hcc. lia. }
    assert (Hsp : spreading g0 n ↔ adjacent c = 0).
    { unfold spreading. unfold eligible in Helig. unfold holdsAt in *.
      rewrite Hc0 in *. rewrite Helig. simpl. rewrite Ec. simpl.
      rewrite Nat.eqb_eq. done. }
    destruct (0 <? adjacent c) eqn:Eadj.
    + apply Nat.ltb_lt in Eadj.
      exists g2, queue. split; [done|]. split; [|split; [|split]].
      * apply Hcore; [done|by left|]. intros ?%Hsp. lia.
      * intros q Hq'. rewrite Hrev2. by case_decide.
      * intros _. rewrite Hrev2. by rewrite decide_True.
      * lia.
    + apply Nat.ltb_ge in Eadj.
      exists g2, (queue ++ [n]). split; [done|]. split; [|split; [|split]].
      * apply Hcore.
        -- intros q Hq'. apply elem_of_app. by left.
        -- intros q [Hq'|Hq']%elem_of_app; [by left|].
           apply list_elem_of_singleton in Hq'. right. split; [done|]. apply Hsp. lia.
        -- intros _. apply elem_of_app. right. by apply list_elem_of_singleton.
      * intros q Hq'. rewrite Hrev2. by case_decide.
      * intros _. rewrite Hrev2. by rewrite decide_True.
      * rewrite length_app. simpl. lia.
  - (* the neighbour is left alone *)
    exists g, queue. split; [done|]. split; [done|]. split; [done|]. split; [|lia].
    intros Helig. rewrite Hrev.
    unfold eligible, holdsAt, coveredSafe in Helig. rewrite Hc0 in Helig.
    apply andb_true_iff in Helig as [[_ Ef]%andb_true_iff Em].
    rewrite Ec in Etest. simpl in Etest. rewrite Ef, Em in Etest.
    rewrite !andb_true_r in Etest. by apply negb_false_iff in Etest.
Qed.

(** The whole [forEach] over the neighbours of a cell [p] of the region. *)
Lemma floodVisit_all g0 start p visited :
  floodRegion g0 start p →
  ∀ ns g queue,
    (∀ n, n ∈ ns → n ∈ getNeighbors g0 p.1 p.2) →
    floodCore g0 start queue visited g →
    ∃ g' queue',
      forEach floodVisit ns (g, queue) = Done (g', queue') ∧
      floodCore g0 start queue' visited g' ∧
      (∀ q, holdsAt revealed g q = true → holdsAt revealed g' q = true) ∧
      (∀ n, n ∈ ns → eligible g0 n → holdsAt revealed g' n = true) ∧
      length queue' + covered g' ≤ length queue + covered g.
Proof.
  intros Hp ns. induction ns as [|n ns IH]; intros g queue Hns Hcore.
  - exists g, queue. split; [done|]. split; [done|]. split; [done|].
    split; [|lia]. by intros n ?%elem_of_nil.
  - destruct (floodVisit_spec g0 start p visited n g queue Hcore Hp)
      as (g1 & queue1 & Hrun1 & Hcore1 & Hmono1 & Hn1 & Hm1); [apply Hns; left|].
    destruct (IH g1 queue1) as (g2 & queue2 & Hrun2 & Hcore2 & Hmono2 & Hn2 & Hm2);
      [intros; apply Hns; by right|done|].
    exists g2, queue2. simpl. rewrite Hrun1. split; [done|]. split; [done|].
    split; [|split; [|lia]].
    + intros q Hq. by apply Hmono2, Hmono1.
    + intros n' [->|Hn']%elem_of_cons He; [apply Hmono2; by apply Hn1|by apply Hn2].
Qed.

(** The [while] loop leaves the queue empty, with the invariant. *)
Lemma floodLoop_spec g0 start : ∀ fuel queue visited g,
  floodCore g0 start queue visited g → closedUnder g0 visited g →
  length queue + covered g ≤ fuel →
  ∃ g' visited',
    floodLoop fuel queue visited g = Done g' ∧
    floodCore g0 start [] visited' g' ∧ closedUnder g0 visited' g'.
Proof.
  induction fuel as [|fuel IH]; intros queue visited g Hcore Hclosed Hfuel;
    destruct queue as [|ref rest]; simpl in *; try lia; eauto.
  destruct (onlyRevealed_shape _ _ (fc_cells _ _ _ _ _ Hcore)) as [Hr Hc].
  assert (Href : floodRegion g0 start ref) by (apply (fc_queue _ _ _ _ _ Hcore); left).
  destruct (wellFormed_getCell g ref) as [cell Hcell]; [apply Hcore| |].
  { pose proof (floodRegion_inBounds _ _ _ (fc_start _ _ _ _ _ Hcore) Href) as Hb.
    unfold inBounds. by rewrite Hr, Hc. }
  rewrite Hcell.
  destruct (wellFormed_rowcol g ref cell (fc_wf _ _ _ _ _ Hcore) Hcell) as [-> ->].
  rewrite <- surjective_pairing.
  case_decide as Hvis.
  - (* already visited *)
    apply IH; [|done|lia].
    destruct Hcore as [Hs Hwf Hcells Hkeep Hnew Hq Hv Hpush Hseed Hcnt].
    split; try done.
    + intros p Hp'. apply Hq. by right.
    + intros n Hsp Hrev. destruct (Hpush n Hsp Hrev) as [[->|?]%elem_of_cons|?]; auto.
    + destruct Hseed as [[->|?]%elem_of_cons|?]; auto.
  - (* visit the cell and its neighbours *)
    assert (Hcore' : floodCore g0 start rest ({[ref]} ∪ visited) g).
    { destruct Hcore as [Hs Hwf Hcells Hkeep Hnew Hq Hv Hpush Hseed Hcnt].
      split; try done.
      - intros p Hp'. apply Hq. by right.
      - intros p [->%elem_of_singleton|Hp']%elem_of_union; auto.
      - intros n Hsp Hrev. rewrite elem_of_union, elem_of_singleton.
        destruct (Hpush n Hsp Hrev) as [[->|?]%elem_of_cons|?]; auto.
      - rewrite elem_of_union, elem_of_singleton.
        destruct Hseed as [[->|?]%elem_of_cons|?]; auto. }
    rewrite (getNeighbors_shell g0 g) by done.
    destruct (floodVisit_all g0 start ref ({[ref]} ∪ visited) Href
                (getNeighbors g0 ref.1 ref.2) g rest)
      as (g' & queue' & Hrun & Hcore2 & Hmono & Hall & Hm); [done|done|].
    rewrite Hrun. simpl. apply IH; [done| |lia].
    intros p n [->%elem_of_singleton|Hp']%elem_of_union Hn He.
    + by apply Hall.
    + apply Hmono. by eapply Hclosed.
Qed.

(** A run that ends with [Done] ends in the same way with more fuel: [fuel]
    cuts runs short, it does not change them. *)
Lemma floodLoop_more_fuel : ∀ fuel fuel' queue visited g g',
  fuel ≤ fuel' → floodLoop fuel queue visited g = Done g' →
  floodLoop fuel' queue visited g = Done g'.
Proof.
  induction fuel as [|fuel IH]; intros fuel' [|ref rest] visited g g' Hle;
    simpl; try done.
  - by destruct fuel'.
  - by destruct fuel'.
  - destruct fuel' as [|fuel']; [lia|]. simpl.
    destruct (getCell g ref) as [cell|]; [|done].
    case_decide; [apply IH; lia|].
    destruct (forEach floodVisit _ _) as [st| |]; try done. apply IH. lia.
Qed.

(** [floodReveal] always completes; it reveals the cells of [floodRevealed]
    and nothing else, and counts each of them once. *)
Lemma floodReveal_spec g start :
  wellFormed g → inBounds g start →
  ∃ g', floodReveal start g = Done g' ∧
        wellFormed g' ∧ onlyRevealed g g' ∧
        (∀ q, holdsAt revealed g' q = true ↔
              holdsAt revealed g q = true ∨ floodRevealed g start q) ∧
        (revealedCount g' - Z.of_nat (countCells revealed g') =
         revealedCount g - Z.of_nat (countCells revealed g))%Z.
Proof.
  intros Hwf Hs.
  destruct (floodLoop_spec g start (floodFuel g) [start] ∅ g)
    as (g' & visited' & Hrun & Hcore & Hclosed).
  - split.
    + done.
    + done.
    + apply onlyRevealed_refl.
    + auto.
    + intros q Hq. by left.
    + intros p ->%list_elem_of_singleton. constructor.
    + intros p Hp. destruct (not_elem_of_empty (C := gset Pos) p Hp).
    + intros n Hsp Hrev. exfalso. unfold spreading, holdsAt, coveredSafe in *.
      destruct (getCell g n); [|done]. by rewrite Hrev in Hsp.
    + left. by apply list_elem_of_singleton.
    + done.
  - intros p n Hp. destruct (not_elem_of_empty (C := gset Pos) p Hp).
  - unfold floodFuel, covered. simpl.
    pose proof (countCells_le (fun c => negb (revealed c)) g). lia.
  - exists g'. split; [done|].
    destruct Hcore as [_ Hwf' Hcells Hkeep Hnew Hq Hv Hpush Hseed Hcnt].
    assert (Hreg : ∀ p, floodRegion g start p → p ∈ visited').
    { intros p Hp. induction Hp as [|p n Hp IHp Hn Hsp].
      - destruct Hseed as [?%elem_of_nil|?]; done.
      - destruct (Hpush n Hsp) as [?%elem_of_nil|?]; [|done|done].
        eapply Hclosed; [exact IHp|done|by apply spreading_eligible]. }
    split; [done|]. split; [done|]. split; [|done].
    intros q. split; [apply Hnew|].
    intros [Hq0|(p & Hp & Hn & He)]; [by apply Hkeep|].
    eapply Hclosed; [apply Hreg, Hp|done|done].
Qed.

End Flood.

(** ** Revealing a cell, ending the game, flags *)

Section Reveal.
Implicit Types (g : Game) (p q : Pos) (picks : list Pos).

Lemma sameButRevealed_refl g : sameButRevealed g g.
Proof. apply onlyRevealed_refl. Qed.

Lemma sameButRevealed_trans g1 g2 g3 :
  sameButRevealed g1 g2 → sameButRevealed g2 g3 → sameButRevealed g1 g3.
Proof.
  intros H12 H23 q. rewrite H23, H12. by destruct (getCell g1 q).
Qed.

Lemma sameButRevealed_holds P g g' q :
  (∀ b c, P (set_revealed b c) = P c) →
  sameButRevealed g g' → holdsAt P g' q = holdsAt P g q.
Proof.
  intros HP H. unfold holdsAt at 1. rewrite H. unfold holdsAt.
  destruct (getCell g q); simpl; [apply HP|done].
Qed.

Lemma sameButRevealed_count P g g' :
  (∀ b c, P (set_revealed b c) = P c) →
  wellFormed g → wellFormed g' → rows g' = rows g → cols g' = cols g →
  sameButRevealed g g' → countCells P g' = countCells P g.
Proof.
  intros HP Hwf Hwf' Hr Hc H. rewrite !countCells_positions by done.
  unfold allPos. rewrite Hr, Hc. f_equal. apply list_filter_iff.
  intros q. by rewrite (sameButRevealed_holds P g g' q).
Qed.

Lemma revealsOnly_refl g : wellFormed g → revealsOnly g g.
Proof. intros. split; try done. apply sameButRevealed_refl. Qed.

Lemma revealsOnly_trans g1 g2 g3 :
  revealsOnly g1 g2 → revealsOnly g2 g3 → revealsOnly g1 g3.
Proof.
  intros [] []. split; try congruence; [by eapply sameButRevealed_trans|auto].
Qed.

Lemma forEach_exposeMine g :
  wellFormed g →
  ∃ g', forEach exposeMine (allPos g) g = Done g' ∧
        wellFormed g' ∧ sameShell g g' ∧
        ∀ q, getCell g' q =
             (fun c => if mine c && negb (revealed c) then set_revealed true c else c)
               <$> getCell g q.
Proof.
  intros Hwf.
  destruct (forEach_cells exposeMine
    (fun q c => if mine c && negb (revealed c) then set_revealed true c else c)
    wellFormed) with (ps := allPos g) (g := g) as (g' & Hrun & Hwf' & Hsh & Hcells).
  - intros g1 p c Hwf1 Hp. unfold exposeMine, deref. rewrite Hp. simpl.
    destruct (mine c && negb (revealed c)).
    + eexists. split; [done|]. split; [by apply wellFormed_updCell|].
      split; [apply sameShell_updCell|].
      intros q. rewrite getCell_updCell. case_decide; [by rewrite Hp|done].
    + exists g1. repeat split; try done. intros q. case_decide; [by subst q|done].
  - apply NoDup_allPos.
  - intros p Hp%elem_of_allPos. by apply wellFormed_inBounds.
  - done.
  - exists g'. split; [done|]. split; [done|]. split; [done|].
    intros q. rewrite Hcells. case_decide as Hq; [done|].
    destruct (getCell g q) eqn:E; [|done]. exfalso. apply Hq.
    apply elem_of_allPos, (wellFormed_inBounds g q Hwf). by rewrite E.
Qed.

(** [endGame]: the game is over, the banner says how, the timer is stopped and
    every mine is revealed. *)
Lemma endGame_spec win g :
  wellFormed g →
  ∃ g', endGame win g = Done g' ∧ revealsOnly g g' ∧
        gameOver g' = true ∧
        banner g' = (if win then WinBanner else LoseBanner) ∧
        revealedCount g' = revealedCount g ∧
        (∀ q, holdsAt revealed g' q = true →
              holdsAt revealed g q = true ∨ mineAt g' q = true) ∧
        (∀ q, mineAt g q = true → holdsAt revealed g' q = true).
Proof.
  intros Hwf. unfold endGame, revealAllMines.
  set (g1 := set_banner (if win then WinBanner else LoseBanner)
               (stopTimer (set_gameOver true g))).
  assert (Hwf1 : wellFormed g1) by done.
  destruct (forEach_exposeMine g1 Hwf1) as (g' & Hrun & Hwf' & Hsh & Hcells).
  exists g'. split.
  { destruct win; exact Hrun. }
  change (getCell g1) with (getCell g) in Hcells.
  assert (Hrev : ∀ q, holdsAt revealed g' q =
                      holdsAt revealed g q || mineAt g q).
  { intros q. unfold mineAt, holdsAt. rewrite Hcells.
    destruct (getCell g q) as [c|]; simpl; [|done].
    destruct c as [? ? [] ? [] ?]; done. }
  assert (Hmine : ∀ q, mineAt g' q = mineAt g q).
  { intros q. unfold mineAt, holdsAt. rewrite Hcells.
    destruct (getCell g q) as [c|]; simpl; [|done].
    destruct c as [? ? [] ? [] ?]; done. }
  destruct Hsh as (Hc & Hr & Hmc & Hfp & Hfc & Hgo & Hrc & _ & _ & Hb).
  split; [|split; [|split; [|split; [|split]]]].
  - split; try done.
    + intros q. rewrite Hrev, Hcells.
      destruct (getCell g q) as [c|] eqn:E; simpl; [|done].
      unfold mineAt, holdsAt. rewrite E. f_equal.
      destruct c as [? ? [] ? [] ?]; done.
    + intros q Hq. rewrite Hrev, Hq. done.
  - by rewrite Hgo.
  - rewrite Hb. by destruct win.
  - by rewrite Hrc.
  - intros q. rewrite Hrev, Hmine. by intros [?|?]%orb_true_iff; [left|right].
  - intros q Hq. rewrite Hrev, Hq. apply orb_true_r.
Qed.

Lemma revealCell_blocked picks p g cell :
  getCell g p = Some cell → revealed cell || flagged cell = true →
  revealCell picks p g = Done g.
Proof. intros Hp Hb. unfold revealCell, deref. rewrite Hp. simpl. by rewrite Hb. Qed.

(** A reveal of a covered, unflagged cell once the mines are placed.  The
    last part says which cells can be newly revealed: unflagged cells without
    a mine, and, when the game ends, mines. *)
Lemma revealCell_later picks p g cell :
  wellFormed g → firstClick g = false →
  getCell g p = Some cell → revealed cell = false → flagged cell = false →
  ∃ g', revealCell picks p g = Done g' ∧ revealsOnly g g' ∧
        holdsAt revealed g' p = true ∧
        (if mine cell then gameOver g' = true ∧ banner g' = LoseBanner
         else if ((totalSafe g <=? revealedCount g')%Z && negb (gameOver g))
              then gameOver g' = true ∧ banner g' = WinBanner
              else gameOver g' = gameOver g ∧ banner g' = banner g) ∧
        (∀ q, holdsAt revealed g' q = true →
              holdsAt revealed g q = true ∨
              (holdsAt flagged g q = false ∧ mineAt g q = false) ∨
              (mineAt g q = true ∧ gameOver g' = true)).
Proof.
  intros Hwf Hfc Hp Hr Hf.
  unfold revealCell, deref. rewrite Hp. simpl. rewrite Hr, Hf, Hfc. simpl.
  set (g3 := set_revealedCount _ (updCell p (set_revealed true) g)).
  assert (Hget : ∀ q, getCell g3 q =
                      if decide (q = p) then Some (set_revealed true cell) else getCell g q).
  { intros q. unfold g3. change (getCell (set_revealedCount _ ?h) q) with (getCell h q).
    rewrite getCell_updCell. case_decide; [by rewrite Hp|done]. }
  assert (Hrev3 : ∀ q, holdsAt revealed g3 q =
                       if decide (q = p) then true else holdsAt revealed g q).
  { intros q. unfold holdsAt. rewrite Hget. by case_decide. }
  assert (Hwf3 : wellFormed g3).
  { apply (wellFormed_shell (updCell p (set_revealed true) g)); try done.
    by apply wellFormed_updCell. }
  assert (H03 : revealsOnly g g3).
  { split; try done.
    - intros q. rewrite Hget, Hrev3. case_decide; [subst q; by rewrite Hp|].
      apply sameButRevealed_refl.
    - intros q Hq. rewrite Hrev3. by case_decide. }
  assert (Hpm : mineAt g p = mine cell) by (unfold mineAt, holdsAt; by rewrite Hp).
  assert (Hpf : holdsAt flagged g p = false) by (unfold holdsAt; by rewrite Hp).
  rewrite Hget. rewrite decide_True by done. simpl.
  destruct (mine cell) eqn:Hm.
  - (* a mine: the game is lost *)
    destruct (endGame_spec false g3 Hwf3)
      as (g' & Hrun & Hro & Hgo & Hb & _ & Hnew & _).
    exists g'. split; [done|]. split; [by eapply revealsOnly_trans|].
    split; [apply Hro; rewrite Hrev3; by rewrite decide_True|].
    split; [done|].
    intros q Hq. destruct (Hnew q Hq) as [Hq3|Hq3].
    + rewrite Hrev3 in Hq3. case_decide; [subst q|by left]. right. right. done.
    + right. right. split; [|done]. rewrite <- Hq3. symmetry.
      apply sameButRevealed_holds; [done|].
      apply (ro_cells _ _ (revealsOnly_trans _ _ _ H03 Hro)).
  - (* no mine: flood fill when the count is zero, then the win check *)
    assert (∃ g4, (if adjacent cell =? 0 then floodReveal p g3 else Done g3) = Done g4 ∧
                  revealsOnly g3 g4 ∧ gameOver g4 = gameOver g ∧ banner g4 = banner g ∧
                  ∀ q, holdsAt revealed g4 q = true →
                       holdsAt revealed g3 q = true ∨
                       (holdsAt flagged g3 q = false ∧ mineAt g3 q = false))
      as (g4 & Hrun4 & H34 & Hgo4 & Hb4 & Hnew4).
    { destruct (adjacent cell =? 0).
      - destruct (floodReveal_spec g3 p Hwf3)
          as (g4 & Hrun & Hwf4 & [Hsh Hcells] & Hiff & _).
        { apply wellFormed_inBounds; [done|]. by rewrite Hget, decide_True. }
        destruct Hsh as (Hc & Hr' & Hmc & Hfp & Hfc' & Hgo & _ & _ & _ & Hb).
        exists g4. split; [done|]. split; [|split; [done|split; [done|]]].
        + split; try done. intros q Hq. apply Hiff. by left.
        + intros q [Hq|(_ & _ & _ & He)]%Hiff; [by left|]. right.
          unfold eligible, mineAt, holdsAt, coveredSafe in *.
          destruct (getCell g3 q); [|done].
          apply andb_true_iff in He as [[_ He]%andb_true_iff He'].
          apply negb_true_iff in He, He'. done.
      - exists g3. split; [done|]. split; [by apply revealsOnly_refl|]. auto. }
    rewrite Hrun4. simpl.
    assert (Hnew04 : ∀ q, holdsAt revealed g4 q = true →
                          holdsAt revealed g q = true ∨
                          (holdsAt flagged g q = false ∧ mineAt g q = false)).
    { intros q Hq. destruct (Hnew4 q Hq) as [Hq3|[Hq3 Hq3']].
      - rewrite Hrev3 in Hq3. case_decide; [subst q|by left]. right. by rewrite Hpm.
      - right.
        rewrite <- (sameButRevealed_holds flagged g g3 q), Hq3 by (done || apply H03).
        unfold mineAt in *.
        rewrite <- (sameButRevealed_holds mine g g3 q), Hq3' by (done || apply H03).
        done. }
    assert (H04 : revealsOnly g g4) by (by eapply revealsOnly_trans).
    assert (Hp4 : holdsAt revealed g4 p = true).
    { apply H34. rewrite Hrev3. by rewrite decide_True. }
    unfold checkWin, totalSafe.
    rewrite (ro_rows _ _ H04), (ro_cols _ _ H04), (ro_mineCount _ _ H04), Hgo4.
    fold (totalSafe g).
    destruct (_ && _) eqn:Ewin.
    + destruct (endGame_spec true g4 (ro_wf _ _ H04))
        as (g' & Hrun & Hro & Hgo & Hb & Hrc & Hnew & _).
      exists g'. split; [done|]. split; [by eapply revealsOnly_trans|].
      split; [by apply Hro|]. rewrite Hrc, Ewin. split; [done|].
      intros q Hq. destruct (Hnew q Hq) as [Hq4|Hq4].
      * destruct (Hnew04 q Hq4); auto.
      * right. right. split; [|done]. rewrite <- Hq4. symmetry.
        apply sameButRevealed_holds; [done|].
        apply (ro_cells _ _ (revealsOnly_trans _ _ _ H04 Hro)).
    + exists g4. split; [done|]. split; [done|]. split; [done|].
      rewrite Ewin. split; [done|].
      intros q Hq. destruct (Hnew04 q Hq); auto.
Qed.

End Reveal.

(** ** Commands and the games they reach *)

Section Game.
Implicit Types (g : Game) (p q e : Pos) (picks : list Pos).

Lemma filter_none {A} (P : A → Prop) `{∀ x, Decision (P x)} (l : list A) :
  (∀ x, ¬ P x) → filter P l = [].
Proof.
  intros HP. induction l as [|x l IH]; [done|].
  rewrite filter_cons. by rewrite decide_False.
Qed.

Lemma getCell_createEmptyBoard g q :
  getCell (createEmptyBoard g) q =
  if decide (inBounds g q) then Some (emptyCell q.1 q.2) else None.
Proof.
  destruct q as [r c]. unfold getCell, createEmptyBoard, inBounds. simpl.
  rewrite list_lookup_fmap.
  destruct (decide (r < rows g)) as [Hr|Hr].
  - rewrite lookup_seq_lt by done. simpl. rewrite list_lookup_fmap.
    destruct (decide (c < cols g)) as [Hc|Hc].
    + rewrite lookup_seq_lt by done. simpl. by rewrite decide_True.
    + rewrite lookup_seq_ge by lia. simpl. rewrite decide_False; [done|lia].
  - rewrite lookup_seq_ge by lia. simpl. rewrite decide_False; [done|lia].
Qed.

Lemma holdsAt_resetGameTo P d g q :
  (∀ r c, P (emptyCell r c) = false) → holdsAt P (resetGameTo d g) q = false.
Proof.
  intros HP. unfold holdsAt, resetGameTo. rewrite getCell_createEmptyBoard.
  by case_decide.
Qed.

Lemma countCells_resetGameTo P d g :
  (∀ r c, P (emptyCell r c) = false) → countCells P (resetGameTo d g) = 0.
Proof.
  intros HP. rewrite countCells_positions by apply wellFormed_createEmptyBoard.
  rewrite filter_none; [done|]. intros q. by rewrite holdsAt_resetGameTo.
Qed.

Lemma resetGameTo_inv d g : gameInv (resetGameTo d g).
Proof.
  split.
  - apply wellFormed_createEmptyBoard.
  - by rewrite countCells_resetGameTo.
  - intros q. by rewrite holdsAt_resetGameTo.
  - intros q. by rewrite holdsAt_resetGameTo.
  - intros _ q. by rewrite holdsAt_resetGameTo.
Qed.

(** [resetGame] forgets the game it is applied to. *)
Lemma resetGame_const g : resetGame g = resetGame initialGame.
Proof. done. Qed.

Lemma placeMines_keeps picks r0 c0 g g' q :
  wellFormed g → placeMines picks r0 c0 g = Done g' →
  holdsAt revealed g' q = holdsAt revealed g q ∧
  holdsAt flagged g' q = holdsAt flagged g q.
Proof.
  intros Hwf Hrun.
  destruct (placeMines_spec _ _ _ _ _ Hwf Hrun) as (Hwf' & Hsh & _ & _ & _ & Hcells).
  unfold holdsAt. destruct (getCell g q) as [c|] eqn:E.
  - destruct (Hcells q c E) as (c' & -> & _ & _ & -> & -> & _). done.
  - destruct (getCell g' q) as [c'|] eqn:E'; [|done]. exfalso.
    assert (inBounds g' q) as [Hr Hc] by (apply wellFormed_inBounds; by rewrite ?E').
    destruct Hsh as (Hc' & Hr' & _). rewrite Hr' in Hr. rewrite Hc' in Hc.
    destruct (wellFormed_getCell g q Hwf) as [? Hq]; [done|congruence].
Qed.

(** The first reveal is the placement of the mines followed by a later
    reveal. *)
Lemma revealCell_first picks p g cell :
  wellFormed g → firstClick g = true →
  getCell g p = Some cell → revealed cell = false → flagged cell = false →
  revealCell picks p g =
  (g1 ← placeMines picks p.1 p.2 g;
   revealCell picks p (startTimer (set_firstClick false g1))).
Proof.
  intros Hwf Hfc Hp Hr Hf.
  destruct (wellFormed_rowcol g p cell Hwf Hp) as [Hrow Hcol].
  unfold revealCell at 1, deref. rewrite Hp. simpl. rewrite Hr, Hf, Hfc, Hrow, Hcol. simpl.
  destruct (placeMines picks p.1 p.2 g) as [g1| |] eqn:Hrun; simpl; try done.
  destruct (placeMines_keeps _ _ _ _ _ p Hwf Hrun) as [Hr1 Hf1].
  unfold holdsAt in Hr1, Hf1. rewrite Hp in Hr1, Hf1.
  unfold revealCell, deref.
  change (getCell (startTimer (set_firstClick false g1)) p) with (getCell g1 p).
  destruct (getCell g1 p) as [c1|] eqn:E1.
  - simpl. rewrite Hr1, Hf1, Hr, Hf. simpl.
    change (getCell (set_revealedCount ?v (updCell p ?f ?h)) p)
      with (getCell (updCell p f h) p).
    rewrite !getCell_updCell_eq.
    change (getCell (startTimer (set_firstClick false g1)) p) with (getCell g1 p).
    rewrite E1. done.
  - destruct (placeMines_spec _ _ _ _ _ Hwf Hrun) as (_ & _ & _ & _ & _ & Hcells).
    destruct (Hcells p cell Hp) as (? & ? & _). congruence.
Qed.

Lemma gameInv_placed picks r0 c0 g g1 :
  gameInv g → firstClick g = true → placeMines picks r0 c0 g = Done g1 →
  gameInv (startTimer (set_firstClick false g1)).
Proof.
  intros [Hwf Hfl Hboth Hmines Hfresh] Hfc Hrun.
  destruct (placeMines_spec _ _ _ _ _ Hwf Hrun) as (Hwf1 & Hsh & _).
  assert (Hrev : ∀ q, holdsAt revealed (startTimer (set_firstClick false g1)) q = false).
  { intros q. change (holdsAt revealed g1 q = false).
    destruct (placeMines_keeps _ _ _ _ _ q Hwf Hrun) as [-> _]. by apply Hfresh. }
  split.
  - done.
  - change (flagsPlaced g1 = Z.of_nat (countCells flagged g1)).
    destruct Hsh as (Hc & Hr & _ & -> & _). rewrite Hfl. f_equal.
    rewrite !countCells_positions by done. unfold allPos. rewrite Hr, Hc. f_equal.
    apply list_filter_iff. intros q.
    destruct (placeMines_keeps _ _ _ _ _ q Hwf Hrun) as [_ ->]. done.
  - intros q Hq. by rewrite Hrev in Hq.
  - intros q Hq. by rewrite Hrev in Hq.
  - done.
Qed.

Lemma revealCell_inv picks p g g' :
  gameInv g → revealCell picks p g = Done g' → gameInv g'.
Proof.
  assert (Hlater : ∀ g cell, gameInv g → firstClick g = false →
            getCell g p = Some cell → revealed cell = false → flagged cell = false →
            revealCell picks p g = Done g' → gameInv g').
  { clear g. intros g cell [Hwf Hfl Hboth Hmines Hfresh] Hfc Hp Hr Hf Hrun.
    destruct (revealCell_later picks p g cell Hwf Hfc Hp Hr Hf)
      as (g'' & Hrun' & Hro & _ & Hphase & Hnew).
    rewrite Hrun in Hrun'. injection Hrun' as <-.
    assert (Hgo : gameOver g = true → gameOver g' = true).
    { intros Hgo. destruct (mine cell); [apply Hphase|].
      destruct (_ && _); [apply Hphase|]. destruct Hphase as [-> _]. done. }
    assert (Hfl' : ∀ q, holdsAt flagged g' q = holdsAt flagged g q).
    { intros q. apply sameButRevealed_holds; [done|apply Hro]. }
    assert (Hm' : ∀ q, mineAt g' q = mineAt g q).
    { intros q. apply sameButRevealed_holds; [done|apply Hro]. }
    split.
    - apply Hro.
    - rewrite (ro_flagsPlaced _ _ Hro), Hfl. f_equal. symmetry.
      apply sameButRevealed_count; try done; apply Hro.
    - intros q Hq. rewrite Hfl', Hm'. intros Hqf.
      destruct (Hnew q Hq) as [Hq0|[[Hq0 _]|[Hq0 Hq1]]]; [|congruence|done].
      destruct (Hboth q Hq0 Hqf). auto.
    - intros q Hq. rewrite Hm'. intros Hqm.
      destruct (Hnew q Hq) as [Hq0|[[_ Hq0]|[_ Hq1]]]; [|congruence|done].
      apply Hgo. by eapply Hmines.
    - rewrite (ro_firstClick _ _ Hro), Hfc. done. }
  intros Hinv Hrun.
  destruct (getCell g p) as [cell|] eqn:Hp.
  2:{ unfold revealCell, deref in Hrun. by rewrite Hp in Hrun. }
  destruct (revealed cell || flagged cell) eqn:Hb.
  { rewrite (revealCell_blocked picks p g cell Hp Hb) in Hrun. by injection Hrun as <-. }
  apply orb_false_iff in Hb as [Hr Hf].
  destruct (firstClick g) eqn:Hfc; [|by eapply Hlater].
  rewrite (revealCell_first picks p g cell (inv_wf _ Hinv) Hfc Hp Hr Hf) in Hrun.
  destruct (placeMines picks p.1 p.2 g) as [g1| |] eqn:Hpm; simpl in Hrun; try done.
  destruct (placeMines_keeps _ _ _ _ _ p (inv_wf _ Hinv) Hpm) as [Hr1 Hf1].
  unfold holdsAt in Hr1, Hf1. rewrite Hp in Hr1, Hf1.
  destruct (getCell g1 p) as [c1|] eqn:E1.
  - eapply (Hlater _ c1); [by eapply gameInv_placed|done|exact E1| | |exact Hrun];
      congruence.
  - unfold revealCell, deref in Hrun.
    change (getCell (startTimer (set_firstClick false g1)) p) with (getCell g1 p) in Hrun.
    by rewrite E1 in Hrun.
Qed.

Lemma toggleFlag_covered p g cell :
  getCell g p = Some cell → revealed cell = false →
  toggleFlag p g =
  Done (set_flagsPlaced (flagsPlaced g + (if flagged cell then -1 else 1))%Z
         (updCell p (set_flagged (negb (flagged cell))) g)).
Proof.
  intros Hp Hr. unfold toggleFlag, deref. rewrite Hp. simpl. rewrite Hr.
  by destruct (flagged cell).
Qed.

Lemma toggleFlag_revealed p g cell :
  getCell g p = Some cell → revealed cell = true → toggleFlag p g = Done g.
Proof. intros Hp Hr. unfold toggleFlag, deref. rewrite Hp. simpl. by rewrite Hr. Qed.

Lemma toggleFlag_inv p g g' : gameInv g → toggleFlag p g = Done g' → gameInv g'.
Proof.
  intros Hinv Hrun.
  destruct (getCell g p) as [cell|] eqn:Hp.
  2:{ unfold toggleFlag, deref in Hrun. by rewrite Hp in Hrun. }
  destruct (revealed cell) eqn:Hr.
  { rewrite (toggleFlag_revealed p g cell Hp Hr) in Hrun. by injection Hrun as <-. }
  rewrite (toggleFlag_covered p g cell Hp Hr) in Hrun. injection Hrun as <-.
  destruct Hinv as [Hwf Hfl Hboth Hmines Hfresh].
  set (g1 := updCell p (set_flagged (negb (flagged cell))) g).
  assert (Hh : ∀ P q, (∀ b c, P (set_flagged b c) = P c) →
                      holdsAt P (set_flagsPlaced (flagsPlaced g + (if flagged cell then -1 else 1))%Z g1) q
                      = holdsAt P g q).
  { intros P q HP. change (holdsAt P g1 q = holdsAt P g q). unfold g1.
    rewrite holdsAt_updCell. case_decide; [subst q|done].
    unfold holdsAt. rewrite Hp. apply HP. }
  split.
  - apply (wellFormed_shell g1); try done. by apply wellFormed_updCell.
  - pose proof (countCells_updCell flagged p (set_flagged (negb (flagged cell))) g cell Hp)
      as Hc. fold g1 in Hc. simpl in Hc.
    change (countCells flagged (set_flagsPlaced _ g1)) with (countCells flagged g1).
    simpl. rewrite Hfl. destruct (flagged cell); simpl in Hc; lia.
  - intros q. unfold mineAt. rewrite (Hh revealed), (Hh mine) by done.
    intros Hq Hqf. apply Hboth; [done|].
    change (holdsAt flagged g1 q = true) in Hqf. unfold g1 in Hqf.
    rewrite holdsAt_updCell in Hqf. case_decide; [subst q|done].
    unfold holdsAt in Hq. rewrite Hp in Hq. congruence.
  - intros q. unfold mineAt. rewrite (Hh revealed), (Hh mine) by done. apply Hmines.
  - intros Hfc q. rewrite (Hh revealed) by done. by apply Hfresh.
Qed.

Lemma getCellFromEvent_getCell g e o :
  getCellFromEvent g e = Done o → getCell g e = o.
Proof.
  unfold getCellFromEvent, getCell. destruct (board g !! e.1); [|done].
  by intros [= <-].
Qed.

(** The keys and the long press act on the game as the two clicks do. *)
Lemma onCellKeyDown_reveal picks e g :
  onCellKeyDown RevealKey picks e g = onCellClick picks e g.
Proof.
  unfold onCellKeyDown, onCellClick.
  destruct (getCellFromEvent g e) as [[cell|]| |]; simpl; try done.
  by destruct (gameOver g), (flagged cell).
Qed.

Lemma onCellKeyDown_flag picks e g :
  onCellKeyDown FlagKey picks e g = onCellRightClick e g.
Proof.
  unfold onCellKeyDown, onCellRightClick.
  destruct (getCellFromEvent g e) as [[cell|]| |]; simpl; try done.
  by destruct (gameOver g), (revealed cell).
Qed.

Lemma onCellKeyDown_other picks e g g' :
  onCellKeyDown OtherKey picks e g = Done g' → g' = g.
Proof.
  unfold onCellKeyDown.
  destruct (getCellFromEvent g e) as [[cell|]| |]; simpl; try done.
  - destruct (gameOver g); by intros [= <-].
  - by intros [= <-].
Qed.

Lemma onLongPress_rightClick e g : onLongPress e g = onCellRightClick e g.
Proof.
  unfold onLongPress, onCellRightClick.
  destruct (getCellFromEvent g e) as [[cell|]| |]; simpl; try done.
  by destruct (gameOver g), (revealed cell).
Qed.

Lemma perform_inv cmd g g' : gameInv g → perform cmd g = Done g' → gameInv g'.
Proof.
  assert (Hclick : ∀ picks e, gameInv g → onCellClick picks e g = Done g' → gameInv g').
  { intros picks e Hinv. unfold onCellClick.
    destruct (getCellFromEvent g e) as [[cell|]| |]; simpl; try done.
    - destruct (gameOver g); [by intros [= <-]|].
      destruct (flagged cell); [by intros [= <-]|]. by apply revealCell_inv.
    - by intros [= <-]. }
  assert (Hright : ∀ e, gameInv g → onCellRightClick e g = Done g' → gameInv g').
  { intros e Hinv. unfold onCellRightClick.
    destruct (getCellFromEvent g e) as [[cell|]| |]; simpl; try done.
    - destruct (gameOver g); [by intros [= <-]|].
      destruct (revealed cell); [by intros [= <-]|]. by apply toggleFlag_inv.
    - by intros [= <-]. }
  intros Hinv. destruct cmd as [picks e|e|[| |] picks e|e| |picks p|p]; simpl.
  1: by apply Hclick.
  1: by apply Hright.
  1: rewrite onCellKeyDown_reveal; by apply Hclick.
  1: rewrite onCellKeyDown_flag; by apply Hright.
  1: by intros ->%onCellKeyDown_other.
  1: rewrite onLongPress_rightClick; by apply Hright.
  - intros [= <-]. apply resetGameTo_inv.
  - by apply revealCell_inv.
  - by apply toggleFlag_inv.
Qed.

Lemma run_inv cmds : ∀ g g', gameInv g → run cmds g = Done g' → gameInv g'.
Proof.
  induction cmds as [|cmd cmds IH]; intros g g' Hinv; unfold run; simpl.
  - by intros [= <-].
  - destruct (perform cmd g) as [g1| |] eqn:E; try done.
    apply IH. by eapply perform_inv.
Qed.

End Game.

(** ** Further facts used by the main results *)

Section Facts.
Implicit Types (g : Game) (p q e : Pos) (picks : list Pos).

Lemma length_bind_const {A B} (f : A → list B) (l : list A) k :
  (∀ x, length (f x) = k) → length (l ≫= f) = length l * k.
Proof.
  intros Hf. induction l as [|x l IH]; [done|].
  rewrite bind_cons, length_app, Hf, IH. simpl. lia.
Qed.

Lemma length_allPos_grid g : length (allPos g) = rows g * cols g.
Proof.
  unfold allPos. rewrite (length_bind_const _ _ (cols g)).
  - by rewrite length_seq.
  - intros r. rewrite (length_bind_const _ _ 1); [|done]. rewrite length_seq. lia.
Qed.

Lemma filter_ne_absent (e : Pos) (l : list Pos) :
  e ∉ l → filter (fun q => q ≠ e) l = l.
Proof.
  induction l as [|x l IH]; [done|]. intros [Hx Hl]%not_elem_of_cons.
  rewrite filter_cons, decide_True by done. by rewrite IH.
Qed.

Lemma length_filter_ne (e : Pos) (l : list Pos) :
  NoDup l → e ∈ l → length (filter (fun q => q ≠ e) l) = length l - 1.
Proof.
  induction l as [|x l IH]; intros Hnd He; [by apply elem_of_nil in He|].
  apply NoDup_cons in Hnd as [Hx Hnd]. rewrite filter_cons.
  destruct (decide (x = e)) as [->|Hne].
  - rewrite decide_False by (by intros ?). rewrite filter_ne_absent by done.
    simpl. lia.
  - rewrite decide_True by done. apply elem_of_cons in He as [->|He]; [done|].
    simpl. rewrite IH by done. destruct l; [by apply elem_of_nil in He|simpl; lia].
Qed.

Lemma getCell_getCellFromEvent g e cell :
  getCell g e = Some cell → getCellFromEvent g e = Done (Some cell).
Proof.
  unfold getCell, getCellFromEvent. destruct (board g !! e.1); simpl; [|done].
  by intros ->.
Qed.

Lemma holdsAt_true P g q :
  holdsAt P g q = true ↔ ∃ c, getCell g q = Some c ∧ P c = true.
Proof.
  unfold holdsAt. destruct (getCell g q) as [c|]; split.
  - eauto.
  - by intros (? & [= <-] & ?).
  - done.
  - by intros (? & ? & ?).
Qed.

(** [placeMines] completes when the draws name enough different cells. *)
Lemma placeMines_done picks r0 c0 g :
  wellFormed g → Forall (inBounds g) picks → (∀ q, mineAt g q = false) →
  (mineCount g ≤ Z.of_nat (distinctDraws (r0, c0) picks))%Z →
  ∃ g', placeMines picks r0 c0 g = Done g'.
Proof.
  intros Hwf Hb Hfree Hn. unfold placeMines.
  set (l := filter (fun q => q ≠ (r0, c0)) picks).
  destruct (placeLoop_done picks {[(r0, c0)]} 0%Z g (list_to_set (remove_dups l)))
    as [g1 Hrun]; try done.
  - intros q Hq. rewrite elem_of_list_to_set.
    rewrite elem_of_list_to_set, elem_of_remove_dups in Hq.
    unfold l in Hq. rewrite list_elem_of_filter in Hq. by destruct Hq.
  - intros q Hq Hs. apply elem_of_singleton in Hs as ->.
    rewrite elem_of_list_to_set, elem_of_remove_dups in Hq.
    unfold l in Hq. rewrite list_elem_of_filter in Hq. by destruct Hq.
  - rewrite size_list_to_set by apply NoDup_remove_dups.
    unfold distinctDraws in Hn. fold l in Hn. lia.
  - rewrite Hrun. simpl.
    destruct (placeLoop_spec _ _ _ _ _ Hwf Hrun) as (Hwf1 & _).
    destruct (forEach_assignAdjacent g1 Hwf1) as (g2 & Hrun2 & _). eauto.
Qed.

Lemma updCell_id p f g cell :
  getCell g p = Some cell → f cell = cell → updCell p f g = g.
Proof.
  intros Hp Hf. destruct p as [r c]. unfold getCell in Hp. simpl in Hp.
  destruct (board g !! r) as [cells|] eqn:Er; simpl in Hp; [|done].
  unfold updCell, set_board. simpl. destruct g as [b ? ? ? ? ? ? ? ? ? ?].
  simpl in *. f_equal. apply list_eq. intros i. rewrite list_lookup_alter.
  case_decide; [subst i|done]. rewrite Er. simpl. f_equal.
  apply list_eq. intros j. rewrite list_lookup_alter.
  case_decide; [subst j|done]. rewrite Hp. simpl. by rewrite Hf.
Qed.

Lemma updCell_updCell p f1 f2 g :
  updCell p f2 (updCell p f1 g) = updCell p (fun c => f2 (f1 c)) g.
Proof.
  unfold updCell, set_board. simpl. f_equal.
  apply list_eq. intros i. rewrite !list_lookup_alter.
  repeat case_decide; try done.
  destruct (board g !! p.1) as [cells|]; simpl; [|done].
  f_equal. apply list_eq. intros j. rewrite !list_lookup_alter.
  repeat case_decide; try done. by destruct (cells !! p.2).
Qed.

(** Two toggles of a covered cell give the game back. *)
Lemma toggleFlag_twice p g cell :
  getCell g p = Some cell → revealed cell = false →
  ∃ g1, toggleFlag p g = Done g1 ∧
        getCell g1 p = Some (set_flagged (negb (flagged cell)) cell) ∧
        toggleFlag p g1 = Done g.
Proof.
  intros Hp Hr. rewrite (toggleFlag_covered p g cell Hp Hr).
  eexists. split; [done|].
  set (g1 := set_flagsPlaced _ _).
  assert (Hp1 : getCell g1 p = Some (set_flagged (negb (flagged cell)) cell)).
  { change (getCell g1 p) with (getCell (updCell p (set_flagged (negb (flagged cell))) g) p).
    by rewrite getCell_updCell_eq, Hp. }
  split; [done|].
  rewrite (toggleFlag_covered p g1 _ Hp1) by done. f_equal.
  unfold g1. simpl.
  change (updCell p ?f (set_flagsPlaced ?v ?h)) with (set_flagsPlaced v (updCell p f h)).
  rewrite updCell_updCell.
  rewrite (updCell_id p _ g cell Hp) by (destruct cell as [? ? ? ? ? []]; done).
  destruct g as [? ? ? ? fp ? ? ? ? ? ?]. unfold set_flagsPlaced. simpl. f_equal.
  destruct (flagged cell); simpl; lia.
Qed.

End Facts.

(** ** Clicks *)

Section Clicks.
Implicit Types (g : Game) (p q e : Pos) (picks : list Pos).

Lemma phase_over g : phase g = Won ∨ phase g = Lost ↔ gameOver g = true.
Proof.
  unfold phase. destruct (gameOver g), (banner g), (firstClick g); split;
    intros; try done; auto; by destruct H.
Qed.

Lemma phase_Won g : gameOver g = true → banner g = WinBanner → phase g = Won.
Proof. unfold phase. by intros -> ->. Qed.

Lemma phase_Lost g : gameOver g = true → banner g = LoseBanner → phase g = Lost.
Proof. unfold phase. by intros -> ->. Qed.

(** A click that changes the game is a reveal of a covered, unflagged cell in
    a game that is not over and whose mines are placed, after the placement
    if the click is the first one. *)
Lemma onCellClick_cases picks e g g' :
  wellFormed g → onCellClick picks e g = Done g' →
  g' = g ∨
  ∃ g1 c1, wellFormed g1 ∧ gameOver g1 = false ∧ firstClick g1 = false ∧
           gameOver g = false ∧ totalSafe g1 = totalSafe g ∧
           getCell g1 e = Some c1 ∧ revealed c1 = false ∧ flagged c1 = false ∧
           revealCell picks e g1 = Done g'.
Proof.
  intros Hwf. unfold onCellClick.
  destruct (getCellFromEvent g e) as [[cell|]| |] eqn:Hev; simpl; try done.
  2:{ intros [= <-]. by left. }
  apply getCellFromEvent_getCell in Hev.
  destruct (gameOver g) eqn:Hgo; [intros [= <-]; by left|].
  destruct (flagged cell) eqn:Hf; [intros [= <-]; by left|].
  destruct (revealed cell) eqn:Hr.
  { rewrite (revealCell_blocked picks e g cell Hev) by (by rewrite Hr).
    intros [= <-]. by left. }
  destruct (firstClick g) eqn:Hfc.
  - rewrite (revealCell_first picks e g cell Hwf Hfc Hev Hr Hf).
    destruct (placeMines picks e.1 e.2 g) as [g1| |] eqn:Hpm; simpl; try done.
    intros Hrun. right.
    destruct (placeMines_spec _ _ _ _ _ Hwf Hpm) as (Hwf1 & Hsh & _ & _ & _ & Hcells).
    destruct (Hcells e cell Hev) as (c1 & Hc1 & _ & _ & Hr1 & Hf1 & _).
    destruct Hsh as (Hc & Hrw & Hmc & _ & _ & Hgo1 & _).
    exists (startTimer (set_firstClick false g1)), c1.
    repeat split; try done; try congruence.
    + simpl. congruence.
    + unfold totalSafe. simpl. by rewrite Hc, Hrw, Hmc.
  - intros Hrun. right. exists g, cell. done.
Qed.

(** In a game that is over, clicks, right clicks, key presses and long
    presses on the cells complete and change nothing. *)
Lemma game_over_ignores_input key picks e g :
  wellFormed g → gameOver g = true → inBounds g e →
  onCellClick picks e g = Done g ∧ onCellRightClick e g = Done g ∧
  onCellKeyDown key picks e g = Done g ∧ onLongPress e g = Done g.
Proof.
  intros Hwf Hgo Hb. destruct (wellFormed_getCell g e Hwf Hb) as [cell Hcell].
  unfold onCellClick, onCellRightClick, onCellKeyDown, onLongPress.
  rewrite (getCell_getCellFromEvent g e cell Hcell). simpl. rewrite Hgo.
  by rewrite andb_false_r.
Qed.

Lemma onCellClick_wellFormed picks e g g' :
  wellFormed g → onCellClick picks e g = Done g' → wellFormed g'.
Proof.
  intros Hwf Hrun.
  destruct (onCellClick_cases picks e g g' Hwf Hrun)
    as [->|(g1 & c1 & Hwf1 & _ & Hfc1 & _ & _ & Hc1 & Hr1 & Hf1 & Hrev)]; [done|].
  destruct (revealCell_later picks e g1 c1 Hwf1 Hfc1 Hc1 Hr1 Hf1)
    as (g'' & Hrun' & Hro & _).
  rewrite Hrev in Hrun'. injection Hrun' as <-. apply Hro.
Qed.

(** The first click on a freshly reset board. *)
Lemma onCellClick_fresh d g0 picks e :
  inBounds (resetGameTo d g0) e →
  onCellClick picks e (resetGameTo d g0) =
  (g1 ← placeMines picks e.1 e.2 (resetGameTo d g0);
   revealCell picks e (startTimer (set_firstClick false g1))).
Proof.
  intros Hb.
  assert (Hcell : getCell (resetGameTo d g0) e = Some (emptyCell e.1 e.2)).
  { unfold resetGameTo. rewrite getCell_createEmptyBoard. by rewrite decide_True. }
  unfold onCellClick. rewrite (getCell_getCellFromEvent _ _ _ Hcell). simpl.
  by apply (revealCell_first picks e _ (emptyCell e.1 e.2));
    [apply wellFormed_createEmptyBoard|..].
Qed.

End Clicks.

(** * Main results *)

(** C1. For every configuration with [0 <= mineCount < rows * cols], a first
    reveal at an in-bounds cell [e] of the board left by a reset completes as
    soon as the draws (coordinates within the grid, as
    [Math.floor(Math.random() * rows)] gives them) name [mineCount] different
    cells other than [e]; and whenever it completes, [e] holds no mine and
    exactly [mineCount] of the [rows * cols - 1] other positions do. *)
Theorem first_reveal_safe_and_mined d g0 picks e :
  (0 ≤ d_mines d < Z.of_nat (d_rows d) * Z.of_nat (d_cols d))%Z →
  inBounds (resetGameTo d g0) e →
  Forall (inBounds (resetGameTo d g0)) picks →
  ((d_mines d ≤ Z.of_nat (distinctDraws e picks))%Z →
   ∃ g', onCellClick picks e (resetGameTo d g0) = Done g') ∧
  ∀ g', onCellClick picks e (resetGameTo d g0) = Done g' →
    mineAt g' e = false ∧
    Z.of_nat (length (filter (fun q => q ≠ e ∧ mineAt g' q = true) (allPos g'))) = d_mines d ∧
    length (filter (fun q => q ≠ e) (allPos g')) = d_rows d * d_cols d - 1.
Proof.
  intros Hcfg Hb Hpicks.
  rewrite (onCellClick_fresh d g0 picks e Hb).
  set (g := resetGameTo d g0) in *.
  assert (Hwf : wellFormed g) by apply wellFormed_createEmptyBoard.
  assert (Hfree : ∀ q, mineAt g q = false).
  { intros q. by apply holdsAt_resetGameTo. }
  assert (Hcell : getCell g e = Some (emptyCell e.1 e.2)).
  { unfold g, resetGameTo. rewrite getCell_createEmptyBoard. by rewrite decide_True. }
  assert (Hlater : ∀ g1, placeMines picks e.1 e.2 g = Done g1 →
            ∃ g', revealCell picks e (startTimer (set_firstClick false g1)) = Done g' ∧
                  revealsOnly (startTimer (set_firstClick false g1)) g').
  { intros g1 Hpm.
    destruct (placeMines_spec _ _ _ _ _ Hwf Hpm) as (Hwf1 & _ & _ & _ & _ & Hcells).
    destruct (Hcells e _ Hcell) as (c1 & Hc1 & _ & _ & Hr1 & Hf1 & _).
    destruct (revealCell_later picks e (startTimer (set_firstClick false g1)) c1)
      as (g' & Hrun & Hro & _); try done.
    exists g'. done. }
  split.
  - intros Hdraws.
    destruct (placeMines_done picks e.1 e.2 g Hwf Hpicks Hfree) as [g1 Hpm].
    { by rewrite <- surjective_pairing. }
    rewrite Hpm. simpl. destruct (Hlater g1 Hpm) as (g' & Hrun & _). eauto.
  - intros g'. destruct (placeMines picks e.1 e.2 g) as [g1| |] eqn:Hpm; simpl; try done.
    intros Hrun. destruct (Hlater g1 eq_refl) as (g'' & Hrun' & Hro).
    rewrite Hrun in Hrun'. injection Hrun' as <-.
    destruct (placeMines_spec _ _ _ _ _ Hwf Hpm) as (Hwf1 & Hsh & _ & Hsafe & Hcnt & _).
    rewrite <- surjective_pairing in Hsafe.
    assert (Hm : ∀ q, mineAt g' q = mineAt g1 q).
    { intros q. change (mineAt g1 q) with (mineAt (startTimer (set_firstClick false g1)) q).
      apply sameButRevealed_holds; [done|apply Hro]. }
    assert (Hpos : allPos g' = allPos g1).
    { unfold allPos. by rewrite (ro_rows _ _ Hro), (ro_cols _ _ Hro). }
    split; [by rewrite Hm, Hsafe|]. split.
    + assert (Hz : countCells mine g = 0) by (by apply countCells_resetGameTo).
      change (mineCount g) with (d_mines d) in Hcnt.
      rewrite Hz, (countCells_positions mine g1 Hwf1) in Hcnt.
      rewrite Hpos.
      rewrite (list_filter_iff _ (fun q => holdsAt mine g1 q = true)); [lia|].
      intros q. rewrite Hm. fold (mineAt g1 q). split.
      * by intros [_ ?].
      * intros Hq. split; [|done]. intros ->. rewrite Hsafe, Hfree in Hq. done.
    + rewrite length_filter_ne.
      * rewrite length_allPos_grid, (ro_rows _ _ Hro), (ro_cols _ _ Hro). simpl.
        destruct Hsh as (-> & -> & _). done.
      * apply NoDup_allPos.
      * apply elem_of_allPos. unfold inBounds.
        rewrite (ro_rows _ _ Hro), (ro_cols _ _ Hro). simpl.
        destruct Hsh as (-> & -> & _). done.
Qed.

(** C1 on the board of the script: nine by nine, ten mines, first reveal at
    [(4, 4)]. *)
Lemma first_reveal_safe_and_mined_witness :
  ∃ g', onCellClick cornerPicks (4, 4) (resetGame initialGame) = Done g' ∧
        mineAt g' (4, 4) = false ∧
        Z.of_nat (length (filter (fun q => q ≠ (4, 4) ∧ mineAt g' q = true) (allPos g')))
        = 10%Z.
Proof.
  destruct (first_reveal_safe_and_mined beginner initialGame cornerPicks (4, 4))
    as [Hdone Hres].
  - simpl. lia.
  - unfold inBounds. simpl. lia.
  - unfold cornerPicks.
    repeat (constructor; [unfold inBounds; simpl; lia|]). constructor.
  - destruct Hdone as [g' Hg']; [vm_compute; discriminate|].
    exists g'. split; [exact Hg'|].
    destruct (Hres g' Hg') as (H1 & H2 & _). split; [exact H1|exact H2].
Defined.

(** C2. After mine placement completes, the stored count of every cell
    without a mine is the number of positions of the grid, a king move away,
    that hold a mine; it is at most 8. *)
Theorem adjacency_counts_exact picks r0 c0 g g' :
  wellFormed g → placeMines picks r0 c0 g = Done g' →
  ∀ q c, getCell g' q = Some c → mine c = false →
         adjacent c = neighbourMines g' q ∧ adjacent c ≤ 8.
Proof.
  intros Hwf Hrun q c Hq Hm.
  destruct (placeMines_spec _ _ _ _ _ Hwf Hrun) as (Hwf' & Hsh & _ & _ & _ & Hcells).
  assert (inBounds g q) as Hb.
  { assert (inBounds g' q) as [Hr Hc] by (apply wellFormed_inBounds; by rewrite ?Hq).
    destruct Hsh as (Hc' & Hr' & _). split; congruence. }
  destruct (wellFormed_getCell g q Hwf Hb) as [c0' Hq0].
  destruct (Hcells q c0' Hq0) as (c' & Hq' & _ & _ & _ & _ & Hadj).
  rewrite Hq in Hq'. injection Hq' as <-.
  rewrite (Hadj Hm). split; [done|apply neighbourMines_le].
Qed.

Lemma adjacency_counts_exact_witness :
  ∃ g' c, placeMines cornerPicks 0 0 (resetGame initialGame) = Done g' ∧
          getCell g' (0, 0) = Some c ∧
          adjacent c = neighbourMines g' (0, 0) ∧ adjacent c = 3.
Proof.
  destruct (placeMines cornerPicks 0 0 (resetGame initialGame)) as [g'| |] eqn:Hrun;
    [|vm_compute in Hrun; discriminate..].
  destruct (getCell g' (0, 0)) as [c|] eqn:Hc.
  2:{ exfalso. revert Hc. vm_compute in Hrun. injection Hrun as <-.
      vm_compute. discriminate. }
  exists g', c. split; [reflexivity|]. split; [exact Hc|].
  assert (Hm : mine c = false ∧ adjacent c = 3).
  { revert Hc. vm_compute in Hrun. injection Hrun as <-. vm_compute.
    intros [= <-]. split; reflexivity. }
  destruct Hm as [Hm H3].
  assert (Hwf : wellFormed (resetGame initialGame)) by (vm_compute; reflexivity).
  destruct (adjacency_counts_exact cornerPicks 0 0 (resetGame initialGame) g'
              Hwf Hrun (0, 0) c Hc Hm) as [Hadj _].
  split; [exact Hadj|exact H3].
Defined.

(** C3, as amended.  Started at any cell [start] of a well-formed board,
    flood fill completes, and the cells it reveals are exactly the covered,
    unflagged, mine-free neighbours of the region that [start] reaches
    through covered, unflagged, mine-free cells with adjacency zero; nothing
    else changes in any cell, the counter grows by the number of cells
    revealed, and no mine is revealed. *)
Theorem flood_reveals_unflagged_region g start :
  wellFormed g → inBounds g start →
  ∃ g', floodReveal start g = Done g' ∧
        sameButRevealed g g' ∧
        (∀ q, holdsAt revealed g' q = true ↔
              holdsAt revealed g q = true ∨ floodRevealed g start q) ∧
        (∀ q, mineAt g q = true → holdsAt revealed g' q = holdsAt revealed g q) ∧
        (revealedCount g' - revealedCount g =
         Z.of_nat (countCells revealed g') - Z.of_nat (countCells revealed g))%Z.
Proof.
  intros Hwf Hs.
  destruct (floodReveal_spec g start Hwf Hs) as (g' & Hrun & _ & [_ Hcells] & Hiff & Hcnt).
  exists g'. split; [done|]. split; [done|]. split; [done|]. split; [|lia].
  intros q Hm. destruct (holdsAt revealed g q) eqn:E.
  - apply Hiff. by left.
  - destruct (holdsAt revealed g' q) eqn:E'; [|done].
    apply Hiff in E' as [E'|(_ & _ & _ & He)]; [congruence|].
    unfold eligible, mineAt, holdsAt, coveredSafe in *.
    destruct (getCell g q); [|done]. rewrite Hm in He.
    by rewrite andb_false_r in He.
Qed.

Lemma flood_reveals_unflagged_region_witness :
  ∃ g', floodReveal (4, 4) floodEntry = Done g' ∧
        holdsAt revealed g' (1, 1) = holdsAt revealed floodEntry (1, 1).
Proof.
  assert (Hwf : wellFormed floodEntry) by (vm_compute; reflexivity).
  assert (Hs : inBounds floodEntry (4, 4)) by (split; vm_compute; lia).
  destruct (flood_reveals_unflagged_region floodEntry (4, 4) Hwf Hs)
    as (g' & Hrun & _ & _ & Hmines & _).
  exists g'. split; [exact Hrun|]. apply Hmines. vm_compute. reflexivity.
Defined.

(** C3 fails as stated: in [floodEntry] the start cell [(4, 4)] has adjacency
    zero and so has its neighbour [(4, 5)], which therefore belongs to the
    component of zero-adjacency cells of the start; it carries a flag, and
    flood fill leaves it covered. *)
Lemma flood_skips_flagged_cell :
  run [ResetClick; Click cornerPicks (0, 0); RightClick (4, 5)] initialGame
    = Done flaggedGame ∧
  holdsAt (fun c => adjacent c =? 0) floodEntry (4, 4) = true ∧
  componentWithBorder floodEntry (4, 4) (4, 5) ∧
  revealCell [] (4, 4) flaggedGame = floodReveal (4, 4) floodEntry ∧
  ∃ g', floodReveal (4, 4) floodEntry = Done g' ∧
        holdsAt revealed g' (4, 5) = false.
Proof.
  split; [by vm_compute|]. split; [by vm_compute|]. split; [|split].
  - left. apply (component_step _ _ (4, 4)); [constructor| |by vm_compute].
    apply (bool_decide_unpack _). by vm_compute.
  - by vm_compute.
  - eexists. split; [by vm_compute|]. by vm_compute.
Qed.

(** C4, as amended.  A click that brings [revealedCount] to
    [rows * cols - mineCount] without hitting a mine leaves the game won; and
    once the game is won or lost, every click, right click, key press and
    long press on a cell completes and changes nothing, neither a cell nor a
    counter.  The test of [gameOver] is in these four handlers, not in
    [revealCell] and [toggleFlag] themselves. *)
Theorem win_detected_and_terminal picks e g g' :
  wellFormed g → onCellClick picks e g = Done g' →
  (revealedCount g ≠ totalSafe g → revealedCount g' = totalSafe g' →
   mineAt g' e = false → phase g' = Won) ∧
  (phase g' = Won ∨ phase g' = Lost →
   ∀ key picks' e', inBounds g' e' →
     onCellClick picks' e' g' = Done g' ∧ onCellRightClick e' g' = Done g' ∧
     onCellKeyDown key picks' e' g' = Done g' ∧ onLongPress e' g' = Done g').
Proof.
  intros Hwf Hrun. split.
  - intros Hbefore Hafter Hsafe.
    destruct (onCellClick_cases picks e g g' Hwf Hrun)
      as [->|(g1 & c1 & Hwf1 & Hgo1 & Hfc1 & Hgo & Hts & Hc1 & Hr1 & Hf1 & Hrev)].
    { congruence. }
    destruct (revealCell_later picks e g1 c1 Hwf1 Hfc1 Hc1 Hr1 Hf1)
      as (g'' & Hrun' & Hro & _ & Hphase & _).
    rewrite Hrev in Hrun'. injection Hrun' as <-.
    assert (Hm : mine c1 = false).
    { rewrite <- Hsafe. symmetry. unfold mineAt.
      rewrite (sameButRevealed_holds mine g1 g' e) by (done || apply Hro).
      unfold holdsAt. by rewrite Hc1. }
    assert (Hts' : totalSafe g' = totalSafe g1).
    { unfold totalSafe.
      by rewrite (ro_rows _ _ Hro), (ro_cols _ _ Hro), (ro_mineCount _ _ Hro). }
    rewrite Hm, Hgo1, Hafter, Hts', Z.leb_refl in Hphase. simpl in Hphase.
    destruct Hphase. by apply phase_Won.
  - intros Hover key picks' e' Hb. apply phase_over in Hover.
    apply game_over_ignores_input; [|done|done].
    by eapply onCellClick_wellFormed.
Qed.

(** C4 on the nine by nine board: the first click at [(4, 4)] floods all 71
    safe cells and wins; clicks after that change nothing. *)
Lemma win_detected_and_terminal_witness :
  let g' := stateAfter [ResetClick; Click topRowPicks (4, 4)] in
  revealedCount g' = 71%Z ∧ phase g' = Won ∧
  onCellClick [] (8, 8) g' = Done g' ∧ onCellRightClick (8, 8) g' = Done g'.
Proof.
  intros g'.
  destruct (win_detected_and_terminal topRowPicks (4, 4) (resetGame initialGame) g')
    as [Hwin Hterm]; [vm_compute; reflexivity..|].
  assert (Hw : phase g' = Won).
  { apply Hwin; vm_compute; first [reflexivity | discriminate]. }
  split; [vm_compute; reflexivity|]. split; [exact Hw|].
  destruct (Hterm (or_introl Hw) RevealKey [] (8, 8)) as (H1 & H2 & _).
  - split; vm_compute; lia.
  - split; [exact H1|exact H2].
Defined.

(** C4 fails as stated: [revealCell] and [toggleFlag], which the script
    exports, do not look at [gameOver].  After the first click of
    [cornerPicks] and a click on the mine at [(1, 0)] the game is lost; a
    call of [toggleFlag] on [(4, 4)] then flags that cell and raises
    [flagsPlaced], a call of [revealCell] on [(2, 2)] reveals that cell and
    raises [revealedCount], and the game stays lost. *)
Lemma exported_calls_change_lost_game :
  let cmds := [ResetClick; Click cornerPicks (0, 0); Click [] (1, 0)] in
  let g := stateAfter cmds in
  let g1 := stateAfter (cmds ++ [CallToggle (4, 4)]) in
  let g2 := stateAfter (cmds ++ [CallReveal [] (2, 2)]) in
  run cmds initialGame = Done g ∧ phase g = Lost ∧
  perform (CallToggle (4, 4)) g = Done g1 ∧ toggleFlag (4, 4) g = Done g1 ∧
  holdsAt flagged g (4, 4) = false ∧ holdsAt flagged g1 (4, 4) = true ∧
  flagsPlaced g = 0%Z ∧ flagsPlaced g1 = 1%Z ∧ phase g1 = Lost ∧
  perform (CallReveal [] (2, 2)) g = Done g2 ∧ revealCell [] (2, 2) g = Done g2 ∧
  holdsAt revealed g (2, 2) = false ∧ holdsAt revealed g2 (2, 2) = true ∧
  revealedCount g = 2%Z ∧ revealedCount g2 = 3%Z ∧ phase g2 = Lost.
Proof. by vm_compute. Qed.

(** C5, as amended.  In every game in progress that a run of commands
    reaches from a reset, a click on an unflagged cell that holds a mine
    completes and leaves the game lost, however many safe cells are still
    covered. *)
Theorem reveal_unflagged_mine_loses cmds g0 g picks e :
  run cmds (resetGame g0) = Done g →
  phase g = InProgress → mineAt g e = true → holdsAt flagged g e = false →
  ∃ g', onCellClick picks e g = Done g' ∧ phase g' = Lost.
Proof.
  intros Hreach Hphase Hmine Hflag.
  pose proof (run_inv cmds _ _ (resetGameTo_inv beginner g0) Hreach) as Hinv.
  assert (gameOver g = false ∧ firstClick g = false) as [Hgo Hfc].
  { unfold phase in Hphase. destruct (gameOver g), (banner g), (firstClick g); done. }
  apply holdsAt_true in Hmine as (cell & Hcell & Hm).
  assert (Hf : flagged cell = false).
  { unfold holdsAt in Hflag. by rewrite Hcell in Hflag. }
  assert (Hr : revealed cell = false).
  { destruct (revealed cell) eqn:E; [|done].
    rewrite <- Hgo. symmetry. apply (inv_mines g Hinv e).
    - unfold holdsAt. by rewrite Hcell.
    - unfold mineAt, holdsAt. by rewrite Hcell. }
  destruct (revealCell_later picks e g cell (inv_wf g Hinv) Hfc Hcell Hr Hf)
    as (g' & Hrun & _ & _ & Hend & _).
  rewrite Hm in Hend. destruct Hend as [Hgo' Hb'].
  exists g'. split; [|by apply phase_Lost].
  unfold onCellClick. rewrite (getCell_getCellFromEvent g e cell Hcell). simpl.
  by rewrite Hgo, Hf.
Qed.

Lemma reveal_unflagged_mine_loses_witness :
  ∃ g', onCellClick [] (1, 0) (stateAfter [ResetClick; Click cornerPicks (0, 0)]) = Done g' ∧
        phase g' = Lost.
Proof.
  apply (reveal_unflagged_mine_loses [Click cornerPicks (0, 0)] initialGame
           (stateAfter [ResetClick; Click cornerPicks (0, 0)]) [] (1, 0));
    vm_compute; reflexivity.
Defined.

(** C5 fails as stated: after the first click of [cornerPicks] and a flag on
    the mine at [(0, 1)], the game is in progress and a click on that mine
    changes nothing; the game stays in progress. *)
Lemma reveal_flagged_mine_keeps_playing :
  let g := stateAfter [ResetClick; Click cornerPicks (0, 0); RightClick (0, 1)] in
  run [ResetClick; Click cornerPicks (0, 0); RightClick (0, 1)] initialGame = Done g ∧
  phase g = InProgress ∧ mineAt g (0, 1) = true ∧
  onCellClick [] (0, 1) g = Done g ∧ revealCell [] (0, 1) g = Done g.
Proof. by vm_compute. Qed.

(** C6, as amended.  In every game that a run of commands reaches from a
    reset, a cell that is both revealed and flagged holds a mine and the game
    is over: while the game is not over no cell is both, and the exposure of
    the mines at the end reveals the mines the player had flagged. *)
Theorem revealed_and_flagged_only_exposed_mines cmds g0 g :
  run cmds (resetGame g0) = Done g →
  ∀ q, holdsAt revealed g q = true → holdsAt flagged g q = true →
       mineAt g q = true ∧ gameOver g = true.
Proof.
  intros Hreach.
  apply (inv_both g (run_inv cmds _ _ (resetGameTo_inv beginner g0) Hreach)).
Qed.

Lemma revealed_and_flagged_only_exposed_mines_witness :
  let g := stateAfter [ResetClick; Click cornerPicks (0, 0); RightClick (0, 1);
                       Click [] (1, 0)] in
  mineAt g (0, 1) = true ∧ gameOver g = true.
Proof.
  apply (revealed_and_flagged_only_exposed_mines
           [Click cornerPicks (0, 0); RightClick (0, 1); Click [] (1, 0)] initialGame);
    vm_compute; reflexivity.
Defined.

(** C6 fails as stated: flag the mine at [(0, 1)], then click the mine at
    [(1, 0)]; the exposure of the mines at the end of the game reveals
    [(0, 1)], which keeps its flag. *)
Lemma exposed_mine_keeps_flag :
  let g := stateAfter [ResetClick; Click cornerPicks (0, 0); RightClick (0, 1);
                       Click [] (1, 0)] in
  run [ResetClick; Click cornerPicks (0, 0); RightClick (0, 1); Click [] (1, 0)]
      initialGame = Done g ∧
  phase g = Lost ∧
  holdsAt revealed g (0, 1) = true ∧ holdsAt flagged g (0, 1) = true.
Proof. by vm_compute. Qed.

(** C7. After any run of commands from a reset, and so after any sequence of
    flag toggles on a freshly reset board, [flagsPlaced] is the number of
    cells whose [flagged] is true. *)
Theorem flag_count_invariant cmds g0 g :
  run cmds (resetGame g0) = Done g →
  flagsPlaced g = Z.of_nat (countCells flagged g) ∧
  flagsPlaced g =
  Z.of_nat (length (filter (fun q => holdsAt flagged g q = true) (allPos g))).
Proof.
  intros Hreach.
  pose proof (run_inv cmds _ _ (resetGameTo_inv beginner g0) Hreach) as Hinv.
  split; [apply Hinv|].
  rewrite <- countCells_positions by apply Hinv. apply Hinv.
Qed.

Lemma flag_count_invariant_witness :
  let g := stateAfter [ResetClick; RightClick (0, 0); CallToggle (3, 4);
                       RightClick (0, 0); RightClick (8, 8)] in
  flagsPlaced g = 2%Z ∧ countCells flagged g = 2.
Proof.
  destruct (flag_count_invariant
              [RightClick (0, 0); CallToggle (3, 4); RightClick (0, 0); RightClick (8, 8)]
              initialGame
              (stateAfter [ResetClick; RightClick (0, 0); CallToggle (3, 4);
                           RightClick (0, 0); RightClick (8, 8)]))
    as [H _]; [vm_compute; reflexivity|].
  split; vm_compute; reflexivity.
Defined.



(** C9, as amended.  [reset] takes no configuration into account and never
    fails: whatever it is given and whatever the game, it completes with the
    same game, nine by nine with ten mines to place, every cell covered,
    unflagged and without a mine, both counters zero, not started. *)
Theorem reset_always_beginner config g :
  reset config g = Done (resetGame initialGame) ∧
  rows (resetGame initialGame) = 9 ∧ cols (resetGame initialGame) = 9 ∧
  mineCount (resetGame initialGame) = 10%Z ∧
  flagsPlaced (resetGame initialGame) = 0%Z ∧
  revealedCount (resetGame initialGame) = 0%Z ∧
  phase (resetGame initialGame) = NotStarted ∧
  ∀ q, getCell (resetGame initialGame) q =
       if decide (q.1 < 9 ∧ q.2 < 9) then Some (emptyCell q.1 q.2) else None.
Proof.
  split; [unfold reset; by rewrite resetGame_const|]. repeat split; try done.
  intros q. unfold resetGame, resetGameTo. by rewrite getCell_createEmptyBoard.
Qed.

(** C9 fails as stated: with zero rows, zero columns and a negative number of
    mines, [reset] completes, and it replaces a game that had one flag. *)
Lemma reset_accepts_invalid_config :
  let g := stateAfter [ResetClick; RightClick (0, 0)] in
  run [ResetClick; RightClick (0, 0)] initialGame = Done g ∧
  ∃ g', reset (mkDifficulty 0 0 (-1)) g = Done g' ∧
        flagsPlaced g = 1%Z ∧ flagsPlaced g' = 0%Z ∧ rows g' = 9 ∧ g' ≠ g.
Proof.
  split; [by vm_compute|]. eexists. split; [reflexivity|].
  split; [by vm_compute|]. split; [by vm_compute|]. split; [by vm_compute|].
  intros H. apply (f_equal flagsPlaced) in H. vm_compute in H. discriminate.
Qed.

(** C10. On a covered cell two toggles in a row, through calls of
    [toggleFlag] or through right clicks, give back the very same game; the
    first of them flips the flag of the cell. *)
Theorem toggleFlag_involution p g cell :
  getCell g p = Some cell → revealed cell = false →
  (∃ g1, toggleFlag p g = Done g1 ∧
         getCell g1 p = Some (set_flagged (negb (flagged cell)) cell) ∧
         toggleFlag p g1 = Done g) ∧
  (∃ g1, onCellRightClick p g = Done g1 ∧ onCellRightClick p g1 = Done g).
Proof.
  intros Hp Hr.
  destruct (toggleFlag_twice p g cell Hp Hr) as (g1 & H1 & Hp1 & H2).
  split; [by exists g1|].
  unfold onCellRightClick at 1. rewrite (getCell_getCellFromEvent g p cell Hp). simpl.
  destruct (gameOver g) eqn:Hgo.
  - exists g. split; [done|].
    unfold onCellRightClick. rewrite (getCell_getCellFromEvent g p cell Hp). simpl.
    by rewrite Hgo.
  - rewrite Hr. exists g1. split; [done|].
    unfold onCellRightClick. rewrite (getCell_getCellFromEvent g1 p _ Hp1). simpl.
    assert (gameOver g1 = false) as ->.
    { rewrite (toggleFlag_covered p g cell Hp Hr) in H1. by injection H1 as <-. }
    by rewrite Hr.
Qed.

Lemma toggleFlag_involution_witness :
  let g := stateAfter [ResetClick; Click cornerPicks (0, 0); RightClick (4, 5)] in
  ∃ g1, onCellRightClick (0, 1) g = Done g1 ∧ onCellRightClick (0, 1) g1 = Done g.
Proof.
  apply (toggleFlag_involution (0, 1)
           (stateAfter [ResetClick; Click cornerPicks (0, 0); RightClick (4, 5)])
           (mkCell 0 1 true 0 false false)); vm_compute; reflexivity.
Defined.

(** * Further results: the rest of the script *)

(** ** Neighbours *)

Section Neighbours.
Implicit Types (g : Game) (p q n : Pos).

Lemma kingMove_sym p q : kingMove p q → kingMove q p.
Proof. unfold kingMove. intros (Hne & ? & ? & ? & ?). repeat split; try done. Qed.

Lemma length_getNeighbors_exact g r c :
  r < rows g → c < cols g →
  length (getNeighbors g r c) = span r (rows g) * span c (cols g) - 1.
Proof.
  intros Hr Hc. unfold getNeighbors, span. simpl. rewrite !length_app. simpl.
  assert (∀ x : nat, (0 <=? Z.of_nat x + 0)%Z = true) as E1
    by (intros; apply Z.leb_le; lia).
  assert (∀ x : nat, (0 <=? Z.of_nat x + 1)%Z = true) as E2
    by (intros; apply Z.leb_le; lia).
  assert (∀ x y : nat, x < y → (Z.of_nat x + 0 <? Z.of_nat y)%Z = true) as E3
    by (intros; apply Z.ltb_lt; lia).
  assert (∀ x y : nat, x < y → (Z.of_nat x + -1 <? Z.of_nat y)%Z = true) as E4
    by (intros; apply Z.ltb_lt; lia).
  rewrite !E1, !E2, !(E3 r), !(E3 c), !(E4 r), !(E4 c) by done.
  destruct (0 <=? Z.of_nat r + -1)%Z eqn:A, (Z.of_nat r + 1 <? Z.of_nat (rows g))%Z eqn:B,
           (0 <=? Z.of_nat c + -1)%Z eqn:C, (Z.of_nat c + 1 <? Z.of_nat (cols g))%Z eqn:D;
    first [apply Z.leb_le in A | apply Z.leb_gt in A];
    first [apply Z.ltb_lt in B | apply Z.ltb_ge in B];
    first [apply Z.leb_le in C | apply Z.leb_gt in C];
    first [apply Z.ltb_lt in D | apply Z.ltb_ge in D];
    repeat case_decide; simpl; lia.
Qed.

End Neighbours.

(** ** Displays and keyboard navigation *)

Section Displays.
Implicit Types (g : Game) (n : Z).

Lemma length_formatNumber n : length (formatNumber n) = 3.
Proof.
  unfold formatNumber, sliceLast, padStart.
  rewrite length_drop, !length_app, !length_replicate. lia.
Qed.

Lemma formatNumber_digits n :
  (0 ≤ n ≤ 999)%Z →
  formatNumber n = [digitChar (n / 100); digitChar (n / 10 mod 10); digitChar (n mod 10)].
Proof.
  intros Hn.
  assert (Hall : forallb (fun k : nat =>
            bool_decide (formatNumber (Z.of_nat k) =
                         [digitChar (Z.of_nat k / 100); digitChar (Z.of_nat k / 10 mod 10);
                          digitChar (Z.of_nat k mod 10)])) (seq 0 1000) = true)
    by (vm_compute; reflexivity).
  rewrite forallb_forall in Hall. specialize (Hall (Z.to_nat n)).
  rewrite Z2Nat.id in Hall by lia. apply bool_decide_eq_true in Hall; [done|].
  apply in_seq. lia.
Qed.

Lemma boardAt_inBounds g (r c : Z) cell :
  wellFormed g → boardAt g r c = Some cell →
  (0 ≤ r < Z.of_nat (rows g))%Z ∧ (0 ≤ c < Z.of_nat (cols g))%Z ∧
  row cell = Z.to_nat r ∧ col cell = Z.to_nat c.
Proof.
  intros Hwf. unfold boardAt. destruct (_ && _)%Z eqn:E; [|done].
  apply andb_true_iff in E as [Hr%Z.leb_le Hc%Z.leb_le]. intros Hcell.
  destruct (wellFormed_rowcol g _ cell Hwf Hcell) as [-> ->].
  assert (inBounds g (Z.to_nat r, Z.to_nat c)) as [? ?].
  { apply wellFormed_inBounds; [done|]. by rewrite Hcell. }
  simpl in *. repeat split; lia.
Qed.

Lemma boardAt_Some g (r c : Z) :
  wellFormed g → (0 ≤ r < Z.of_nat (rows g))%Z → (0 ≤ c < Z.of_nat (cols g))%Z →
  ∃ cell, boardAt g r c = Some cell.
Proof.
  intros Hwf Hr Hc. unfold boardAt.
  assert ((0 <=? r)%Z && (0 <=? c)%Z = true) as ->.
  { apply andb_true_iff. split; apply Z.leb_le; lia. }
  apply wellFormed_getCell; [done|]. split; simpl; lia.
Qed.

End Displays.

(** ** Counters, timer and exposure along a reveal *)

Section Counters.
Implicit Types (g : Game) (p q : Pos) (picks : list Pos).

Lemma cnt_split (P Q : Cell → bool) (l : list Cell) :
  cnt P l = cnt (fun c => P c && negb (Q c)) l + cnt (fun c => P c && Q c) l.
Proof.
  induction l as [|x l IH]; [done|]. rewrite !cnt_cons, IH.
  destruct (P x), (Q x); simpl; lia.
Qed.

Lemma countCells_ext P Q g g' :
  wellFormed g → wellFormed g' → rows g' = rows g → cols g' = cols g →
  (∀ q, holdsAt P g' q = holdsAt Q g q) → countCells P g' = countCells Q g.
Proof.
  intros Hwf Hwf' Hr Hc H. rewrite !countCells_positions by done.
  unfold allPos. rewrite Hr, Hc. f_equal. apply list_filter_iff.
  intros q. by rewrite H.
Qed.

Lemma countCells_all P g :
  wellFormed g → countCells P g = rows g * cols g →
  ∀ q c, getCell g q = Some c → P c = true.
Proof.
  intros Hwf Hcount q c Hq.
  destruct (P c) eqn:E; [done|]. exfalso.
  rewrite countCells_positions in Hcount by done.
  rewrite <- length_allPos_grid in Hcount.
  assert (length (filter (fun q => holdsAt P g q = true) (allPos g)) < length (allPos g));
    [|lia].
  apply (length_filter_lt _ _ q).
  - apply elem_of_allPos, wellFormed_inBounds; [done|]. by rewrite Hq.
  - unfold holdsAt. rewrite Hq. congruence.
Qed.

Lemma countCells_total P g :
  wellFormed g →
  countCells P g + countCells (fun c => negb (P c)) g = rows g * cols g.
Proof.
  intros Hwf. rewrite <- length_allPos_grid, (allPos_cells g Hwf), length_map.
  unfold countCells. induction (concat (board g)) as [|x l IH]; [done|].
  rewrite !cnt_cons. simpl. destruct (P x); simpl; lia.
Qed.

(** [endGame], with the timer and the counters. *)
Lemma endGame_full win g :
  wellFormed g →
  ∃ g', endGame win g = Done g' ∧ wellFormed g' ∧
        timerRunning g' = false ∧ timeElapsed g' = timeElapsed g ∧
        revealedCount g' = revealedCount g ∧
        rows g' = rows g ∧ cols g' = cols g ∧
        (∀ q, holdsAt revealed g' q = holdsAt revealed g q || mineAt g q) ∧
        safeRevealed g' = safeRevealed g.
Proof.
  intros Hwf. unfold endGame, revealAllMines.
  set (g1 := set_banner (if win then WinBanner else LoseBanner)
               (stopTimer (set_gameOver true g))).
  assert (Hwf1 : wellFormed g1) by done.
  destruct (forEach_exposeMine g1 Hwf1) as (g' & Hrun & Hwf' & Hsh & Hcells).
  exists g'. split.
  { destruct win; exact Hrun. }
  change (getCell g1) with (getCell g) in Hcells.
  destruct Hsh as (Hc & Hr & _ & _ & _ & _ & Hrc & Htr & Hte & _).
  repeat split; try done.
  - intros q. unfold mineAt, holdsAt. rewrite Hcells.
    destruct (getCell g q) as [c|]; simpl; [|done].
    destruct c as [? ? [] ? [] ?]; done.
  - apply countCells_ext; try done. intros q. unfold holdsAt. rewrite Hcells.
    destruct (getCell g q) as [c|]; simpl; [|done].
    destruct c as [? ? [] ? [] ?]; done.
Qed.

(** [floodReveal], with the count of revealed cells without a mine. *)
Lemma floodReveal_full g start :
  wellFormed g → inBounds g start →
  ∃ g', floodReveal start g = Done g' ∧ wellFormed g' ∧ onlyRevealed g g' ∧
        (∀ q, holdsAt revealed g' q = true ↔
              holdsAt revealed g q = true ∨ floodRevealed g start q) ∧
        (revealedCount g' - Z.of_nat (safeRevealed g') =
         revealedCount g - Z.of_nat (safeRevealed g))%Z.
Proof.
  intros Hwf Hs.
  destruct (floodReveal_spec g start Hwf Hs)
    as (g' & Hrun & Hwf' & Honly & Hiff & Hcnt).
  exists g'. split; [done|]. split; [done|]. split; [done|]. split; [done|].
  destruct Honly as [(Hc & Hr & _) Hcells].
  assert (Hm : countCells (fun c => revealed c && mine c) g' =
               countCells (fun c => revealed c && mine c) g).
  { apply countCells_ext; try done. intros q.
    destruct (holdsAt (fun c => revealed c && mine c) g q) eqn:E.
    - apply holdsAt_true in E as (c & Hq & [Hrc Hmc]%andb_true_iff).
      assert (Hrev : holdsAt revealed g' q = true).
      { apply Hiff. left. unfold holdsAt. by rewrite Hq. }
      unfold holdsAt in *. rewrite Hcells, Hq in *. simpl in *. by rewrite Hrev, Hmc.
    - destruct (holdsAt _ g' q) eqn:E'; [|done].
      apply holdsAt_true in E' as (c' & Hq' & [Hrc Hmc]%andb_true_iff).
      rewrite Hcells in Hq'. destruct (getCell g q) as [c|] eqn:Hq; [|done].
      injection Hq' as <-. simpl in *.
      assert (Hrev : holdsAt revealed g' q = true) by done.
      apply Hiff in Hrev as [Hrev|(_ & _ & _ & He)].
      + unfold holdsAt in E, Hrev. rewrite Hq in E, Hrev. by rewrite Hrev, Hmc in E.
      + unfold eligible, holdsAt, coveredSafe in He. rewrite Hq in He.
        rewrite Hmc in He. by rewrite andb_false_r in He. }
  unfold countCells in *. unfold safeRevealed, countCells.
  rewrite (cnt_split revealed mine (concat (board g'))) in Hcnt.
  rewrite (cnt_split revealed mine (concat (board g))) in Hcnt. lia.
Qed.

(** The later reveal once more, with what [revealCell_later] leaves out: the
    timer, the exposure of the mines, the counter against the number of
    revealed cells without a mine, and the case of a cell with a number. *)
Lemma revealCell_later_full picks p g cell :
  wellFormed g → firstClick g = false →
  getCell g p = Some cell → revealed cell = false → flagged cell = false →
  ∃ g', revealCell picks p g = Done g' ∧
        timeElapsed g' = timeElapsed g ∧
        timerRunning g' =
          (if mine cell || ((totalSafe g <=? revealedCount g')%Z && negb (gameOver g))
           then false else timerRunning g) ∧
        (mine cell || ((totalSafe g <=? revealedCount g')%Z && negb (gameOver g)) = true →
         ∀ q, mineAt g q = true → holdsAt revealed g' q = true) ∧
        (revealedCount g' - Z.of_nat (safeRevealed g') =
         revealedCount g - Z.of_nat (safeRevealed g) + (if mine cell then 1 else 0))%Z ∧
        (mine cell = false → 0 < adjacent cell →
         revealedCount g' = (revealedCount g + 1)%Z ∧
         ∀ q, q ≠ p → mineAt g q = false →
              holdsAt revealed g' q = holdsAt revealed g q).
Proof.
  intros Hwf Hfc Hp Hr Hf.
  unfold revealCell, deref. rewrite Hp. simpl. rewrite Hr, Hf, Hfc. simpl.
  set (g3 := set_revealedCount _ (updCell p (set_revealed true) g)).
  assert (Hget : ∀ q, getCell g3 q =
                      if decide (q = p) then Some (set_revealed true cell) else getCell g q).
  { intros q. unfold g3. change (getCell (set_revealedCount _ ?h) q) with (getCell h q).
    rewrite getCell_updCell. case_decide; [by rewrite Hp|done]. }
  assert (Hrev3 : ∀ q, holdsAt revealed g3 q =
                       if decide (q = p) then true else holdsAt revealed g q).
  { intros q. unfold holdsAt. rewrite Hget. by case_decide. }
  assert (Hmine3 : ∀ q, mineAt g3 q = mineAt g q).
  { intros q. unfold mineAt, holdsAt. rewrite Hget. case_decide; [subst q|done].
    by rewrite Hp. }
  assert (Hwf3 : wellFormed g3).
  { apply (wellFormed_shell (updCell p (set_revealed true) g)); try done.
    by apply wellFormed_updCell. }
  assert (Hsr3 : safeRevealed g3 = safeRevealed g + (if mine cell then 0 else 1)).
  { pose proof (countCells_updCell (fun c => revealed c && negb (mine c)) p
                  (set_revealed true) g cell Hp) as Hc.
    simpl in Hc. rewrite Hr in Hc. simpl in Hc. unfold safeRevealed.
    change (countCells ?P g3) with (countCells P (updCell p (set_revealed true) g)).
    destruct (mine cell); simpl in Hc; lia. }
  assert (Hrc3 : revealedCount g3 = (revealedCount g + 1)%Z) by done.
  rewrite Hget. rewrite decide_True by done. simpl.
  destruct (mine cell) eqn:Hm; simpl.
  - destruct (endGame_full false g3 Hwf3)
      as (g' & Hrun & _ & Htr & Hte & Hrc & _ & _ & Hrev & Hsr).
    exists g'. split; [done|]. split; [done|]. split; [done|]. split; [|split; [|done]].
    + intros _ q Hq. rewrite Hrev, Hmine3, Hq. apply orb_true_r.
    + rewrite Hrc, Hsr, Hsr3, Hrc3. lia.
  - assert (∃ g4, (if adjacent cell =? 0 then floodReveal p g3 else Done g3) = Done g4 ∧
                  wellFormed g4 ∧ onlyRevealed g3 g4 ∧
                  (revealedCount g4 - Z.of_nat (safeRevealed g4) =
                   revealedCount g3 - Z.of_nat (safeRevealed g3))%Z ∧
                  (0 < adjacent cell → g4 = g3))
      as (g4 & Hrun4 & Hwf4 & [Hsh Hcells] & Hcnt4 & Hnum).
    { destruct (adjacent cell =? 0) eqn:Eadj.
      - destruct (floodReveal_full g3 p Hwf3) as (g4 & Hrun & Hwf4 & Honly & _ & Hcnt).
        { apply wellFormed_inBounds; [done|]. by rewrite Hget, decide_True. }
        exists g4. repeat split; try done; try apply Honly.
        apply Nat.eqb_eq in Eadj. lia.
      - exists g3. repeat split; try done. apply onlyRevealed_refl. }
    rewrite Hrun4. simpl.
    destruct Hsh as (Hc4 & Hr4 & Hmc4 & _ & _ & Hgo4 & _ & Htr4 & Hte4 & _).
    simpl in Hc4, Hr4, Hmc4, Hgo4, Htr4, Hte4.
    assert (Hmine4 : ∀ q, mineAt g4 q = mineAt g q).
    { intros q. rewrite <- Hmine3. by apply sameButRevealed_holds. }
    unfold checkWin, totalSafe. rewrite Hr4, Hc4, Hmc4, Hgo4. fold (totalSafe g).
    destruct (_ && _) eqn:Ewin.
    + destruct (endGame_full true g4 Hwf4)
        as (g' & Hrun & _ & Htr & Hte & Hrc & _ & _ & Hrev & Hsr).
      exists g'. split; [done|]. rewrite Hrc, Ewin.
      split; [congruence|]. split; [done|]. split; [|split].
      * intros _ q Hq. rewrite Hrev, Hmine4, Hq. apply orb_true_r.
      * rewrite Hsr, Hcnt4, Hsr3, Hrc3. lia.
      * intros _ Hadj. rewrite (Hnum Hadj). split; [done|].
        intros q Hne Hq. rewrite Hrev, (Hnum Hadj), Hmine3, Hq, Hrev3.
        rewrite decide_False by done. apply orb_false_r.
    + exists g4. split; [done|]. rewrite Ewin.
      split; [done|]. split; [done|]. split; [done|]. split.
      * rewrite Hcnt4, Hsr3, Hrc3. lia.
      * intros _ Hadj. rewrite (Hnum Hadj). split; [done|].
        intros q Hne Hq. rewrite Hrev3. by rewrite decide_False.
Qed.

End Counters.

(** ** What commands and ticks keep *)

Section Play.
Implicit Types (g : Game) (p q e : Pos) (picks : list Pos).

Lemma cnt_or (A B : Cell → bool) (l : list Cell) :
  (∀ c, A c && B c = false) →
  cnt (fun c => A c || B c) l = cnt A l + cnt B l.
Proof.
  intros Hd. induction l as [|x l IH]; [done|]. rewrite !cnt_cons, IH.
  specialize (Hd x). destruct (A x), (B x); simpl in *; try done; lia.
Qed.

Lemma countCells_none P g :
  wellFormed g → (∀ q, holdsAt P g q = false) → countCells P g = 0.
Proof.
  intros Hwf H. rewrite countCells_positions by done.
  rewrite filter_none; [done|]. intros q. by rewrite H.
Qed.

Lemma countCells_zero P g q :
  wellFormed g → countCells P g = 0 → holdsAt P g q = false.
Proof.
  intros Hwf H0. destruct (holdsAt P g q) eqn:E; [|done]. exfalso.
  rewrite countCells_positions in H0 by done.
  assert (Hin : q ∈ filter (fun q => holdsAt P g q = true) (allPos g)).
  { apply list_elem_of_filter. split; [done|].
    apply elem_of_allPos, wellFormed_inBounds; [done|].
    apply holdsAt_true in E as (c & -> & _). done. }
  destruct (filter _ _); [by apply elem_of_nil in Hin|done].
Qed.

(** A predicate kept by [revealCell], by [toggleFlag] and by a reset is kept
    by every command. *)
Lemma perform_preserves (I : Game → Prop) :
  (∀ picks p g g', I g → revealCell picks p g = Done g' → I g') →
  (∀ p g g', I g → toggleFlag p g = Done g' → I g') →
  (∀ g, I (resetGame g)) →
  ∀ cmd g g', I g → perform cmd g = Done g' → I g'.
Proof.
  intros Hreveal Htoggle Hreset cmd g g' HI.
  assert (Hclick : ∀ picks e, onCellClick picks e g = Done g' → I g').
  { intros picks e. unfold onCellClick.
    destruct (getCellFromEvent g e) as [[cell|]| |]; simpl; try done.
    - destruct (gameOver g); [by intros [= <-]|].
      destruct (flagged cell); [by intros [= <-]|]. by apply Hreveal.
    - by intros [= <-]. }
  assert (Hright : ∀ e, onCellRightClick e g = Done g' → I g').
  { intros e. unfold onCellRightClick.
    destruct (getCellFromEvent g e) as [[cell|]| |]; simpl; try done.
    - destruct (gameOver g); [by intros [= <-]|].
      destruct (revealed cell); [by intros [= <-]|]. by apply Htoggle.
    - by intros [= <-]. }
  destruct cmd as [picks e|e|[| |] picks e|e| |picks p|p]; simpl.
  - apply Hclick.
  - apply Hright.
  - rewrite onCellKeyDown_reveal. apply Hclick.
  - rewrite onCellKeyDown_flag. apply Hright.
  - by intros ->%onCellKeyDown_other.
  - rewrite onLongPress_rightClick. apply Hright.
  - intros [= <-]. apply Hreset.
  - by apply Hreveal.
  - by apply Htoggle.
Qed.

(** A relation between the game before and after that holds of [revealCell]
    and of [toggleFlag] holds of every command but the reset. *)
Lemma perform_relates (I : Game → Prop) (R : Game → Game → Prop) :
  (∀ g, R g g) →
  (∀ picks p g g', I g → revealCell picks p g = Done g' → R g g') →
  (∀ p g g', I g → toggleFlag p g = Done g' → R g g') →
  ∀ cmd g g', cmd ≠ ResetClick → I g → perform cmd g = Done g' → R g g'.
Proof.
  intros Hrefl Hreveal Htoggle cmd g g' Hcmd HI.
  assert (Hclick : ∀ picks e, onCellClick picks e g = Done g' → R g g').
  { intros picks e. unfold onCellClick.
    destruct (getCellFromEvent g e) as [[cell|]| |]; simpl; try done.
    - destruct (gameOver g); [by intros [= <-]|].
      destruct (flagged cell); [by intros [= <-]|]. by apply Hreveal.
    - by intros [= <-]. }
  assert (Hright : ∀ e, onCellRightClick e g = Done g' → R g g').
  { intros e. unfold onCellRightClick.
    destruct (getCellFromEvent g e) as [[cell|]| |]; simpl; try done.
    - destruct (gameOver g); [by intros [= <-]|].
      destruct (revealed cell); [by intros [= <-]|]. by apply Htoggle.
    - by intros [= <-]. }
  destruct cmd as [picks e|e|[| |] picks e|e| |picks p|p]; simpl; try done.
  - apply Hclick.
  - apply Hright.
  - rewrite onCellKeyDown_reveal. apply Hclick.
  - rewrite onCellKeyDown_flag. apply Hright.
  - by intros ->%onCellKeyDown_other.
  - rewrite onLongPress_rightClick. apply Hright.
  - by apply Hreveal.
  - by apply Htoggle.
Qed.

Lemma playInv_reset g : playInv (resetGame g).
Proof.
  assert (Hwf : wellFormed (resetGame g)) by apply wellFormed_createEmptyBoard.
  split.
  - apply resetGameTo_inv.
  - done.
  - done.
  - done.
  - done.
  - done.
  - done.
  - by apply countCells_resetGameTo.
  - intros q c Hq _.
    assert (neighbourMines (resetGame g) q = 0) as ->.
    { unfold neighbourMines. rewrite filter_none; [done|]. intros q' [_ Hq'].
      unfold mineAt, resetGame in Hq'.
      by rewrite (holdsAt_resetGameTo mine beginner g q') in Hq'. }
    unfold resetGame, resetGameTo in Hq. rewrite getCell_createEmptyBoard in Hq.
    case_decide; [|done]. by injection Hq as <-.
  - done.
  - intros _. unfold safeRevealed, resetGame.
    by rewrite (countCells_resetGameTo _ beginner g).
  - done.
  - done.
  - done.
Qed.

(** In a game that is won every cell is revealed. *)
Lemma won_all_revealed g :
  playInv g → banner g = WinBanner → ∀ q c, getCell g q = Some c → revealed c = true.
Proof.
  intros Hinv Hb q c Hq.
  assert (Hgo : gameOver g = true).
  { destruct (gameOver g) eqn:E; [done|].
    apply (pi_banner g Hinv) in E. congruence. }
  destruct (mine c) eqn:Hm.
  { assert (holdsAt revealed g q = true) as Hr.
    { apply (pi_exposed g Hinv Hgo). unfold mineAt, holdsAt. by rewrite Hq. }
    unfold holdsAt in Hr. by rewrite Hq in Hr. }
  pose proof (inv_wf g (pi_base g Hinv)) as Hwf.
  pose proof (pi_count g Hinv (or_intror Hb)) as Hcount.
  pose proof (pi_won g Hinv Hb) as Hwon.
  pose proof (pi_mines g Hinv) as Hmines.
  rewrite (pi_over g Hinv Hgo) in Hmines.
  unfold totalSafe in Hwon.
  rewrite (pi_rows g Hinv), (pi_cols g Hinv), (pi_mineCount g Hinv) in Hwon.
  assert (Hall : countCells (fun c => revealed c && negb (mine c) || mine c) g
                 = rows g * cols g).
  { pose proof (countCells_le (fun c => revealed c && negb (mine c) || mine c) g) as Hle.
    rewrite <- (length_map (fun cell => (row cell, col cell))) in Hle.
    rewrite <- (allPos_cells g Hwf), length_allPos_grid in Hle.
    unfold countCells in *. rewrite cnt_or in * by (intros []; simpl; by destruct revealed0, mine0).
    unfold safeRevealed, countCells in Hcount.
    rewrite (pi_rows g Hinv), (pi_cols g Hinv) in *. lia. }
  pose proof (countCells_all _ g Hwf Hall q c Hq) as Hc. simpl in Hc.
  rewrite Hm in Hc. simpl in Hc. by rewrite andb_true_r, orb_false_r in Hc.
Qed.

Lemma playInv_tick g : playInv g → timerRunning g = true → playInv (tick g).
Proof.
  intros [[Hwf Hfl Hboth Hmines Hfresh] ? ? ? Ht ? ? ? ? ? ? ? ? ?] Hrun.
  split; try done. intros Hfc. simpl in Hfc. rewrite Hfc in Ht. simpl in Ht. congruence.
Qed.

Lemma playInv_toggle p g g' : playInv g → toggleFlag p g = Done g' → playInv g'.
Proof.
  intros Hinv Hrun.
  pose proof (toggleFlag_inv p g g' (pi_base g Hinv) Hrun) as Hbase.
  destruct (getCell g p) as [cell|] eqn:Hp.
  2:{ unfold toggleFlag, deref in Hrun. by rewrite Hp in Hrun. }
  destruct (revealed cell) eqn:Hr.
  { rewrite (toggleFlag_revealed p g cell Hp Hr) in Hrun. by injection Hrun as <-. }
  rewrite (toggleFlag_covered p g cell Hp Hr) in Hrun. injection Hrun as <-.
  set (g1 := updCell p (set_flagged (negb (flagged cell))) g) in *.
  set (g2 := set_flagsPlaced _ g1) in *.
  pose proof (inv_wf g (pi_base g Hinv)) as Hwf.
  pose proof (inv_wf g2 Hbase) as Hwf2.
  assert (Hh : ∀ P q, (∀ b c, P (set_flagged b c) = P c) →
                      holdsAt P g2 q = holdsAt P g q).
  { intros P q HP. change (holdsAt P g1 q = holdsAt P g q). unfold g1.
    rewrite holdsAt_updCell. case_decide; [subst q|done].
    unfold holdsAt. rewrite Hp. apply HP. }
  assert (Hnm : ∀ q, neighbourMines g2 q = neighbourMines g q).
  { intros q. apply neighbourMines_ext; try done. intros q'. by apply Hh. }
  destruct Hinv as [_ Hc Hrw Hmc Ht Hov Hb Hm Hadj Hexp Hcnt Hopen Hwon Htime].
  split; try done.
  - change (firstClick g2) with (firstClick g). rewrite <- Hm.
    apply countCells_ext; try done. intros q. by apply Hh.
  - intros q c Hq Hmine. rewrite Hnm.
    change (getCell g2 q) with (getCell g1 q) in Hq. unfold g1 in Hq.
    rewrite getCell_updCell in Hq. case_decide; [subst q|by apply Hadj].
    rewrite Hp in Hq. injection Hq as <-. by apply (Hadj p cell).
  - intros Hgo q. unfold mineAt. rewrite !Hh by done. by apply Hexp.
  - intros Hpre. change (revealedCount g2) with (revealedCount g).
    rewrite (Hcnt Hpre). f_equal.
    apply countCells_ext; try done. intros q. symmetry. by apply (Hh (fun c => revealed c && negb (mine c))).
Qed.

Lemma playInv_placed picks r0 c0 g g1 :
  playInv g → firstClick g = true → placeMines picks r0 c0 g = Done g1 →
  playInv (startTimer (set_firstClick false g1)).
Proof.
  intros Hinv Hfc Hrun.
  pose proof (gameInv_placed picks r0 c0 g g1 (pi_base g Hinv) Hfc Hrun) as Hbase.
  pose proof (inv_wf g (pi_base g Hinv)) as Hwf.
  destruct (placeMines_spec _ _ _ _ _ Hwf Hrun)
    as (Hwf1 & Hsh & _ & _ & Hcnt & Hcells).
  destruct Hsh as (Hc & Hr & Hmc & _ & _ & Hgo & Hrc & _ & _ & Hb).
  assert (Hgo0 : gameOver g = false).
  { destruct (gameOver g) eqn:E; [|done]. rewrite (pi_over g Hinv E) in Hfc. done. }
  assert (Hrev : ∀ q, holdsAt revealed g1 q = false).
  { intros q. destruct (placeMines_keeps _ _ _ _ _ q Hwf Hrun) as [-> _].
    by apply (inv_fresh g (pi_base g Hinv)). }
  assert (Hsr : ∀ h, wellFormed h → (∀ q, holdsAt revealed h q = false) →
                     safeRevealed h = 0).
  { intros h Hh Hnone. apply countCells_none; [done|]. intros q.
    specialize (Hnone q). unfold holdsAt in *. destruct (getCell h q); [|done].
    by rewrite Hnone. }
  split.
  - done.
  - simpl. rewrite Hc. apply Hinv.
  - simpl. rewrite Hr. apply Hinv.
  - simpl. rewrite Hmc. apply Hinv.
  - simpl. by rewrite Hgo, Hgo0.
  - done.
  - simpl. rewrite Hb, Hgo. apply Hinv.
  - change (countCells mine g1 = 10).
    pose proof (pi_mines g Hinv) as Hm. rewrite Hfc in Hm.
    rewrite Hm, (pi_mineCount g Hinv) in Hcnt. lia.
  - intros q c Hq Hm. change (getCell g1 q = Some c) in Hq.
    change (adjacent c = neighbourMines g1 q).
    assert (inBounds g q) as Hbq.
    { assert (inBounds g1 q) as [? ?] by (apply wellFormed_inBounds; by rewrite ?Hq).
      split; congruence. }
    destruct (wellFormed_getCell g q Hwf Hbq) as [c0' Hq0].
    destruct (Hcells q c0' Hq0) as (c' & Hq' & _ & _ & _ & _ & Hadj).
    rewrite Hq in Hq'. injection Hq' as <-. by apply Hadj.
  - simpl. rewrite Hgo, Hgo0. done.
  - intros _. simpl. change (revealedCount g1 = Z.of_nat (safeRevealed g1)).
    rewrite Hrc, (pi_count g Hinv (or_introl Hgo0)).
    rewrite (Hsr g1 Hwf1 Hrev).
    by rewrite (Hsr g Hwf (inv_fresh g (pi_base g Hinv) Hfc)).
  - intros _. unfold totalSafe. simpl. rewrite Hr, Hc, Hmc, Hrc.
    apply (pi_open g Hinv Hgo0).
  - simpl. rewrite Hb. intros Hw.
    apply (proj2 (pi_banner g Hinv)) in Hgo0. congruence.
  - done.
Qed.

Lemma playInv_later picks p g g' cell :
  playInv g → firstClick g = false →
  getCell g p = Some cell → revealed cell = false → flagged cell = false →
  revealCell picks p g = Done g' → playInv g'.
Proof.
  intros Hinv Hfc Hp Hr Hf Hrun.
  pose proof (revealCell_inv picks p g g' (pi_base g Hinv) Hrun) as Hbase.
  pose proof (inv_wf g (pi_base g Hinv)) as Hwf.
  destruct (revealCell_later picks p g cell Hwf Hfc Hp Hr Hf)
    as (g1 & Hrun1 & Hro & _ & Hphase & _).
  rewrite Hrun in Hrun1. injection Hrun1 as <-.
  destruct (revealCell_later_full picks p g cell Hwf Hfc Hp Hr Hf)
    as (g1 & Hrun1 & Hte & Htr & Hexp & Hcnt & _).
  rewrite Hrun in Hrun1. injection Hrun1 as <-.
  assert (Hcovered : ∃ q c, getCell g q = Some c ∧ revealed c = false) by eauto.
  assert (Hnotwon : banner g ≠ WinBanner).
  { intros Hw. destruct Hcovered as (q & c & Hq & Hc).
    rewrite (won_all_revealed g Hinv Hw q c Hq) in Hc. done. }
  assert (Hm' : ∀ q, mineAt g' q = mineAt g q).
  { intros q. apply sameButRevealed_holds; [done|apply Hro]. }
  assert (Hts : totalSafe g' = totalSafe g).
  { unfold totalSafe.
    by rewrite (ro_rows _ _ Hro), (ro_cols _ _ Hro), (ro_mineCount _ _ Hro). }
  pose proof (pi_timer g Hinv) as Ht. rewrite Hfc in Ht. simpl in Ht.
  pose proof (pi_banner g Hinv) as Hb.
  set (ended := mine cell || ((totalSafe g <=? revealedCount g')%Z && negb (gameOver g)))
    in *.
  assert (Hcases :
    (ended = true ∧ gameOver g' = true ∧
     (banner g' = LoseBanner ∧ mine cell = true ∨
      banner g' = WinBanner ∧ mine cell = false ∧ gameOver g = false ∧
      (totalSafe g ≤ revealedCount g')%Z)) ∨
    (ended = false ∧ mine cell = false ∧ gameOver g' = gameOver g ∧
     banner g' = banner g ∧
     (gameOver g = false → (revealedCount g' < totalSafe g)%Z))).
  { unfold ended. destruct (mine cell); simpl in *.
    - left. destruct Hphase. auto.
    - destruct (_ && _) eqn:E.
      + left. destruct Hphase. apply andb_true_iff in E as [E1%Z.leb_le E2%negb_true_iff].
        split; [done|]. split; [done|]. right. done.
      + right. destruct Hphase. repeat split; try done.
        intros Hgo. rewrite Hgo in E. simpl in E. rewrite andb_true_r in E.
        by apply Z.leb_gt in E. }
  split.
  - done.
  - rewrite (ro_cols _ _ Hro). apply Hinv.
  - rewrite (ro_rows _ _ Hro). apply Hinv.
  - rewrite (ro_mineCount _ _ Hro). apply Hinv.
  - rewrite Htr, (ro_firstClick _ _ Hro), Hfc. simpl.
    destruct Hcases as [(-> & -> & _)|(-> & _ & -> & _)]; [done|by rewrite Ht].
  - intros _. by rewrite (ro_firstClick _ _ Hro).
  - destruct Hcases as [(_ & -> & [[-> _]|[-> _]])|(_ & _ & -> & -> & _)]; try done.
  - rewrite (ro_firstClick _ _ Hro), Hfc.
    rewrite (sameButRevealed_count mine g g') by (done || apply Hro).
    pose proof (pi_mines g Hinv) as Hm. by rewrite Hfc in Hm.
  - intros q c Hq Hmc.
    pose proof (ro_cells _ _ Hro q) as Hcq. rewrite Hq in Hcq.
    destruct (getCell g q) as [c0|] eqn:Hq0; [|done]. injection Hcq as ->.
    simpl in *. rewrite (pi_adjacent g Hinv q c0 Hq0 Hmc).
    symmetry. apply neighbourMines_ext; [apply Hro..|done].
  - intros Hgo q Hq. rewrite Hm' in Hq.
    destruct Hcases as [(He & _)|(_ & _ & Hgo' & _)].
    + by apply Hexp.
    + apply (ro_keep _ _ Hro). apply (pi_exposed g Hinv); [congruence|done].
  - intros Hpre.
    destruct Hcases as [(_ & Hgo' & [[Hb' _]|(_ & Hm & Hgo & _)])|(_ & Hm & Hgo' & Hb' & _)].
    + destruct Hpre; congruence.
    + rewrite Hm in Hcnt. pose proof (pi_count g Hinv (or_introl Hgo)). lia.
    + rewrite Hm in Hcnt.
      assert (gameOver g = false ∨ banner g = WinBanner) as Hpre0.
      { destruct Hpre; [left|right]; congruence. }
      pose proof (pi_count g Hinv Hpre0). lia.
  - intros Hgo. rewrite Hts.
    destruct Hcases as [(_ & Hgo' & _)|(_ & _ & Hgo' & _ & Hlt)]; [congruence|].
    apply Hlt. congruence.
  - intros Hw. rewrite Hts.
    destruct Hcases as [(_ & _ & [[Hb' _]|(_ & _ & _ & Hle)])|(_ & _ & _ & Hb' & _)];
      [congruence|done|congruence].
  - rewrite (ro_firstClick _ _ Hro), Hfc. done.
Qed.

Lemma playInv_reveal picks p g g' :
  playInv g → revealCell picks p g = Done g' → playInv g'.
Proof.
  intros Hinv Hrun.
  pose proof (inv_wf g (pi_base g Hinv)) as Hwf.
  destruct (getCell g p) as [cell|] eqn:Hp.
  2:{ unfold revealCell, deref in Hrun. by rewrite Hp in Hrun. }
  destruct (revealed cell || flagged cell) eqn:Hb.
  { rewrite (revealCell_blocked picks p g cell Hp Hb) in Hrun. by injection Hrun as <-. }
  apply orb_false_iff in Hb as [Hr Hf].
  destruct (firstClick g) eqn:Hfc; [|by eapply playInv_later].
  rewrite (revealCell_first picks p g cell Hwf Hfc Hp Hr Hf) in Hrun.
  destruct (placeMines picks p.1 p.2 g) as [g1| |] eqn:Hpm; simpl in Hrun; try done.
  destruct (placeMines_keeps _ _ _ _ _ p Hwf Hpm) as [Hr1 Hf1].
  unfold holdsAt in Hr1, Hf1. rewrite Hp in Hr1, Hf1.
  destruct (getCell g1 p) as [c1|] eqn:E1.
  - eapply (playInv_later picks p _ g' c1);
      [by eapply playInv_placed|done|exact E1| | |exact Hrun]; congruence.
  - unfold revealCell, deref in Hrun.
    change (getCell (startTimer (set_firstClick false g1)) p) with (getCell g1 p) in Hrun.
    by rewrite E1 in Hrun.
Qed.

Lemma playInv_happen ev g g' : playInv g → happen ev g = Done g' → playInv g'.
Proof.
  intros Hinv. destruct ev as [cmd|]; simpl.
  - revert cmd g g' Hinv. apply perform_preserves.
    + apply playInv_reveal.
    + apply playInv_toggle.
    + apply playInv_reset.
  - destruct (timerRunning g) eqn:E; intros [= <-]; [by apply playInv_tick|done].
Qed.

Lemma play_inv evs : ∀ g g', playInv g → play evs g = Done g' → playInv g'.
Proof.
  induction evs as [|ev evs IH]; intros g g' Hinv; unfold play; simpl.
  - by intros [= <-].
  - destruct (happen ev g) as [g1| |] eqn:E; try done.
    apply IH. by eapply playInv_happen.
Qed.

End Play.

(** ** The functions on their own *)

Section Functions.
Implicit Types (g : Game) (p q n e : Pos) (picks : list Pos).

Lemma boardAt_getCell g (r c : Z) cell :
  boardAt g r c = Some cell → getCell g (Z.to_nat r, Z.to_nat c) = Some cell.
Proof. unfold boardAt. by destruct (_ && _)%Z. Qed.

Lemma boardAt_nat g (r c : nat) : boardAt g (Z.of_nat r) (Z.of_nat c) = getCell g (r, c).
Proof.
  unfold boardAt.
  assert ((0 <=? Z.of_nat r)%Z && (0 <=? Z.of_nat c)%Z = true) as ->.
  { apply andb_true_iff. split; apply Z.leb_le; lia. }
  by rewrite !Nat2Z.id.
Qed.

Lemma countCells_pos P g q : wellFormed g → holdsAt P g q = true → 0 < countCells P g.
Proof.
  intros Hwf Hq. destruct (countCells P g) eqn:E; [|lia].
  by rewrite (countCells_zero P g q Hwf E) in Hq.
Qed.

Lemma placeLoop_spin picks (safeZone : gset Pos) s : ∀ placed g,
  wellFormed g → Forall (inBounds g) picks →
  s ∈ safeZone → inBounds g s → mineAt g s = false →
  (placed + Z.of_nat (countCells (fun c => negb (mine c)) g) ≤ mineCount g)%Z →
  placeLoop picks safeZone placed g = Spin.
Proof.
  induction picks as [|p picks IH]; intros placed g Hwf Hpicks Hs Hbs Hms Hle.
  - assert (0 < countCells (fun c => negb (mine c)) g).
    { apply (countCells_pos _ g s Hwf). unfold mineAt, holdsAt in *.
      destruct (wellFormed_getCell g s Hwf Hbs) as [c Hc]. rewrite Hc in *.
      by rewrite Hms. }
    simpl. by assert ((placed <? mineCount g)%Z = true) as -> by (apply Z.ltb_lt; lia).
  - assert (0 < countCells (fun c => negb (mine c)) g).
    { apply (countCells_pos _ g s Hwf). unfold mineAt, holdsAt in *.
      destruct (wellFormed_getCell g s Hwf Hbs) as [c Hc]. rewrite Hc in *.
      by rewrite Hms. }
    simpl. assert ((placed <? mineCount g)%Z = true) as -> by (apply Z.ltb_lt; lia).
    apply Forall_cons in Hpicks as [Hp Hpicks].
    destruct (wellFormed_getCell g p Hwf Hp) as [cell Hcell]. rewrite Hcell.
    destruct (mine cell) eqn:Hm; [by apply IH|].
    case_decide as Hin; [by apply IH|].
    assert (p ≠ s) by (intros ->; done).
    apply IH.
    + by apply wellFormed_updCell.
    + done.
    + done.
    + done.
    + unfold mineAt. rewrite holdsAt_updCell. by case_decide.
    + pose proof (countCells_updCell (fun c => negb (mine c)) p (set_mine true) g cell Hcell)
        as Hcount.
      simpl in Hcount. rewrite Hm in Hcount. simpl in Hcount.
      change (mineCount (updCell p (set_mine true) g)) with (mineCount g). lia.
Qed.

End Functions.

(** X1.  [getNeighbors(r, c)] returns, without repetition, exactly the cells
    of the grid that are a king move away from [(r, c)]: never the cell
    itself, never a position outside the grid. *)
Theorem getNeighbors_king_moves (g : Game) (r c : nat) :
  NoDup (getNeighbors g r c) ∧
  ∀ n, n ∈ getNeighbors g r c ↔ inBounds g n ∧ kingMove (r, c) n.
Proof.
  split; [apply NoDup_getNeighbors|]. intros n. apply elem_of_getNeighbors.
Qed.

(** X2.  Being a neighbour is symmetric: a cell of the grid is among the
    neighbours of each of its own neighbours. *)
Theorem getNeighbors_symmetric (g : Game) (p q : Pos) :
  inBounds g p → q ∈ getNeighbors g p.1 p.2 → p ∈ getNeighbors g q.1 q.2.
Proof.
  intros Hp Hq. destruct p as [r c], q as [r' c']. simpl in *.
  apply elem_of_getNeighbors in Hq as [Hb Hk].
  apply elem_of_getNeighbors. split; [done|]. by apply kingMove_sym.
Qed.

Lemma getNeighbors_symmetric_witness :
  (3, 4) ∈ getNeighbors (resetGame initialGame) 4 5.
Proof.
  apply (getNeighbors_symmetric (resetGame initialGame) (3, 4) (4, 5)).
  - split; vm_compute; lia.
  - apply (bool_decide_unpack _). vm_compute. reflexivity.
Defined.

(** X3.  The number of neighbours [getNeighbors] returns for a cell of the
    grid: the rows among [r - 1], [r], [r + 1] that exist times the columns
    among [c - 1], [c], [c + 1] that exist, minus the cell itself; it is
    eight exactly for the cells off the border. *)
Theorem neighbour_count (g : Game) (r c : nat) :
  r < rows g → c < cols g →
  length (getNeighbors g r c) = span r (rows g) * span c (cols g) - 1 ∧
  (length (getNeighbors g r c) = 8 ↔
   0 < r ∧ S r < rows g ∧ 0 < c ∧ S c < cols g).
Proof.
  intros Hr Hc. rewrite (length_getNeighbors_exact g r c Hr Hc). split; [done|].
  unfold span. repeat case_decide; simpl; lia.
Qed.

Lemma neighbour_count_witness :
  length (getNeighbors (resetGame initialGame) 0 8) = 3 ∧
  length (getNeighbors (resetGame initialGame) 0 4) = 5.
Proof.
  split.
  - destruct (neighbour_count (resetGame initialGame) 0 8) as [H _];
      [vm_compute; lia..|]. exact H.
  - destruct (neighbour_count (resetGame initialGame) 0 4) as [H _];
      [vm_compute; lia..|]. exact H.
Defined.

(** X4.  With bounds in order, [clamp] returns a number within them, leaves
    a number within them as it is, and clamping twice is clamping once;
    [NaN] gives the lower bound. *)
Theorem clamp_within (val : option Z) (lo hi : Z) :
  (lo ≤ hi)%Z →
  (lo ≤ clamp val lo hi ≤ hi)%Z ∧
  (val = None → clamp val lo hi = lo) ∧
  (∀ v, val = Some v → (lo ≤ v ≤ hi)%Z → clamp val lo hi = v) ∧
  (∀ v, val = Some v → (v < lo)%Z → clamp val lo hi = lo) ∧
  (∀ v, val = Some v → (hi < v)%Z → clamp val lo hi = hi) ∧
  clamp (Some (clamp val lo hi)) lo hi = clamp val lo hi.
Proof.
  intros Hle. destruct val as [v|]; simpl.
  - repeat split; try lia; try done; intros v' [= <-]; lia.
  - repeat split; try lia; intros v' [=].
Qed.

Lemma clamp_within_witness :
  (5 ≤ clamp (Some 42%Z) 5 30 ≤ 30)%Z.
Proof. apply (clamp_within (Some 42%Z) 5 30). lia. Defined.

(** X5.  With the bounds the wrong way round, [clamp] returns the lower
    bound [min] whatever the value: the result is then above [max]. *)
Theorem clamp_inverted_bounds (val : option Z) (lo hi : Z) :
  (hi < lo)%Z → clamp val lo hi = lo.
Proof. intros Hlt. destruct val as [v|]; simpl; lia. Qed.

Lemma clamp_inverted_bounds_witness : clamp (Some 7%Z) 30 5 = 30%Z.
Proof. apply (clamp_inverted_bounds (Some 7%Z) 30 5). lia. Defined.

(** X6.  [formatNumber] always returns three characters, whatever the
    integer: shorter texts are padded, longer ones cut. *)
Theorem formatNumber_three_characters (n : Z) : length (formatNumber n) = 3.
Proof. apply length_formatNumber. Qed.

(** X7.  For an integer from 0 to 999 [formatNumber] returns its three
    decimal digits, with leading zeros. *)
Theorem formatNumber_decimal (n : Z) :
  (0 ≤ n ≤ 999)%Z →
  formatNumber n = [digitChar (n / 100); digitChar (n / 10 mod 10); digitChar (n mod 10)].
Proof. apply formatNumber_digits. Qed.

Lemma formatNumber_decimal_witness :
  formatNumber 47 = [digitChar 0; digitChar 4; digitChar 7].
Proof. apply (formatNumber_decimal 47). lia. Defined.

(** X8.  With as many mines to place as the grid has cells, or more,
    [placeMines] never gets out of its loop: the safe cell stays free, so
    whatever cells of the grid are drawn, and however many, the count
    [placed] stays below [mineCount]. *)
Theorem placeMines_needs_room (picks : list Pos) (r0 c0 : nat) (g : Game) :
  wellFormed g → Forall (inBounds g) picks →
  inBounds g (r0, c0) → mineAt g (r0, c0) = false →
  (Z.of_nat (rows g * cols g) ≤ mineCount g)%Z →
  placeMines picks r0 c0 g = Spin.
Proof.
  intros Hwf Hpicks Hb Hm Hle. unfold placeMines.
  assert (placeLoop picks {[ (r0, c0) ]} 0%Z g = Spin) as ->; [|done].
  apply (placeLoop_spin picks _ (r0, c0)); try done.
  - by apply elem_of_singleton.
  - pose proof (countCells_total mine g Hwf). lia.
Qed.

Lemma placeMines_needs_room_witness :
  placeMines [(0, 1); (1, 0); (1, 1); (2, 2); (0, 0); (2, 1)] 0 0
             (resetGameTo (mkDifficulty 3 3 9) initialGame) = Spin.
Proof.
  apply (placeMines_needs_room [(0, 1); (1, 0); (1, 1); (2, 2); (0, 0); (2, 1)] 0 0
           (resetGameTo (mkDifficulty 3 3 9) initialGame)).
  - vm_compute. reflexivity.
  - apply (bool_decide_unpack _). vm_compute. reflexivity.
  - split; vm_compute; lia.
  - vm_compute. reflexivity.
  - vm_compute. discriminate.
Defined.

(** X9.  An arrow key moves the focus by one cell in its direction and never
    out of the grid, and only while the game is not over; the opposite key,
    pressed on the cell that got the focus, leads back to the cell the first
    key was pressed on. *)
Theorem arrow_key_round_trip (key : Arrow) (e : Pos) (g : Game) (t : Cell) :
  wellFormed g → onArrowKey key e g = Done (Some t) →
  gameOver g = false ∧
  (Z.of_nat (row t), Z.of_nat (col t)) = arrowStep key e ∧
  inBounds g (row t, col t) ∧ getCell g (row t, col t) = Some t ∧
  is_Some (getCell g e) ∧
  onArrowKey (opposite key) (row t, col t) g = Done (getCell g e).
Proof.
  intros Hwf. destruct e as [er ec]. unfold onArrowKey at 1.
  destruct (getCellFromEvent g (er, ec)) as [[cell|]| |] eqn:Hev; simpl; try done.
  apply getCellFromEvent_getCell in Hev.
  destruct (gameOver g) eqn:Hgo; [done|]. intros [= Ht].
  destruct (wellFormed_rowcol g _ cell Hwf Hev) as [Hr Hc]. simpl in Hr, Hc.
  assert (Hstep : ∃ r c : Z, arrowStep key (er, ec) = (r, c) ∧ boardAt g r c = Some t).
  { unfold arrowTarget in Ht. rewrite Hr, Hc in Ht.
    destruct key; simpl; eauto. }
  destruct Hstep as (r & c & Hstep & Hat).
  destruct (boardAt_inBounds g r c t Hwf Hat) as (Hrr & Hcc & Hrt & Hct).
  pose proof (boardAt_getCell g r c t Hat) as Hcell. rewrite <- Hrt, <- Hct in Hcell.
  split; [done|]. split; [rewrite Hstep, Hrt, Hct; f_equal; lia|].
  split; [split; simpl; lia|]. split; [done|]. split; [by rewrite Hev|].
  unfold onArrowKey. rewrite (getCell_getCellFromEvent g _ t Hcell). simpl.
  rewrite Hgo. f_equal. rewrite <- (boardAt_nat g er ec).
  unfold arrowTarget. rewrite Hrt, Hct.
  destruct key; simpl in *; injection Hstep as <- <-; simpl; f_equal; lia.
Qed.

Lemma arrow_key_round_trip_witness :
  onArrowKey ArrowUp (5, 4) (resetGame initialGame) =
  Done (getCell (resetGame initialGame) (4, 4)).
Proof.
  apply (arrow_key_round_trip ArrowDown (4, 4) (resetGame initialGame) (emptyCell 5 4));
    vm_compute; reflexivity.
Defined.

(** X10.  At the border of the grid an arrow key that points outwards moves
    nothing: the focus does not wrap around to the other side. *)
Theorem arrow_key_stops_at_border (key : Arrow) (e : Pos) (g : Game) :
  wellFormed g → inBounds g e →
  match key with
  | ArrowUp => e.1 = 0
  | ArrowDown => S e.1 = rows g
  | ArrowLeft => e.2 = 0
  | ArrowRight => S e.2 = cols g
  end →
  onArrowKey key e g = Done None.
Proof.
  intros Hwf Hb Hedge. unfold onArrowKey.
  destruct (wellFormed_getCell g e Hwf Hb) as [cell Hcell].
  rewrite (getCell_getCellFromEvent g e cell Hcell). simpl.
  destruct (gameOver g); [done|]. f_equal.
  destruct (wellFormed_rowcol g e cell Hwf Hcell) as [Hr Hc].
  destruct (arrowTarget g cell key) as [t|] eqn:Ht; [|done]. exfalso.
  unfold arrowTarget in Ht. rewrite Hr, Hc in Ht.
  destruct key;
    destruct (boardAt_inBounds g _ _ t Hwf Ht) as (? & ? & _); lia.
Qed.

Lemma arrow_key_stops_at_border_witness :
  onArrowKey ArrowRight (2, 8) (resetGame initialGame) = Done None.
Proof.
  apply (arrow_key_stops_at_border ArrowRight (2, 8) (resetGame initialGame)).
  - vm_compute. reflexivity.
  - split; vm_compute; lia.
  - vm_compute. reflexivity.
Defined.

(** X11.  An event on an element whose [data-col] lies outside the grid is
    ignored by every handler, while one whose [data-row] lies outside the
    grid makes [getCellFromEvent], and with it every handler, throw: the
    row that is indexed first does not exist. *)
Theorem event_outside_grid (g : Game) (e : Pos) (key : Key) (picks : list Pos) :
  wellFormed g →
  (e.1 < rows g → cols g ≤ e.2 →
   getCellFromEvent g e = Done None ∧
   onCellClick picks e g = Done g ∧ onCellRightClick e g = Done g ∧
   onCellKeyDown key picks e g = Done g ∧ onLongPress e g = Done g) ∧
  (rows g ≤ e.1 →
   getCellFromEvent g e = TypeError ∧
   onCellClick picks e g = TypeError ∧ onCellRightClick e g = TypeError ∧
   onCellKeyDown key picks e g = TypeError ∧ onLongPress e g = TypeError).
Proof.
  intros Hwf. destruct (wellFormed_lookup g Hwf) as [Hlen Hrows].
  unfold onCellClick, onCellRightClick, onCellKeyDown, onLongPress, getCellFromEvent.
  split.
  - intros Hr Hc.
    destruct (board g !! e.1) as [cells|] eqn:E.
    + destruct (Hrows _ _ E) as [Hlc _].
      assert (cells !! e.2 = None) as Hnone by (apply lookup_ge_None; lia).
      simpl. by rewrite Hnone.
    + apply lookup_ge_None in E. lia.
  - intros Hr.
    assert (board g !! e.1 = None) as -> by (apply lookup_ge_None; lia). done.
Qed.

Lemma event_outside_grid_witness :
  onCellClick cornerPicks (2, 9) (resetGame initialGame) = Done (resetGame initialGame) ∧
  onCellClick cornerPicks (9, 2) (resetGame initialGame) = TypeError.
Proof.
  destruct (event_outside_grid (resetGame initialGame) (2, 9) OtherKey cornerPicks)
    as [H _]; [vm_compute; reflexivity|].
  destruct (event_outside_grid (resetGame initialGame) (9, 2) OtherKey cornerPicks)
    as [_ H']; [vm_compute; reflexivity|].
  split.
  - apply H; vm_compute; lia.
  - apply H'. vm_compute. lia.
Defined.

(** X12.  The keyboard and the long press do what the mouse does: [Enter]
    and the space bar act as a click, [f] and a long press as a right click,
    and any other key leaves the game as it is. *)
Theorem keyboard_and_touch_follow_mouse (picks : list Pos) (e : Pos) (g : Game) :
  onCellKeyDown RevealKey picks e g = onCellClick picks e g ∧
  onCellKeyDown FlagKey picks e g = onCellRightClick e g ∧
  onLongPress e g = onCellRightClick e g ∧
  ∀ g', onCellKeyDown OtherKey picks e g = Done g' → g' = g.
Proof.
  split; [apply onCellKeyDown_reveal|]. split; [apply onCellKeyDown_flag|].
  split; [apply onLongPress_rightClick|]. apply onCellKeyDown_other.
Qed.

(** X13.  [endGame] stops the timer, marks the game over with the banner of
    the outcome, and reveals the mines and nothing else: the cells revealed
    afterwards are those revealed before and the mines; flags, mines, the
    count of revealed cells and the time stay as they were. *)
Theorem endGame_exposes_mines (win : bool) (g : Game) :
  wellFormed g →
  ∃ g', endGame win g = Done g' ∧
        gameOver g' = true ∧ timerRunning g' = false ∧
        banner g' = (if win then WinBanner else LoseBanner) ∧
        revealedCount g' = revealedCount g ∧ timeElapsed g' = timeElapsed g ∧
        flagsPlaced g' = flagsPlaced g ∧
        ∀ q, holdsAt revealed g' q = holdsAt revealed g q || mineAt g q ∧
             holdsAt flagged g' q = holdsAt flagged g q ∧
             mineAt g' q = mineAt g q.
Proof.
  intros Hwf.
  destruct (endGame_spec win g Hwf) as (g' & Hrun & Hro & Hgo & Hb & Hrc & _ & _).
  destruct (endGame_full win g Hwf) as (g1 & Hrun1 & _ & Htr & Hte & _ & _ & _ & Hrev & _).
  rewrite Hrun in Hrun1. injection Hrun1 as <-.
  exists g'. repeat split; try done.
  - apply Hro.
  - by apply sameButRevealed_holds; [|apply Hro].
  - by apply sameButRevealed_holds; [|apply Hro].
Qed.

Lemma endGame_exposes_mines_witness :
  ∃ g', endGame false (stateAfter [ResetClick; Click cornerPicks (0, 0)]) = Done g' ∧
        gameOver g' = true ∧ holdsAt revealed g' (8, 8) = true.
Proof.
  destruct (endGame_exposes_mines false (stateAfter [ResetClick; Click cornerPicks (0, 0)]))
    as (g' & Hrun & Hgo & _ & _ & _ & _ & _ & Hq); [vm_compute; reflexivity|].
  exists g'. split; [exact Hrun|]. split; [exact Hgo|].
  destruct (Hq (8, 8)) as [-> _]. vm_compute. reflexivity.
Defined.

(** X14.  Once the mines are placed, a reveal of a covered, unflagged cell
    that holds no mine and has a mine next to it reveals that one cell and
    adds one to [revealedCount]: no other cell without a mine changes, there
    is no flood fill. *)
Theorem numbered_cell_reveals_alone (picks : list Pos) (p : Pos) (g : Game) (cell : Cell) :
  wellFormed g → firstClick g = false →
  getCell g p = Some cell → revealed cell = false → flagged cell = false →
  mine cell = false → 0 < adjacent cell →
  ∃ g', revealCell picks p g = Done g' ∧
        revealedCount g' = (revealedCount g + 1)%Z ∧
        holdsAt revealed g' p = true ∧
        ∀ q, q ≠ p → mineAt g q = false →
             holdsAt revealed g' q = holdsAt revealed g q.
Proof.
  intros Hwf Hfc Hp Hr Hf Hm Hadj.
  destruct (revealCell_later picks p g cell Hwf Hfc Hp Hr Hf) as (g' & Hrun & _ & Hrev & _).
  destruct (revealCell_later_full picks p g cell Hwf Hfc Hp Hr Hf)
    as (g1 & Hrun1 & _ & _ & _ & _ & Hone).
  rewrite Hrun in Hrun1. injection Hrun1 as <-.
  destruct (Hone Hm Hadj) as [Hrc Hsame]. by exists g'.
Qed.

Lemma numbered_cell_reveals_alone_witness :
  ∃ g', revealCell [] (2, 2) (stateAfter [ResetClick; Click cornerPicks (0, 0)]) = Done g' ∧
        revealedCount g' = 2%Z.
Proof.
  destruct (numbered_cell_reveals_alone [] (2, 2)
              (stateAfter [ResetClick; Click cornerPicks (0, 0)])
              (mkCell 2 2 false 1 false false))
    as (g' & Hrun & Hrc & _); [vm_compute; first [reflexivity | lia]..|].
  exists g'. split; [exact Hrun|]. rewrite Hrc. vm_compute. reflexivity.
Defined.

(** ** Games reached by commands and ticks *)

Section Reached.
Implicit Types (g : Game) (p q e : Pos) (picks : list Pos) (evs : list Event).

Lemma play_reached evs g0 g : play evs (resetGame g0) = Done g → playInv g.
Proof. apply play_inv, playInv_reset. Qed.

Lemma playInv_no_mines g q : playInv g → firstClick g = true → mineAt g q = false.
Proof.
  intros Hinv Hfc. apply countCells_zero; [apply Hinv|].
  pose proof (pi_mines g Hinv) as Hm. by rewrite Hfc in Hm.
Qed.

Lemma mayFollow_refl ph : mayFollow ph ph = true.
Proof. by destruct ph. Qed.

(** A reveal either changes nothing, or is a reveal of a covered, unflagged
    cell in a game with its mines placed: the game itself, or the game
    after the placement of the first reveal. *)
Lemma revealCell_steps picks p g g' :
  playInv g → revealCell picks p g = Done g' →
  g' = g ∨
  ∃ g1 cell,
    playInv g1 ∧ firstClick g1 = false ∧
    gameOver g1 = gameOver g ∧ banner g1 = banner g ∧
    timeElapsed g1 = timeElapsed g ∧
    (firstClick g = false → g1 = g) ∧
    (firstClick g = true → mine cell = false) ∧
    getCell g1 p = Some cell ∧ revealed cell = false ∧ flagged cell = false ∧
    revealCell picks p g1 = Done g'.
Proof.
  intros Hinv Hrun.
  pose proof (inv_wf g (pi_base g Hinv)) as Hwf.
  destruct (getCell g p) as [cell|] eqn:Hp.
  2:{ unfold revealCell, deref in Hrun. by rewrite Hp in Hrun. }
  destruct (revealed cell || flagged cell) eqn:Hb.
  { rewrite (revealCell_blocked picks p g cell Hp Hb) in Hrun. left. by injection Hrun. }
  apply orb_false_iff in Hb as [Hr Hf]. right.
  destruct (firstClick g) eqn:Hfc.
  2:{ exists g, cell. split; [done|]. by repeat split. }
  rewrite (revealCell_first picks p g cell Hwf Hfc Hp Hr Hf) in Hrun.
  destruct (placeMines picks p.1 p.2 g) as [g1| |] eqn:Hpm; simpl in Hrun; try done.
  destruct (placeMines_keeps _ _ _ _ _ p Hwf Hpm) as [Hr1 Hf1].
  destruct (placeMines_spec _ _ _ _ _ Hwf Hpm) as (_ & Hsh & _ & Hsafe & _ & _).
  destruct Hsh as (_ & _ & _ & _ & _ & Hgo & _ & _ & Hte & Hb).
  rewrite <- surjective_pairing, (playInv_no_mines g p Hinv Hfc) in Hsafe.
  unfold mineAt, holdsAt in Hr1, Hf1, Hsafe. rewrite Hp in Hr1, Hf1.
  destruct (getCell g1 p) as [c1|] eqn:E1.
  - exists (startTimer (set_firstClick false g1)), c1.
    split; [by eapply playInv_placed|]. repeat split; try done; congruence.
  - unfold revealCell, deref in Hrun.
    change (getCell (startTimer (set_firstClick false g1)) p) with (getCell g1 p) in Hrun.
    by rewrite E1 in Hrun.
Qed.

Lemma playInv_not_won g p cell :
  playInv g → getCell g p = Some cell → revealed cell = false → banner g ≠ WinBanner.
Proof.
  intros Hinv Hp Hr Hw. by rewrite (won_all_revealed g Hinv Hw p cell Hp) in Hr.
Qed.

Lemma phase_won_banner g : phase g = Won → gameOver g = true ∧ banner g = WinBanner.
Proof. unfold phase. by destruct (gameOver g), (banner g), (firstClick g). Qed.

Lemma revealCell_phase picks p g g' :
  playInv g → revealCell picks p g = Done g' →
  mayFollow (phase g) (phase g') = true ∧ (phase g = Won → g' = g).
Proof.
  intros Hinv Hrun.
  destruct (revealCell_steps picks p g g' Hinv Hrun)
    as [->|(g1 & cell & Hinv1 & Hfc1 & Hgo1 & Hb1 & _ & _ & Hsafe & Hp & Hr & Hf & Hrun1)].
  { split; [apply mayFollow_refl|done]. }
  pose proof (playInv_not_won g1 p cell Hinv1 Hp Hr) as Hnw. rewrite Hb1 in Hnw.
  destruct (revealCell_later picks p g1 cell (inv_wf g1 (pi_base g1 Hinv1)) Hfc1 Hp Hr Hf)
    as (g2 & Hrun2 & Hro & _ & Hphase & _).
  rewrite Hrun1 in Hrun2. injection Hrun2 as <-.
  pose proof (ro_firstClick _ _ Hro) as Hfc'. rewrite Hfc1 in Hfc'.
  rewrite Hgo1, Hb1 in Hphase.
  split.
  2:{ intros [_ Hw]%phase_won_banner. done. }
  unfold phase. rewrite Hfc'.
  destruct (mine cell) eqn:Hm.
  - destruct Hphase as [-> ->].
    destruct (firstClick g) eqn:Hfc; [by specialize (Hsafe eq_refl)|].
    by destruct (gameOver g), (banner g).
  - destruct (_ && _) eqn:E.
    + destruct Hphase as [-> ->]. apply andb_true_iff in E as [_ E%negb_true_iff].
      rewrite E. by destruct (firstClick g).
    + destruct Hphase as [-> ->].
      by destruct (gameOver g), (banner g), (firstClick g).
Qed.

Lemma toggleFlag_same p g g' :
  playInv g → toggleFlag p g = Done g' →
  phase g' = phase g ∧ timeElapsed g' = timeElapsed g ∧
  (∀ q c, getCell g q = Some c →
          ∃ c', getCell g' q = Some c' ∧ mine c' = mine c ∧ adjacent c' = adjacent c) ∧
  (phase g = Won → g' = g).
Proof.
  intros Hinv Hrun.
  destruct (getCell g p) as [cell|] eqn:Hp.
  2:{ unfold toggleFlag, deref in Hrun. by rewrite Hp in Hrun. }
  destruct (revealed cell) eqn:Hr.
  { rewrite (toggleFlag_revealed p g cell Hp Hr) in Hrun. injection Hrun as <-.
    repeat split; try done. intros q c Hq. by exists c. }
  rewrite (toggleFlag_covered p g cell Hp Hr) in Hrun. injection Hrun as <-.
  repeat split; try done.
  - intros q c Hq.
    change (getCell (set_flagsPlaced ?v ?h) q) with (getCell h q).
    rewrite getCell_updCell. case_decide; [subst q|by exists c].
    rewrite Hp in *. injection Hq as <-. by eexists.
  - intros [_ Hw]%phase_won_banner. by destruct (playInv_not_won g p cell Hinv Hp Hr).
Qed.

Lemma revealCell_clock picks p g g' :
  playInv g → revealCell picks p g = Done g' → timeElapsed g' = timeElapsed g.
Proof.
  intros Hinv Hrun.
  destruct (revealCell_steps picks p g g' Hinv Hrun)
    as [->|(g1 & cell & Hinv1 & Hfc1 & _ & _ & Hte & _ & _ & Hp & Hr & Hf & Hrun1)];
    [done|].
  destruct (revealCell_later_full picks p g1 cell (inv_wf g1 (pi_base g1 Hinv1))
              Hfc1 Hp Hr Hf) as (g2 & Hrun2 & Hte2 & _).
  rewrite Hrun1 in Hrun2. injection Hrun2 as <-. congruence.
Qed.

Lemma revealCell_board picks p g g' :
  playInv g → firstClick g = false → revealCell picks p g = Done g' →
  ∀ q c, getCell g q = Some c →
         ∃ c', getCell g' q = Some c' ∧ mine c' = mine c ∧ adjacent c' = adjacent c.
Proof.
  intros Hinv Hfc Hrun q c Hq.
  destruct (revealCell_steps picks p g g' Hinv Hrun)
    as [->|(g1 & cell & Hinv1 & Hfc1 & _ & _ & _ & Hsame & _ & Hp & Hr & Hf & Hrun1)];
    [by exists c|].
  rewrite (Hsame Hfc) in *.
  destruct (revealCell_later picks p g cell (inv_wf g (pi_base g Hinv)) Hfc Hp Hr Hf)
    as (g2 & Hrun2 & Hro & _).
  rewrite Hrun1 in Hrun2. injection Hrun2 as <-.
  pose proof (ro_cells _ _ Hro q) as Hcq. rewrite Hq in Hcq. simpl in Hcq.
  by eexists.
Qed.

Lemma toggleFlag_total p g cell :
  getCell g p = Some cell → ∃ g', toggleFlag p g = Done g'.
Proof.
  intros Hp. destruct (revealed cell) eqn:Hr.
  - rewrite (toggleFlag_revealed p g cell Hp Hr). by eexists.
  - rewrite (toggleFlag_covered p g cell Hp Hr). by eexists.
Qed.

Lemma revealCell_total picks p g :
  playInv g → inBounds g p →
  (firstClick g = true →
   Forall (inBounds g) picks ∧ 10 ≤ distinctDraws p picks) →
  ∃ g', revealCell picks p g = Done g'.
Proof.
  intros Hinv Hb Hdraws.
  pose proof (inv_wf g (pi_base g Hinv)) as Hwf.
  destruct (wellFormed_getCell g p Hwf Hb) as [cell Hp].
  destruct (revealed cell || flagged cell) eqn:Hblk.
  { rewrite (revealCell_blocked picks p g cell Hp Hblk). by eexists. }
  apply orb_false_iff in Hblk as [Hr Hf].
  destruct (firstClick g) eqn:Hfc.
  2:{ destruct (revealCell_later picks p g cell Hwf Hfc Hp Hr Hf) as (g' & Hrun & _).
      by exists g'. }
  destruct (Hdraws eq_refl) as [Hpicks Hten].
  rewrite (revealCell_first picks p g cell Hwf Hfc Hp Hr Hf).
  destruct (placeMines_done picks p.1 p.2 g Hwf Hpicks) as [g1 Hpm].
  { intros q. by apply playInv_no_mines. }
  { rewrite <- surjective_pairing, (pi_mineCount g Hinv). lia. }
  rewrite Hpm. simpl.
  pose proof (playInv_placed picks p.1 p.2 g g1 Hinv Hfc Hpm) as Hinv1.
  destruct (placeMines_keeps _ _ _ _ _ p Hwf Hpm) as [Hr1 Hf1].
  unfold holdsAt in Hr1, Hf1. rewrite Hp in Hr1, Hf1.
  destruct (placeMines_spec _ _ _ _ _ Hwf Hpm) as (Hwf1 & Hsh & _).
  destruct (wellFormed_getCell g1 p Hwf1) as [c1 Hc1].
  { destruct Hsh as (Hc & Hrw & _). destruct Hb. split; congruence. }
  rewrite Hc1 in Hr1, Hf1.
  destruct (revealCell_later picks p (startTimer (set_firstClick false g1)) c1)
    as (g' & Hrun & _); try done; [congruence..|].
  by exists g'.
Qed.

Lemma revealCell_keeps picks p g g' :
  playInv g → revealCell picks p g = Done g' →
  flagsPlaced g' = flagsPlaced g ∧
  ∀ q, holdsAt flagged g' q = holdsAt flagged g q ∧
       (holdsAt revealed g q = true → holdsAt revealed g' q = true).
Proof.
  intros Hinv Hrun.
  pose proof (inv_wf g (pi_base g Hinv)) as Hwf.
  assert (Hlater : ∀ h cell, wellFormed h → firstClick h = false →
            getCell h p = Some cell → revealed cell = false → flagged cell = false →
            revealCell picks p h = Done g' →
            flagsPlaced g' = flagsPlaced h ∧
            ∀ q, holdsAt flagged g' q = holdsAt flagged h q ∧
                 (holdsAt revealed h q = true → holdsAt revealed g' q = true)).
  { intros h cell Hwfh Hfc Hp Hr Hf Hrunh.
    destruct (revealCell_later picks p h cell Hwfh Hfc Hp Hr Hf) as (g2 & Hrun2 & Hro & _).
    rewrite Hrunh in Hrun2. injection Hrun2 as <-.
    split; [apply Hro|]. intros q. split; [|apply Hro].
    by apply sameButRevealed_holds; [|apply Hro]. }
  destruct (getCell g p) as [cell|] eqn:Hp.
  2:{ unfold revealCell, deref in Hrun. by rewrite Hp in Hrun. }
  destruct (revealed cell || flagged cell) eqn:Hb.
  { rewrite (revealCell_blocked picks p g cell Hp Hb) in Hrun. by injection Hrun as <-. }
  apply orb_false_iff in Hb as [Hr Hf].
  destruct (firstClick g) eqn:Hfc; [|by apply (Hlater g cell)].
  rewrite (revealCell_first picks p g cell Hwf Hfc Hp Hr Hf) in Hrun.
  destruct (placeMines picks p.1 p.2 g) as [g1| |] eqn:Hpm; simpl in Hrun; try done.
  destruct (placeMines_spec _ _ _ _ _ Hwf Hpm) as (Hwf1 & Hsh & _).
  destruct Hsh as (_ & _ & _ & Hfp & _).
  pose proof (placeMines_keeps _ _ _ _ _ p Hwf Hpm) as [Hr1 Hf1].
  unfold holdsAt in Hr1, Hf1. rewrite Hp in Hr1, Hf1.
  destruct (getCell g1 p) as [c1|] eqn:E1.
  - destruct (Hlater (startTimer (set_firstClick false g1)) c1) as [Hfp' Hq'];
      try done; try congruence.
    split; [by rewrite Hfp'|]. intros q.
    destruct (placeMines_keeps _ _ _ _ _ q Hwf Hpm) as [Hrq Hfq].
    destruct (Hq' q) as [Hfl Hkeep]. split.
    + rewrite Hfl. exact Hfq.
    + intros Hq. apply Hkeep. change (holdsAt revealed g1 q = true). by rewrite Hrq.
  - unfold revealCell, deref in Hrun.
    change (getCell (startTimer (set_firstClick false g1)) p) with (getCell g1 p) in Hrun.
    by rewrite E1 in Hrun.
Qed.

Lemma toggleFlag_keeps_revealed p g g' q :
  toggleFlag p g = Done g' → holdsAt revealed g' q = holdsAt revealed g q.
Proof.
  intros Hrun.
  destruct (getCell g p) as [cell|] eqn:Hp.
  2:{ unfold toggleFlag, deref in Hrun. by rewrite Hp in Hrun. }
  destruct (revealed cell) eqn:Hr.
  { rewrite (toggleFlag_revealed p g cell Hp Hr) in Hrun. by injection Hrun as <-. }
  rewrite (toggleFlag_covered p g cell Hp Hr) in Hrun. injection Hrun as <-.
  change (holdsAt revealed (updCell p (set_flagged (negb (flagged cell))) g) q =
          holdsAt revealed g q).
  rewrite holdsAt_updCell. case_decide; [subst q|done]. unfold holdsAt. by rewrite Hp.
Qed.

End Reached.

(** ** The draws of the placement *)

Section Draws.
Implicit Types (g : Game) (p q : Pos) (picks : list Pos).

Lemma placeLoop_drawn picks (safeZone : gset Pos) : ∀ placed g g',
  placeLoop picks safeZone placed g = Done g' →
  ∀ q, mineAt g' q = true → mineAt g q = true ∨ (q ∈ picks ∧ q ∉ safeZone).
Proof.
  induction picks as [|p picks IH]; intros placed g g'; simpl.
  - destruct (placed <? mineCount g)%Z; [done|]. intros [= <-]. auto.
  - destruct (placed <? mineCount g)%Z; [|intros [= <-]; auto].
    destruct (getCell g p) as [cell|] eqn:Hp; [|done].
    assert (Hskip : placeLoop picks safeZone placed g = Done g' →
                    ∀ q, mineAt g' q = true →
                         mineAt g q = true ∨ (q ∈ p :: picks ∧ q ∉ safeZone)).
    { intros Hrun q Hq. destruct (IH _ _ _ Hrun q Hq) as [?|[? ?]]; [auto|].
      right. split; [by apply elem_of_cons; right|done]. }
    destruct (mine cell); [done|]. case_decide as Hin; [done|].
    intros Hrun q Hq. destruct (IH _ _ _ Hrun q Hq) as [Hm|[? ?]].
    + unfold mineAt in Hm. rewrite holdsAt_updCell in Hm.
      case_decide; [subst q|by left]. right. split; [by apply elem_of_cons; left|done].
    + right. split; [by apply elem_of_cons; right|done].
Qed.

Lemma placeLoop_no_throw picks (safeZone : gset Pos) : ∀ placed g,
  wellFormed g → Forall (inBounds g) picks →
  placeLoop picks safeZone placed g ≠ TypeError.
Proof.
  induction picks as [|p picks IH]; intros placed g Hwf Hpicks; simpl.
  - by destruct (placed <? mineCount g)%Z.
  - destruct (placed <? mineCount g)%Z; [|done].
    apply Forall_cons in Hpicks as [Hp Hpicks].
    destruct (wellFormed_getCell g p Hwf Hp) as [cell ->].
    destruct (mine cell); [by apply IH|]. case_decide; [by apply IH|].
    apply IH; [by apply wellFormed_updCell|done].
Qed.

Lemma placeMines_drawn picks r0 c0 g g' :
  wellFormed g → placeMines picks r0 c0 g = Done g' →
  ∀ q, mineAt g' q = true → mineAt g q = true ∨ (q ∈ picks ∧ q ≠ (r0, c0)).
Proof.
  intros Hwf. unfold placeMines.
  destruct (placeLoop picks {[(r0, c0)]} 0%Z g) as [g1| |] eqn:Hloop; try done. simpl.
  destruct (placeLoop_spec _ _ _ _ _ Hwf Hloop) as (Hwf1 & _).
  destruct (forEach_assignAdjacent g1 Hwf1) as (g2 & Hrun & _ & _ & Hcells).
  rewrite Hrun. intros [= <-] q Hq.
  assert (Hq1 : mineAt g1 q = true).
  { unfold mineAt, holdsAt in *. rewrite Hcells in Hq.
    destruct (getCell g1 q) as [c|]; simpl in *; [|done].
    destruct (mine c) eqn:E; [done|]. simpl in Hq. congruence. }
  destruct (placeLoop_drawn _ _ _ _ _ Hloop q Hq1) as [?|[? Hns]]; [by left|].
  right. split; [done|]. intros ->. apply Hns. by apply elem_of_singleton.
Qed.

Lemma placeMines_no_throw picks r0 c0 g :
  wellFormed g → Forall (inBounds g) picks → placeMines picks r0 c0 g ≠ TypeError.
Proof.
  intros Hwf Hpicks. unfold placeMines.
  pose proof (placeLoop_no_throw picks {[(r0, c0)]} 0%Z g Hwf Hpicks) as Hloop.
  destruct (placeLoop picks {[(r0, c0)]} 0%Z g) as [g1| |] eqn:E; try done. simpl.
  destruct (placeLoop_spec _ _ _ _ _ Hwf E) as (Hwf1 & _).
  destruct (forEach_assignAdjacent g1 Hwf1) as (g2 & -> & _). done.
Qed.

End Draws.

(** X15.  Whatever is played after a reset, the game stays nine by nine with
    ten mines to place and a board of that shape, and the board holds no
    mine until the first reveal and exactly ten from then on. *)
Theorem board_configuration (evs : list Event) (g0 g : Game) :
  play evs (resetGame g0) = Done g →
  rows g = 9 ∧ cols g = 9 ∧ mineCount g = 10%Z ∧ wellFormed g ∧
  countCells mine g = (if firstClick g then 0 else 10).
Proof.
  intros Hinv%play_reached. repeat split; try apply Hinv.
Qed.

Lemma board_configuration_witness :
  countCells mine
    (gameAfter [Act (RightClick (5, 5)); Act (Click cornerPicks (0, 0)); Tick]) = 10.
Proof.
  destruct (board_configuration
              [Act (RightClick (5, 5)); Act (Click cornerPicks (0, 0)); Tick] initialGame
              (gameAfter [Act (RightClick (5, 5)); Act (Click cornerPicks (0, 0)); Tick]))
    as (_ & _ & _ & _ & H); [vm_compute; reflexivity|].
  rewrite H. vm_compute. reflexivity.
Defined.

(** X16.  In every game played from a reset, before and after the mines are
    placed and whatever has been revealed or flagged since, the [adjacent]
    of a cell without a mine is the number of mines among its neighbours. *)
Theorem adjacency_always_exact (evs : list Event) (g0 g : Game) (q : Pos) (c : Cell) :
  play evs (resetGame g0) = Done g → getCell g q = Some c → mine c = false →
  adjacent c = neighbourMines g q ∧ adjacent c ≤ 8.
Proof.
  intros Hinv%play_reached Hq Hm.
  rewrite (pi_adjacent g Hinv q c Hq Hm). split; [done|apply neighbourMines_le].
Qed.

Lemma adjacency_always_exact_witness :
  neighbourMines
    (gameAfter [Act (Click cornerPicks (0, 0)); Act (RightClick (0, 1)); Tick]) (0, 0) = 3.
Proof.
  destruct (adjacency_always_exact
              [Act (Click cornerPicks (0, 0)); Act (RightClick (0, 1)); Tick] initialGame
              (gameAfter [Act (Click cornerPicks (0, 0)); Act (RightClick (0, 1)); Tick])
              (0, 0) (mkCell 0 0 false 3 true false))
    as [H _]; [vm_compute; reflexivity..|].
  rewrite <- H. reflexivity.
Defined.

(** X17.  The timer runs exactly while the game is in progress: it is not
    running before the first reveal, when the clock still shows zero, and it
    is stopped when the game is won or lost. *)
Theorem timer_runs_iff_in_progress (evs : list Event) (g0 g : Game) :
  play evs (resetGame g0) = Done g →
  (timerRunning g = true ↔ phase g = InProgress) ∧
  (phase g = NotStarted → timeElapsed g = 0%Z).
Proof.
  intros Hinv%play_reached.
  pose proof (pi_timer g Hinv) as Ht. pose proof (pi_time g Hinv) as Hz.
  unfold phase. rewrite Ht.
  destruct (gameOver g), (firstClick g), (banner g); simpl; split; try done; by auto.
Qed.

Lemma timer_runs_iff_in_progress_witness :
  timerRunning (gameAfter [Act (Click cornerPicks (0, 0)); Act (Click [] (1, 0))]) = true ↔
  phase (gameAfter [Act (Click cornerPicks (0, 0)); Act (Click [] (1, 0))]) = InProgress.
Proof.
  apply (timer_runs_iff_in_progress
           [Act (Click cornerPicks (0, 0)); Act (Click [] (1, 0))] initialGame).
  vm_compute. reflexivity.
Defined.

(** X18.  The clock counts the ticks of a game in progress and nothing else:
    a tick adds one second while the game is in progress and nothing before
    the first reveal or after the end, and no command other than a reset
    changes the time. *)
Theorem clock_counts_ticks_in_progress (evs : list Event) (g0 g : Game) (ev : Event)
    (g' : Game) :
  play evs (resetGame g0) = Done g → ev ≠ Act ResetClick → happen ev g = Done g' →
  timeElapsed g' =
  (timeElapsed g + match ev, phase g with Tick, InProgress => 1 | _, _ => 0 end)%Z.
Proof.
  intros Hinv%play_reached Hne Hrun. destruct ev as [cmd|]; simpl in Hrun.
  - assert (Hcmd : cmd ≠ ResetClick) by (by intros ->).
    assert (timeElapsed g' = timeElapsed g) as ->; [|simpl; lia].
    apply (perform_relates playInv (fun h h' => timeElapsed h' = timeElapsed h))
      with (cmd := cmd); try done.
    + intros picks p h h'. apply revealCell_clock.
    + intros p h h' Hh Ht. by destruct (toggleFlag_same p h h' Hh Ht) as (_ & ? & _).
  - pose proof (pi_timer g Hinv) as Ht. unfold phase.
    destruct (timerRunning g); injection Hrun as <-; simpl;
      destruct (gameOver g), (firstClick g), (banner g); simpl in *; try done; lia.
Qed.

Lemma clock_counts_ticks_in_progress_witness :
  timeElapsed (gameAfter [Tick; Act (Click cornerPicks (0, 0)); Tick; Tick]) = 2%Z.
Proof.
  rewrite (clock_counts_ticks_in_progress
             [Tick; Act (Click cornerPicks (0, 0)); Tick] initialGame
             (gameAfter [Tick; Act (Click cornerPicks (0, 0)); Tick]) Tick
             (gameAfter [Tick; Act (Click cornerPicks (0, 0)); Tick; Tick]));
    [vm_compute; reflexivity|vm_compute; reflexivity|discriminate|vm_compute; reflexivity].
Defined.

(** X19.  How the phases follow each other without a reset: a game not
    started stays so, gets in progress or is won outright, and is never lost
    by its first reveal; a game in progress stays so or is won or lost; a
    game won stays won and a game lost stays lost, also under calls of the
    exported [revealCell] and [toggleFlag]. *)
Theorem phase_transitions (evs : list Event) (g0 g : Game) (ev : Event) (g' : Game) :
  play evs (resetGame g0) = Done g → ev ≠ Act ResetClick → happen ev g = Done g' →
  mayFollow (phase g) (phase g') = true.
Proof.
  intros Hinv%play_reached Hne Hrun. destruct ev as [cmd|]; simpl in Hrun.
  - assert (Hcmd : cmd ≠ ResetClick) by (by intros ->).
    apply (perform_relates playInv (fun h h' => mayFollow (phase h) (phase h') = true))
      with (cmd := cmd); try done.
    + intros h. apply mayFollow_refl.
    + intros picks p h h' Hh Hr. by destruct (revealCell_phase picks p h h' Hh Hr).
    + intros p h h' Hh Ht. destruct (toggleFlag_same p h h' Hh Ht) as (-> & _).
      apply mayFollow_refl.
  - destruct (timerRunning g); injection Hrun as <-; apply mayFollow_refl.
Qed.

Lemma phase_transitions_witness :
  mayFollow (phase (gameAfter [Act (RightClick (3, 3))]))
            (phase (gameAfter [Act (RightClick (3, 3)); Act (Click topRowPicks (4, 4))])) =
  true.
Proof.
  apply (phase_transitions [Act (RightClick (3, 3))] initialGame
           (gameAfter [Act (RightClick (3, 3))]) (Act (Click topRowPicks (4, 4))));
    [vm_compute; reflexivity|discriminate|vm_compute; reflexivity].
Defined.

(** X20.  A game that is won has every cell revealed, the mines included,
    [revealedCount] at 71, the number of cells without a mine, and the timer
    stopped. *)
Theorem won_board_fully_revealed (evs : list Event) (g0 g : Game) :
  play evs (resetGame g0) = Done g → phase g = Won →
  (∀ q c, getCell g q = Some c → revealed c = true) ∧
  revealedCount g = 71%Z ∧ timerRunning g = false.
Proof.
  intros Hinv%play_reached [Hgo Hw]%phase_won_banner.
  pose proof (won_all_revealed g Hinv Hw) as Hall.
  pose proof (inv_wf g (pi_base g Hinv)) as Hwf.
  split; [done|]. split.
  - rewrite (pi_count g Hinv (or_intror Hw)). unfold safeRevealed.
    assert (Hext : ∀ q, holdsAt (fun c => revealed c && negb (mine c)) g q =
                        holdsAt (fun c => negb (mine c)) g q).
    { intros q. unfold holdsAt. destruct (getCell g q) as [c|] eqn:E; [|done].
      by rewrite (Hall q c E). }
    rewrite (countCells_ext _ (fun c => negb (mine c)) g g) by done.
    pose proof (countCells_total mine g Hwf) as Htot.
    pose proof (pi_mines g Hinv) as Hm.
    rewrite (pi_over g Hinv Hgo) in Hm.
    rewrite (pi_rows g Hinv), (pi_cols g Hinv) in Htot. lia.
  - rewrite (pi_timer g Hinv), Hgo. apply andb_false_r.
Qed.

Lemma won_board_fully_revealed_witness :
  revealedCount (gameAfter [Act (Click topRowPicks (4, 4)); Tick]) = 71%Z.
Proof.
  apply (won_board_fully_revealed [Act (Click topRowPicks (4, 4)); Tick] initialGame);
    vm_compute; reflexivity.
Defined.

(** X21.  Nothing but a reset changes a game that is won: clicks, keys, long
    presses, ticks, and also calls of the exported [revealCell] and
    [toggleFlag], leave the very same game. *)
Theorem won_game_is_frozen (evs : list Event) (g0 g : Game) (ev : Event) (g' : Game) :
  play evs (resetGame g0) = Done g → phase g = Won →
  ev ≠ Act ResetClick → happen ev g = Done g' → g' = g.
Proof.
  intros Hinv%play_reached Hw Hne Hrun. destruct ev as [cmd|]; simpl in Hrun.
  - assert (Hcmd : cmd ≠ ResetClick) by (by intros ->).
    apply (perform_relates playInv (fun h h' => phase h = Won → h' = h))
      with (cmd := cmd); try done.
    + intros picks p h h' Hh Hr. by destruct (revealCell_phase picks p h h' Hh Hr).
    + intros p h h' Hh Ht. by destruct (toggleFlag_same p h h' Hh Ht) as (_ & _ & _ & ?).
  - apply phase_won_banner in Hw as [Hgo _].
    pose proof (pi_timer g Hinv) as Ht. rewrite Hgo, andb_false_r in Ht.
    rewrite Ht in Hrun. by injection Hrun.
Qed.

Lemma won_game_is_frozen_witness :
  gameAfter [Act (Click topRowPicks (4, 4)); Act (CallToggle (0, 0))] =
  gameAfter [Act (Click topRowPicks (4, 4))].
Proof.
  apply (won_game_is_frozen [Act (Click topRowPicks (4, 4))] initialGame
           (gameAfter [Act (Click topRowPicks (4, 4))]) (Act (CallToggle (0, 0))));
    [vm_compute; reflexivity|vm_compute; reflexivity|discriminate|vm_compute; reflexivity].
Defined.

(** X22.  While the game is not over, [revealedCount] is the number of
    revealed cells, none of which holds a mine, and it is below 71: a game
    with every cell without a mine revealed is over. *)
Theorem revealedCount_counts_revealed (evs : list Event) (g0 g : Game) :
  play evs (resetGame g0) = Done g → gameOver g = false →
  revealedCount g = Z.of_nat (countCells revealed g) ∧
  (revealedCount g < 71)%Z ∧
  ∀ q, holdsAt revealed g q = true → mineAt g q = false.
Proof.
  intros Hinv%play_reached Hgo.
  pose proof (inv_wf g (pi_base g Hinv)) as Hwf.
  assert (Hsafe : ∀ q, holdsAt revealed g q = true → mineAt g q = false).
  { intros q Hq. destruct (mineAt g q) eqn:Hm; [|done].
    rewrite (inv_mines g (pi_base g Hinv) q Hq Hm) in Hgo. done. }
  split; [|split; [|done]].
  - rewrite (pi_count g Hinv (or_introl Hgo)). unfold safeRevealed. f_equal.
    apply countCells_ext; try done. intros q. specialize (Hsafe q).
    unfold mineAt, holdsAt in *. destruct (getCell g q) as [c|]; [|done].
    destruct (revealed c); [|done]. by rewrite Hsafe.
  - pose proof (pi_open g Hinv Hgo) as Hlt. unfold totalSafe in Hlt.
    rewrite (pi_rows g Hinv), (pi_cols g Hinv), (pi_mineCount g Hinv) in Hlt. lia.
Qed.

Lemma revealedCount_counts_revealed_witness :
  revealedCount (gameAfter [Act (Click cornerPicks (0, 0)); Act (Click [] (4, 4))]) =
  Z.of_nat (countCells revealed
              (gameAfter [Act (Click cornerPicks (0, 0)); Act (Click [] (4, 4))])).
Proof.
  apply (revealedCount_counts_revealed
           [Act (Click cornerPicks (0, 0)); Act (Click [] (4, 4))] initialGame);
    vm_compute; reflexivity.
Defined.

(** X23.  A mine is revealed exactly when the game is over: no mine is
    revealed while the game goes on, and the end of the game, won or lost,
    reveals every mine. *)
Theorem mine_revealed_iff_game_over (evs : list Event) (g0 g : Game) (q : Pos) :
  play evs (resetGame g0) = Done g → mineAt g q = true →
  (holdsAt revealed g q = true ↔ gameOver g = true).
Proof.
  intros Hinv%play_reached Hm. split.
  - intros Hr. by apply (inv_mines g (pi_base g Hinv) q).
  - intros Hgo. by apply (pi_exposed g Hinv).
Qed.

Lemma mine_revealed_iff_game_over_witness :
  holdsAt revealed
    (gameAfter [Act (Click cornerPicks (0, 0)); Act (Click [] (1, 0))]) (8, 8) = true ↔
  gameOver (gameAfter [Act (Click cornerPicks (0, 0)); Act (Click [] (1, 0))]) = true.
Proof.
  apply (mine_revealed_iff_game_over
           [Act (Click cornerPicks (0, 0)); Act (Click [] (1, 0))] initialGame);
    vm_compute; reflexivity.
Defined.

(** X24.  Once the mines are placed nothing but a reset moves them: every
    command and tick leaves the [mine] and the [adjacent] of every cell as
    they were, whatever draws a later reveal is given. *)
Theorem mines_fixed_after_placement (evs : list Event) (g0 g : Game) (ev : Event)
    (g' : Game) :
  play evs (resetGame g0) = Done g → firstClick g = false →
  ev ≠ Act ResetClick → happen ev g = Done g' →
  ∀ q c, getCell g q = Some c →
         ∃ c', getCell g' q = Some c' ∧ mine c' = mine c ∧ adjacent c' = adjacent c.
Proof.
  intros Hinv%play_reached Hfc Hne Hrun. destruct ev as [cmd|]; simpl in Hrun.
  - assert (Hcmd : cmd ≠ ResetClick) by (by intros ->).
    apply (perform_relates playInv
             (fun h h' => firstClick h = false → ∀ q c, getCell h q = Some c →
                ∃ c', getCell h' q = Some c' ∧ mine c' = mine c ∧ adjacent c' = adjacent c))
      with (cmd := cmd); try done.
    + intros h _ q c Hq. by exists c.
    + intros picks p h h' Hh Hr Hf. by apply (revealCell_board picks p).
    + intros p h h' Hh Ht _. by destruct (toggleFlag_same p h h' Hh Ht) as (_ & _ & ? & _).
  - intros q c Hq. exists c.
    destruct (timerRunning g); injection Hrun as <-; done.
Qed.

Lemma mines_fixed_after_placement_witness :
  ∃ c', getCell (gameAfter [Act (Click cornerPicks (0, 0)); Act (Click topRowPicks (4, 4))])
          (0, 1) = Some c' ∧
        mine c' = true ∧ adjacent c' = 0.
Proof.
  apply (mines_fixed_after_placement [Act (Click cornerPicks (0, 0))] initialGame
           (gameAfter [Act (Click cornerPicks (0, 0))]) (Act (Click topRowPicks (4, 4)))
           (gameAfter [Act (Click cornerPicks (0, 0)); Act (Click topRowPicks (4, 4))])
           ltac:(vm_compute; reflexivity) ltac:(vm_compute; reflexivity)
           ltac:(discriminate) ltac:(vm_compute; reflexivity)
           (0, 1) (mkCell 0 1 true 0 false false)).
  vm_compute. reflexivity.
Defined.

(** X25.  In every game played from a reset the mine counter shows ten minus
    the number of flagged cells as three digits, and zero once more than ten
    cells are flagged: it never shows a negative number. *)
Theorem mines_counter_shows_unflagged (evs : list Event) (g0 g : Game) :
  play evs (resetGame g0) = Done g →
  updateMinesRemaining g =
  [digitChar 0; digitChar (Z.of_nat (10 - countCells flagged g) / 10);
   digitChar (Z.of_nat (10 - countCells flagged g) mod 10)].
Proof.
  intros Hinv%play_reached. unfold updateMinesRemaining.
  rewrite (pi_mineCount g Hinv), (inv_flags g (pi_base g Hinv)).
  set (f := countCells flagged g).
  replace (Z.max 0 (10 - Z.of_nat f)) with (Z.of_nat (10 - f)) by lia.
  rewrite formatNumber_digits by lia.
  rewrite (Z.div_small (Z.of_nat (10 - f)) 100) by lia.
  rewrite (Z.mod_small (Z.of_nat (10 - f) / 10) 10); [done|].
  split; [apply Z.div_pos; lia|apply Z.div_lt_upper_bound; lia].
Qed.

Lemma mines_counter_shows_unflagged_witness :
  updateMinesRemaining (gameAfter [Act (RightClick (0, 0)); Act (LongPress (3, 4))]) =
  [digitChar 0; digitChar 0; digitChar 8].
Proof.
  rewrite (mines_counter_shows_unflagged
             [Act (RightClick (0, 0)); Act (LongPress (3, 4))] initialGame);
    [|vm_compute; reflexivity].
  vm_compute. reflexivity.
Defined.

(** X26.  In every game played from a reset no handler throws or hangs on
    the element of a cell of the grid, and neither do the exported functions
    on such a cell, provided the draws of a first reveal stay in the grid
    and name ten different cells other than the one revealed. *)
Theorem handlers_complete_on_grid (evs : list Event) (g0 g : Game) (picks : list Pos)
    (e : Pos) (key : Key) :
  play evs (resetGame g0) = Done g → inBounds g e →
  (firstClick g = true → Forall (inBounds g) picks ∧ 10 ≤ distinctDraws e picks) →
  ∀ cmd, cmd ∈ [Click picks e; RightClick e; KeyDown key picks e; LongPress e;
                CallReveal picks e; CallToggle e] →
         ∃ g', perform cmd g = Done g'.
Proof.
  intros Hinv%play_reached Hb Hdraws cmd Hcmd.
  destruct (wellFormed_getCell g e (inv_wf g (pi_base g Hinv)) Hb) as [cell Hcell].
  pose proof (revealCell_total picks e g Hinv Hb Hdraws) as Hreveal.
  pose proof (toggleFlag_total e g cell Hcell) as Htoggle.
  pose proof (getCell_getCellFromEvent g e cell Hcell) as Hev.
  repeat (apply elem_of_cons in Hcmd as [->|Hcmd]); simpl;
    try (unfold onCellClick, onCellRightClick, onCellKeyDown, onLongPress;
         rewrite Hev; simpl;
         destruct (gameOver g), (flagged cell), (revealed cell); try destruct key;
         simpl; eauto).
  - done.
  - done.
  - by apply elem_of_nil in Hcmd.
Qed.

Lemma handlers_complete_on_grid_witness :
  ∃ g', perform (Click cornerPicks (0, 0)) (gameAfter [Act (RightClick (3, 3))]) = Done g'.
Proof.
  apply (handlers_complete_on_grid [Act (RightClick (3, 3))] initialGame
           (gameAfter [Act (RightClick (3, 3))]) cornerPicks (0, 0) OtherKey).
  - vm_compute. reflexivity.
  - split; vm_compute; lia.
  - intros _. split.
    + apply (bool_decide_unpack _). vm_compute. reflexivity.
    + vm_compute. lia.
  - constructor.
Defined.

(** X27.  On a board without mines and with draws that stay in the grid,
    [placeMines] gets out of its loop exactly when the draws name at least
    [mineCount] different cells other than the safe one, and every mine then
    lies on a drawn cell other than the safe one; with fewer such draws the
    loop goes on, and the function never throws. *)
Theorem placeMines_completes_iff (picks : list Pos) (r0 c0 : nat) (g : Game) :
  wellFormed g → countCells mine g = 0 → Forall (inBounds g) picks →
  ((∃ g', placeMines picks r0 c0 g = Done g') ↔
   (mineCount g ≤ Z.of_nat (distinctDraws (r0, c0) picks))%Z) ∧
  (placeMines picks r0 c0 g = Spin ↔
   (Z.of_nat (distinctDraws (r0, c0) picks) < mineCount g)%Z) ∧
  (∀ g', placeMines picks r0 c0 g = Done g' →
         ∀ q, mineAt g' q = true → q ∈ picks ∧ q ≠ (r0, c0)).
Proof.
  intros Hwf Hnone Hpicks.
  assert (Hfree : ∀ q, mineAt g q = false) by (intros q; by apply countCells_zero).
  assert (Hdrawn : ∀ g', placeMines picks r0 c0 g = Done g' →
                         ∀ q, mineAt g' q = true → q ∈ picks ∧ q ≠ (r0, c0)).
  { intros g' Hrun q Hq.
    destruct (placeMines_drawn picks r0 c0 g g' Hwf Hrun q Hq) as [Hm|?]; [|done].
    by rewrite Hfree in Hm. }
  assert (Hdone : (∃ g', placeMines picks r0 c0 g = Done g') ↔
                  (mineCount g ≤ Z.of_nat (distinctDraws (r0, c0) picks))%Z).
  { split; [|by apply placeMines_done].
    intros [g' Hrun]. destruct (Z.le_gt_cases 0 (mineCount g)) as [Hpos|]; [|lia].
    destruct (placeMines_spec _ _ _ _ _ Hwf Hrun) as (Hwf' & _ & _ & _ & Hcnt & _).
    specialize (Hcnt Hpos). rewrite Hnone in Hcnt.
    rewrite (countCells_positions mine g' Hwf') in Hcnt.
    assert (length (filter (fun q => holdsAt mine g' q = true) (allPos g')) ≤
            distinctDraws (r0, c0) picks); [|lia].
    apply submseteq_length, NoDup_submseteq.
    - apply NoDup_filter, NoDup_allPos.
    - intros q [Hq _]%list_elem_of_filter.
      apply elem_of_remove_dups, list_elem_of_filter.
      destruct (Hdrawn g' Hrun q Hq). done. }
  split; [done|]. split; [|done].
  pose proof (placeMines_no_throw picks r0 c0 g Hwf Hpicks) as Hthrow.
  split.
  - intros Hspin. apply Z.lt_nge. intros Hle. apply Hdone in Hle as [g' Hrun].
    congruence.
  - intros Hlt. destruct (placeMines picks r0 c0 g) as [g'| |] eqn:E; try done.
    assert (mineCount g ≤ Z.of_nat (distinctDraws (r0, c0) picks))%Z; [|lia].
    apply Hdone. by exists g'.
Qed.

Lemma placeMines_completes_iff_witness :
  placeMines [(0, 1); (1, 0); (0, 1); (0, 0); (8, 8)] 0 0 (resetGame initialGame) = Spin.
Proof.
  destruct (placeMines_completes_iff [(0, 1); (1, 0); (0, 1); (0, 0); (8, 8)] 0 0
              (resetGame initialGame)) as (_ & H & _).
  - vm_compute. reflexivity.
  - vm_compute. reflexivity.
  - apply (bool_decide_unpack _). vm_compute. reflexivity.
  - apply H. vm_compute. reflexivity.
Defined.

(** X28.  A revealed cell is inert: a click, a right click, a key, a long
    press and calls of the exported [revealCell] and [toggleFlag] on it all
    leave the game as it is; it cannot be flagged, and a click on a number
    reveals none of its neighbours. *)
Theorem revealed_cell_is_inert (g : Game) (e : Pos) (cell : Cell) (picks : list Pos)
    (key : Key) :
  getCell g e = Some cell → revealed cell = true →
  ∀ cmd, cmd ∈ [Click picks e; RightClick e; KeyDown key picks e; LongPress e;
                CallReveal picks e; CallToggle e] →
         perform cmd g = Done g.
Proof.
  intros Hcell Hr cmd Hcmd.
  pose proof (getCell_getCellFromEvent g e cell Hcell) as Hev.
  assert (Hreveal : revealCell picks e g = Done g).
  { apply (revealCell_blocked picks e g cell Hcell). by rewrite Hr. }
  pose proof (toggleFlag_revealed e g cell Hcell Hr) as Htoggle.
  repeat (apply elem_of_cons in Hcmd as [->|Hcmd]); simpl;
    try (unfold onCellClick, onCellRightClick, onCellKeyDown, onLongPress;
         rewrite Hev; simpl; rewrite ?Hr;
         destruct (gameOver g), (flagged cell); try destruct key; simpl; done).
  - done.
  - done.
  - by apply elem_of_nil in Hcmd.
Qed.

Lemma revealed_cell_is_inert_witness :
  perform (RightClick (0, 0)) (gameAfter [Act (Click cornerPicks (0, 0))]) =
  Done (gameAfter [Act (Click cornerPicks (0, 0))]).
Proof.
  apply (revealed_cell_is_inert (gameAfter [Act (Click cornerPicks (0, 0))]) (0, 0)
           (mkCell 0 0 false 3 true false) [] OtherKey).
  - vm_compute. reflexivity.
  - reflexivity.
  - constructor. constructor.
Defined.

(** X29.  Nothing but a reset covers a cell again: a cell that is revealed
    stays revealed under every command and tick. *)
Theorem revealed_cells_stay_revealed (evs : list Event) (g0 g : Game) (ev : Event)
    (g' : Game) :
  play evs (resetGame g0) = Done g → ev ≠ Act ResetClick → happen ev g = Done g' →
  ∀ q, holdsAt revealed g q = true → holdsAt revealed g' q = true.
Proof.
  intros Hinv%play_reached Hne Hrun. destruct ev as [cmd|]; simpl in Hrun.
  - assert (Hcmd : cmd ≠ ResetClick) by (by intros ->).
    apply (perform_relates playInv
             (fun h h' => ∀ q, holdsAt revealed h q = true → holdsAt revealed h' q = true))
      with (cmd := cmd); try done.
    + intros picks p h h' Hh Hr q. by apply (revealCell_keeps picks p h h' Hh Hr).
    + intros p h h' _ Ht q. by rewrite (toggleFlag_keeps_revealed p h h' q Ht).
  - destruct (timerRunning g); by injection Hrun as <-.
Qed.

Lemma revealed_cells_stay_revealed_witness :
  holdsAt revealed
    (gameAfter [Act (Click cornerPicks (0, 0)); Act (Click [] (1, 0))]) (0, 0) = true.
Proof.
  apply (revealed_cells_stay_revealed [Act (Click cornerPicks (0, 0))] initialGame
           (gameAfter [Act (Click cornerPicks (0, 0))]) (Act (Click [] (1, 0))));
    [vm_compute; reflexivity|discriminate|vm_compute; reflexivity..].
Defined.

(** X30.  A reveal never touches a flag: whatever it reveals, by flood fill
    or by the exposure of the mines at the end of the game, and also when it
    places the mines, every cell keeps its [flagged] and [flagsPlaced] stays
    as it was. *)
Theorem reveal_keeps_flags (evs : list Event) (g0 g : Game) (picks : list Pos) (e : Pos)
    (cmd : Command) (g' : Game) :
  play evs (resetGame g0) = Done g →
  cmd ∈ [Click picks e; KeyDown RevealKey picks e; CallReveal picks e] →
  perform cmd g = Done g' →
  flagsPlaced g' = flagsPlaced g ∧
  ∀ q, holdsAt flagged g' q = holdsAt flagged g q.
Proof.
  intros Hinv%play_reached Hcmd Hrun.
  assert (Hreveal : g' = g ∨ revealCell picks e g = Done g').
  { repeat (apply elem_of_cons in Hcmd as [->|Hcmd]); simpl in Hrun.
    - unfold onCellClick in Hrun.
      destruct (getCellFromEvent g e) as [[cell|]| |]; simpl in Hrun; try done.
      + destruct (gameOver g), (flagged cell); try (left; by injection Hrun). by right.
      + left. by injection Hrun.
    - unfold onCellKeyDown in Hrun.
      destruct (getCellFromEvent g e) as [[cell|]| |]; simpl in Hrun; try done.
      + destruct (gameOver g), (flagged cell); try (left; by injection Hrun). by right.
      + left. by injection Hrun.
    - by right.
    - by apply elem_of_nil in Hcmd. }
  destruct Hreveal as [->|Hreveal]; [done|].
  destruct (revealCell_keeps picks e g g' Hinv Hreveal) as [Hfp Hq].
  split; [done|]. intros q. apply Hq.
Qed.

Lemma reveal_keeps_flags_witness :
  holdsAt flagged
    (gameAfter [Act (Click cornerPicks (0, 0)); Act (RightClick (0, 1));
                Act (Click [] (1, 0))]) (0, 1) = true.
Proof.
  destruct (reveal_keeps_flags
              [Act (Click cornerPicks (0, 0)); Act (RightClick (0, 1))] initialGame
              (gameAfter [Act (Click cornerPicks (0, 0)); Act (RightClick (0, 1))])
              [] (1, 0) (Click [] (1, 0))
              (gameAfter [Act (Click cornerPicks (0, 0)); Act (RightClick (0, 1));
                          Act (Click [] (1, 0))])) as [_ H].
  - vm_compute. reflexivity.
  - constructor.
  - vm_compute. reflexivity.
  - rewrite H. vm_compute. reflexivity.
Defined.
